(** * HierCC: hierarchical clustering codes of allelic profiles

    A shallow embedding of [HierCC.py] (functions [prepare_mat] and
    [hierCC]) and the properties of its code matrix.

    Conventions of the embedding.
    - A numpy 2-D integer array is a list of rows, each a list of [Z].
    - A distance matrix is a list of rows of [nat] (distances are counts).
    - A Python exception is [None] in the option monad.
    - Row [r] of the code matrix [res] has the profile id in column 0 and
      the code of threshold [t] (column [HC t] of the report) in column
      [t + 1]. *)

From stdpp Require Import base option list gmap strings pretty.
From Stdlib Require Import ZArith Lia Ascii Sorted.

Abbreviation matrix := (list (list Z)).
Abbreviation dmatrix := (list (list nat)).

(** One row of [slc.astype(int)]: the two merged nodes [c[0]], [c[1]] and
    the merge distance [c[2]]. *)
Abbreviation merge_event := (nat * nat * nat)%type.

(** ** Loops and small numpy helpers *)

(** A [for] loop threading a state, aborting on the first exception. *)
Fixpoint oloop {St A : Type} (body : St → A → option St) (s : St)
    (l : list A) : option St :=
  match l with
  | [] => Some s
  | x :: l' => match body s x with
               | Some s' => oloop body s' l'
               | None => None
               end
  end.

(** [enumerate(l)] *)
Definition enumerate {A : Type} (l : list A) : list (nat * A) :=
  zip (seq 0 (length l)) l.

(** [m.T[0]]: the first column. *)
Definition column0 (m : matrix) : list Z := (λ r, default 0%Z (head r)) <$> m.

(** [m.shape[1]] of a matrix with at least one row. *)
Definition shape1 (m : matrix) : nat := length (default [] (head m)).

(** [m.T[0] = v]: overwrite the first column. *)
Definition set_column0 (v : list Z) (m : matrix) : matrix :=
  zip_with (λ x r, <[0 := x]> r) v m.

(** [np.max(l)] and [min(l)]; both raise on an empty sequence. *)
Definition list_maxZ (l : list Z) : option Z :=
  match l with [] => None | x :: l' => Some (foldl Z.max x l') end.

Definition list_minZ (l : list Z) : option Z :=
  match l with [] => None | x :: l' => Some (foldl Z.min x l') end.

(** [np.argmin(l)]: the first position of the least entry; raises on an
    empty sequence. *)
Fixpoint argmin_from (l : list nat) (i : nat) (bi bv : nat) : nat :=
  match l with
  | [] => bi
  | x :: l' => if x <? bv then argmin_from l' (S i) i x
               else argmin_from l' (S i) bi bv
  end.

Definition argmin (l : list nat) : option nat :=
  match l with [] => None | x :: l' => Some (argmin_from l' 1 0 x) end.

(** [a[k:] = b[k:]] for two rows of one array (equal widths). *)
Definition copy_from (k : nat) (a b : list Z) : list Z := take k a ++ drop k b.

(** [r[:] = v]: numpy broadcasts a row of width 1 and otherwise needs equal
    widths. *)
Definition assign_row (r v : list Z) : option (list Z) :=
  if length v =? length r then Some v
  else match v with
       | [x] => Some (replicate (length r) x)
       | _ => None
       end.

(** A Python dict built by a comprehension over [l]: a later pair with the
    same key replaces an earlier one. *)
Definition dict_of (l : list (Z * nat)) : gmap Z nat := list_to_map (reverse l).

(** ** Stable sort by key: [m[np.argsort(key, kind='mergesort')]] *)

Fixpoint insert_by {A : Type} (key : A → nat) (x : A) (l : list A) : list A :=
  match l with
  | [] => [x]
  | y :: l' => if key y <=? key x then y :: insert_by key x l' else x :: y :: l'
  end.

(** Rows are inserted in file order, each one behind every row whose key is
    not larger: rows with equal keys keep their file order. *)
Definition stable_sort_by {A : Type} (key : A → nat) (m : list A) : list A :=
  foldl (λ acc x, insert_by key x acc) [] m.

(** [np.sum(mat <= 0, 1)] for one row. *)
Definition absence (r : list Z) : nat := length (filter (λ x, (x ≤ 0)%Z) r).

(** ** [prepare_mat] *)

(** The profile table of a file that loads: the header row of strings and
    the data rows, whose cells are taken as already converted by
    [astype(int)]. The failures of the conversion are those of
    [prepare_mat_file] below. *)
Record table := { header : list string; body : matrix }.

(** [[i == 0 or (not h.startswith('#')) for i, h in enumerate(mat[0])]] *)
Definition allele_columns (hd : list string) : list bool :=
  imap (λ i h, (i =? 0) || negb (String.prefix "#" h)) hd.

(** Boolean-mask column selection [r[mask]]. *)
Definition select_columns (mask : list bool) (r : list Z) : list Z :=
  snd <$> filter (λ p, fst p = true) (zip mask r).

Definition prepare_mat (t : table) : matrix :=
  let mat := select_columns (allele_columns (header t)) <$> body t in
  filter (λ r, (0 < default 0 (head r))%Z) mat.

(** *** The profile file before the conversion

    What [pd.read_csv(profile_file, sep='\t', header=None, dtype=str)] has
    to parse (line 45): the fields of the first line and of every data
    line. A field of the first line is [None] when pandas reads it as NaN;
    a data field is [Some z] when it is an integer literal of value [z] and
    [None] when it is NaN or no integer literal. *)
Record profile_file := {
  first_line : list (option string);
  data_lines : list (list (option Z))
}.

(** Line 45. pandas takes the number of columns from the first line, skips
    blank lines, raises on a line with more fields and pads a line with
    fewer fields with NaN. *)
Definition read_csv (f : profile_file) : option (list (list (option Z))) :=
  mapM (λ l, if length l <=? length (first_line f)
             then Some (l ++ replicate (length (first_line f) - length l) None)
             else None)
       (filter (λ l, l ≠ []) (data_lines f)).

(** Line 46 on the first line as read: [h.startswith] raises on a NaN,
    which is never asked of the first field. *)
Definition allele_columns_file (hd : list (option string))
  : option (list bool) :=
  mapM (λ ih : nat * option string,
          if ih.1 =? 0 then Some true
          else h ← ih.2; Some (negb (String.prefix "#" h)))
       (enumerate hd).

(** Boolean-mask column selection on cells that are not yet converted. *)
Definition select_cells {A : Type} (mask : list bool) (r : list A) : list A :=
  snd <$> filter (λ p, fst p = true) (zip mask r).

(** [astype(int)] on one cell: NaN and every other non-integer raise, and
    so does an integer that does not fit [int64]. *)
Definition astype_int (c : option Z) : option Z :=
  z ← c;
  if ((-9223372036854775808 <=? z) && (z <=? 9223372036854775807))%Z
  then Some z else None.

(** Lines 45-48 with their failures. *)
Definition prepare_mat_file (f : profile_file) : option matrix :=
  rows ← read_csv f;
  allele_columns ← allele_columns_file (first_line f);
  mat ← mapM (λ r, mapM astype_int (select_cells allele_columns r)) rows;
  Some (filter (λ r, (0 < default 0 (head r))%Z) mat).

(** ** The clustering run *)

(** The second argument of [getDistance]. *)
Inductive dist_mode := syn_dist | asyn_dist.

(** Entry [(i, j)] of a distance matrix. *)
Definition dist_at (D : dmatrix) (i j : nat) : option nat := r ← D !! i; r !! j.

(** [dist.dist += dist.dist.T]: numpy needs a square array. *)
Definition add_transpose (L : dmatrix) : option dmatrix :=
  let n := length L in
  if forallb (λ r, length r =? n) L then
    Some (imap (λ i r, imap (λ j x, x + default 0 (dist_at L j i)) r) L)
  else None.

(** [ssd.squareform(X)] of a square array: the entries above the diagonal,
    row by row; it raises unless the diagonal is zero (the array built by
    [add_transpose] is symmetric). *)
Definition squareform (X : dmatrix) : option (list nat) :=
  if forallb (λ i, bool_decide (dist_at X i i = Some 0)) (seq 0 (length X)) then
    Some (concat (imap (λ i r, drop (S i) r) X))
  else None.

(** [typed = {c: id for id, c in enumerate(cls.T[0]) if c > 0}] *)
Definition typed_of (cls : matrix) : gmap Z nat :=
  dict_of ((λ p, (p.2, p.1)) <$> filter (λ p, (0 < p.2)%Z) (enumerate (column0 cls))).

(** [index = { s:i for i, s in enumerate(mat.T[0]) }] *)
Definition index_of (ids : list Z) : gmap Z nat :=
  dict_of ((λ p, (p.2, p.1)) <$> enumerate ids).

(** [t in typed] *)
Definition is_typed (typed : gmap Z nat) (r : list Z) : bool :=
  bool_decide (is_Some (typed !! default 0%Z (head r))).

(** Lines 83-85: every row starts as its own id at every column. *)
Definition init_res (mat : matrix) : option matrix :=
  let ids := column0 mat in
  let res := (λ x, replicate (shape1 mat + 1) x) <$> ids in
  mx ← list_maxZ ids;
  let res := (λ r, (λ x, if (x <? 0)%Z then (mx + 100)%Z else x) <$> r) <$> res in
  Some (set_column0 ids res).

(** Lines 89-91: rows of typed profiles are taken from the snapshot. *)
Definition seed_row (cls : matrix) (typed : gmap Z nat) (r : list Z)
  : option (list Z) :=
  x ← head r;
  match typed !! x with
  | Some k => v ← cls !! k; assign_row r v
  | None => Some r
  end.

(** Lines 100-106, one merge event [c] at position [idx] of [slc]. *)
Definition encode_step (n : nat) (index : gmap Z nat)
    (st : list (option (list Z)) * matrix) (ic : nat * merge_event)
  : option (list (option (list Z)) * matrix) :=
  let '(descendents, res) := st in
  let '(idx, (c0, c1, cd)) := ic in
  let n_id := idx + n in
  l0 ← mjoin (descendents !! c0);
  l1 ← mjoin (descendents !! c1);
  k0 ← head l0;
  k1 ← head l1;
  let '(d0, d1) := if (k1 <? k0)%Z then (c1, c0) else (c0, c1) in
  ld0 ← mjoin (descendents !! d0);
  min_id ← list_minZ ld0;
  ld1 ← mjoin (descendents !! d1);
  if n_id <? length descendents then
    let descendents' := <[n_id := Some (ld0 ++ ld1)]> descendents in
    tgts ← mjoin (descendents' !! d1);
    res' ← oloop (λ res tgt,
                    it ← index !! tgt;
                    im ← index !! min_id;
                    rt ← res !! it;
                    rm ← res !! im;
                    Some (<[it := copy_from (cd + 1) rt rm]> res))
                 res tgts;
    Some (descendents', res')
  else None.

(** Lines 98-106: the encoding of the dendrogram [slc]. *)
Definition encode (mat : matrix) (slc : list merge_event) (res : matrix)
  : option matrix :=
  let ids := column0 mat in
  let n := length mat in
  let descendents := ((λ m, Some [m]) <$> ids) ++ replicate (n - 1) None in
  snd <$> oloop (encode_step n (index_of ids)) (descendents, res) (enumerate slc).

(** Lines 109-114, one pass of the loop body: row [id + start] against the
    distances [d] of its profile. *)
Definition attach_step (start : nat) (res : matrix) (idd : nat * list nat)
  : option matrix :=
  let '(id, d) := idd in
  let k := id + start in
  if 0 <? k then
    i ← argmin (take k d);
    min_d ← d !! i;
    r ← res !! k;
    ri ← res !! i;
    a ← r !! (min_d + 1);
    b ← ri !! (min_d + 1);
    if (b <? a)%Z then Some (<[k := copy_from (min_d + 1) r ri]> res)
    else Some res
  else Some res.

(** Lines 108-114; [zip] stops at the shorter of [res[start:]] and
    [dist.dist]. *)
Definition attach (start : nat) (A : dmatrix) (res : matrix) : option matrix :=
  oloop (attach_step start) res (enumerate (take (length res - start) A)).

Section Run.
(** The two collaborators of [hierCC] that are not part of this file:
    [getDistance(mat, mode, pool, start).dist] and
    [scipy.cluster.hierarchy.linkage(y, method='single')], the latter
    already converted by [astype(int)]. *)
Variable getDistance : dist_mode → matrix → nat → dmatrix.
Variable linkage : list nat → option (list merge_event).

(** Lines 67-81: the processing order and the split point [start]. *)
Definition order_profiles (append : option matrix) (mat : matrix)
  : matrix * gmap Z nat * nat :=
  let '(mat, typed) :=
    match append with
    | None => (stable_sort_by absence mat, ∅)
    | Some cls => (mat, typed_of cls)
    end in
  if 0 <? size typed then
    (filter (λ r, is_typed typed r = true) mat
       ++ filter (λ r, is_typed typed r = false) mat,
     typed, length (filter (λ r, is_typed typed r = true) mat))
  else (mat, typed, 0).

(** Lines 93-106: distances, single linkage and encoding of a full run. *)
Definition full_clustering (mat : matrix) (start : nat) (res : matrix)
  : option matrix :=
  D ← add_transpose (getDistance syn_dist mat start);
  y ← squareform D;
  slc ← linkage y;
  encode mat slc res.

(** [hierCC] from the matrix returned by [prepare_mat] to the array saved
    as [hierCC] in the [.npz] file; [append] is the array [cls] of the
    snapshot named by [--append], if any. *)
Definition hierCC_mat (append : option matrix) (mat0 : matrix)
  : option matrix :=
  let '(mat, typed, start) := order_profiles append mat0 in
  res ← init_res mat;
  res ← match append with
        | Some cls => mapM (seed_row cls typed) res
        | None => full_clustering mat start res
        end;
  res ← attach start (getDistance asyn_dist mat start) res;
  Some (set_column0 (column0 mat) res).

Definition hierCC (append : option matrix) (t : table) : option matrix :=
  hierCC_mat append (prepare_mat t).
End Run.

(** ** The collaborators, for running the program on examples *)

(** Modelled from the spec: [getDistance.py] is not among the sources.
    Section 6: "Distance(p, q) = count of loci where both alleles are known
    (>0) and differ". Column 0 of a profile is its id and is skipped. *)
Definition allelic_distance (p q : list Z) : nat :=
  length (filter (λ ab, (0 < ab.1)%Z ∧ (0 < ab.2)%Z ∧ ab.1 ≠ ab.2)
                 (zip (tail p) (tail q))).

(** Modelled from the spec: the array [dist] of [getDistance], one row for
    each profile from [start] on and one column for each profile. Section 6:
    the symmetric mode has a zero diagonal, the asymmetric mode is rows by
    columns. In symmetric mode each pair is filled once, below the diagonal:
    line 94 of [hierCC] adds the transpose. *)
Definition allelic_getDistance (mode : dist_mode) (mat : matrix) (start : nat)
  : dmatrix :=
  imap (λ i p,
          imap (λ j q, match mode with
                       | syn_dist => if j <? i + start then allelic_distance p q
                                     else 0
                       | asyn_dist => allelic_distance p q
                       end) mat)
       (drop start mat).

(** [scipy.cluster.hierarchy.linkage(y, method='single')], followed by
    [astype(int)]: a minimum spanning tree grown from observation 0, its
    edges sorted by weight (stable) and relabelled with a union-find. *)
Module Scipy.

(** [num_obs_y]: the [n] with [n * (n - 1) / 2 = len(y)]; raises for an
    empty [y] and for a length that is not a binomial coefficient. *)
Definition num_obs_y (y : list nat) : option nat :=
  if length y =? 0 then None
  else head (filter (λ n, n * (n - 1) / 2 = length y) (seq 0 (length y + 2))).

Definition condensed_index (n i j : nat) : nat :=
  if i <? j then n * i - i * (i + 1) / 2 + (j - i - 1)
  else n * j - j * (j + 1) / 2 + (i - j - 1).

(** The inner loop of [mst_single_linkage] for one [i]; [None] is the
    infinite distance. *)
Definition scan (y : list nat) (n x : nat) (merged : list bool)
    (st : list (option nat) * nat * option nat) (i : nat)
  : list (option nat) * nat * option nat :=
  let '(D, ybest, cur) := st in
  if default false (merged !! i) then st
  else
    let dist := default 0 (y !! condensed_index n x i) in
    let Di := match mjoin (D !! i) with
              | Some v => if dist <? v then dist else v
              | None => dist
              end in
    let D := <[i := Some Di]> D in
    match cur with
    | Some c => if Di <? c then (D, i, Some Di) else (D, ybest, cur)
    | None => (D, i, Some Di)
    end.

(** The outer loop: [k] edges, the state being [merged], [D], [x], [y]
    and the edges found so far. *)
Fixpoint mst_edges (y : list nat) (n k : nat) (merged : list bool)
    (D : list (option nat)) (x ybest : nat) : list merge_event :=
  match k with
  | 0 => []
  | S k' =>
      let merged := <[x := true]> merged in
      let '(D, ybest, cur) :=
        foldl (scan y n x merged) (D, ybest, None) (seq 0 n) in
      (x, ybest, default 0 cur) :: mst_edges y n k' merged D ybest ybest
  end.

(** [LinkageUnionFind.find]: follow the parents up to the root. *)
Fixpoint find (fuel : nat) (parent : list nat) (x : nat) : nat :=
  match fuel with
  | 0 => x
  | S fuel' => match parent !! x with
               | Some p => if p =? x then x else find fuel' parent p
               | None => x
               end
  end.

(** [label]: name the two sides of every edge by their current roots, the
    smaller first, and give the merged cluster the next label. *)
Definition label_step (n : nat)
    (st : list nat * nat * list merge_event) (e : merge_event)
  : list nat * nat * list merge_event :=
  let '(parent, next, out) := st in
  let '(x, y, w) := e in
  let xr := find (2 * n) parent x in
  let yr := find (2 * n) parent y in
  let e' := if xr <? yr then (xr, yr, w) else (yr, xr, w) in
  (<[yr := next]> (<[xr := next]> parent), S next, out ++ [e']).

Definition label (n : nat) (Z : list merge_event) : list merge_event :=
  (foldl (label_step n) (seq 0 (2 * n - 1), n, []) Z).2.

Definition mst_single_linkage (y : list nat) (n : nat) : list merge_event :=
  let Z := mst_edges y n (n - 1) (replicate n false) (replicate n None) 0 0 in
  label n (stable_sort_by (λ e, e.2) Z).

Definition linkage (y : list nat) : option (list merge_event) :=
  n ← num_obs_y y;
  Some (mst_single_linkage y n).

End Scipy.

(** The run with the collaborators above. *)
Definition hierCC_run : option matrix → table → option matrix :=
  hierCC allelic_getDistance Scipy.linkage.

(** ** The text report

    Lines 119-122 write the header [#ST_id HC0 ... HCn_loci] and one line
    for every row of [res], the rows in ascending order of their id. *)

Definition tab : string := String (ascii_of_nat 9) EmptyString.

Definition newline : string := String (ascii_of_nat 10) EmptyString.

(** [r[0]] of a row of [res]. *)
Definition row_id (r : list Z) : Z := default 0%Z (head r).

Fixpoint insert_row (r : list Z) (l : matrix) : matrix :=
  match l with
  | [] => [r]
  | y :: l' => if (row_id y <=? row_id r)%Z then y :: insert_row r l'
               else r :: y :: l'
  end.

(** [res[np.argsort(res.T[0])]]. The default kind of [np.argsort] does not
    fix the order of rows with equal ids; here they keep their order. *)
Definition argsort_rows (res : matrix) : matrix :=
  foldl (λ acc r, insert_row r acc) [] res.

(** ['#ST_id\t{0}\n'.format('\t'.join(['HC' + str(id) for id in
    np.arange(n_loci+1)]))] *)
Definition report_header (L : nat) : string :=
  "#ST_id" +:+ tab
    +:+ String.concat tab ((λ i : nat, "HC" +:+ pretty i) <$> seq 0 (L + 1))
    +:+ newline.

(** ['\t'.join([str(rr) for rr in r]) + '\n'] *)
Definition report_line (r : list Z) : string :=
  String.concat tab (pretty <$> r) +:+ newline.

Definition report (L : nat) (res : matrix) : list string :=
  report_header L :: (report_line <$> argsort_rows res).

(** The two files written by a run: the array [hierCC] of the [.npz] file
    and the lines of the text report; [n_loci] is taken from the matrix as
    loaded (line 59). *)
Definition hierCC_files (getDistance : dist_mode → matrix → nat → dmatrix)
    (linkage : list nat → option (list merge_event))
    (append : option matrix) (t : table) : option (matrix * list string) :=
  let mat := prepare_mat t in
  let n_loci := shape1 mat - 1 in
  res ← hierCC_mat getDistance linkage append mat;
  Some (res, report n_loci res).

(** The run from the profile file: a failure of the loading aborts it. *)
Definition hierCC_file (getDistance : dist_mode → matrix → nat → dmatrix)
    (linkage : list nat → option (list merge_event))
    (append : option matrix) (f : profile_file) : option matrix :=
  mat ← prepare_mat_file f;
  hierCC_mat getDistance linkage append mat.

(** ** Vocabulary of the properties *)

(** The profile file of a table: every field is there and is an integer
    literal. *)
Definition file_of (t : table) : profile_file :=
  {| first_line := (λ h : string, Some h) <$> header t;
     data_lines := (λ r : list Z, (λ x : Z, Some x) <$> r) <$> body t |}.

Definition int64 (z : Z) : Prop :=
  (-9223372036854775808 ≤ z ≤ 9223372036854775807)%Z.

(** The code of the profile in row [i] at threshold [t]. *)
Definition code (res : matrix) (i t : nat) : option Z := r ← res !! i; r !! (S t).

(** The code rows of a matrix: each row without its id column. *)
Definition code_rows (res : matrix) : matrix := drop 1 <$> res.

(** Every entry of [res] belongs to the list [S]. *)
Definition rows_in (S : list Z) (res : matrix) : Prop :=
  Forall (Forall (λ x, x ∈ S)) res.

(** The number of loci [n_loci = mat.shape[1] - 1]. *)
Definition n_loci (mat : matrix) : nat := shape1 mat - 1.

(** The distance matrix as a function of two row numbers. *)
Definition dfun (D : dmatrix) (p q : nat) : nat := default 0 (dist_at D p q).

(** Profiles [p] and [q] (row numbers below [n]) are at distance at most
    [t]; they are connected at [t] in the single-linkage sense when a chain
    of such pairs leads from one to the other. *)
Definition linked (d : nat → nat → nat) (n t : nat) (p q : nat) : Prop :=
  p < n ∧ q < n ∧ d p q ≤ t.

Definition connected (d : nat → nat → nat) (n t : nat) : relation nat :=
  rtsc (linked d n t).

(** [c] is the least id among the profiles related to [p] by [conn]. *)
Definition is_min_id (ids : list Z) (conn : relation nat) (p : nat) (c : Z)
  : Prop :=
  (∃ q, conn p q ∧ ids !! q = Some c) ∧
  ∀ q z, conn p q → ids !! q = Some z → (c ≤ z)%Z.

(** *** Computing the profiles connected to a profile

    [neighbours] are the rows at distance at most [t] from a row of [seen];
    [component] adds neighbours [n] times, starting from [p]; [closedb]
    checks that no neighbour is missing. *)
Definition neighbours (d : nat → nat → nat) (n t : nat) (seen : list nat)
  : list nat :=
  filter (λ b, existsb (λ a, (d a b <=? t) || (d b a <=? t)) seen = true)
         (seq 0 n).

Fixpoint reach (d : nat → nat → nat) (n t fuel : nat) (seen : list nat)
  : list nat :=
  match fuel with
  | 0 => seen
  | S fuel' => reach d n t fuel' (seen ++ neighbours d n t seen)
  end.

Definition component (d : nat → nat → nat) (n t p : nat) : list nat :=
  reach d n t n [p].

Definition closedb (d : nat → nat → nat) (n t : nat) (seen : list nat)
  : bool :=
  forallb (λ b, bool_decide (b ∈ seen)) (neighbours d n t seen).

(** The least id of the profiles found by [component]. *)
Definition component_min_id (ids : list Z) (d : nat → nat → nat)
    (n t p : nat) : option Z :=
  list_minZ (omap (λ q, ids !! q) (component d n t p)).

(** Every pair of rows sharing a code at a threshold shares a code at every
    larger threshold up to [L]. *)
Definition nested (L : nat) (res : matrix) : Prop :=
  ∀ i j t1 t2 a, t1 < t2 → t2 ≤ L →
    code res i t1 = Some a → code res j t1 = Some a →
    code res i t2 = code res j t2.

(** *** Single-linkage dendrograms

    The contract of [linkage] (Section 4.2 of the specification): the
    clusters start as the [n] singletons, numbered [0 .. n-1]; event number
    [idx] merges two different live clusters [a] and [b] into the new cluster
    [n + idx]; its distance [w] is the distance of a pair across [a] and
    [b], and no pair of profiles in different live clusters is closer. *)

Definition nodes0 (n : nat) : list (option (list nat)) :=
  ((λ i, Some [i]) <$> seq 0 n) ++ replicate (n - 1) None.

(** Two profiles belong to one live cluster. *)
Definition same_cluster (cl : list (option (list nat))) (p q : nat) : Prop :=
  ∃ x l, cl !! x = Some (Some l) ∧ p ∈ l ∧ q ∈ l.

(** The number of live clusters. *)
Definition live_count (cl : list (option (list nat))) : nat :=
  length (filter (λ c, is_Some c) cl).

Definition same_clusterb (cl : list (option (list nat))) (p q : nat) : bool :=
  existsb (λ c, match c with
                | Some l => bool_decide (p ∈ l) && bool_decide (q ∈ l)
                | None => false
                end) cl.

Definition merge_nodes (cl : list (option (list nat))) (x a b : nat)
    (A B : list nat) : list (option (list nat)) :=
  <[x := Some (A ++ B)]> (<[a := None]> (<[b := None]> cl)).

Fixpoint linkage_okb (d : nat → nat → nat) (n : nat)
    (cl : list (option (list nat))) (idx : nat) (slc : list merge_event)
  : bool :=
  match slc with
  | [] => true
  | (a, b, w) :: slc' =>
      match mjoin (cl !! a), mjoin (cl !! b) with
      | Some A, Some B =>
          negb (a =? b) && (idx + n <? length cl)
          && existsb (λ p, existsb (λ q, d p q =? w) B) A
          && forallb (λ p, forallb (λ q, same_clusterb cl p q || (w <=? d p q))
                                   (seq 0 n)) (seq 0 n)
          && linkage_okb d n (merge_nodes cl (idx + n) a b A B) (S idx) slc'
      | _, _ => false
      end
  end.

Definition single_linkage_ok (d : nat → nat → nat) (n : nat)
    (slc : list merge_event) : bool :=
  (length slc =? n - 1) && linkage_okb d n (nodes0 n) 0 slc.

(** *** The contracts of the collaborators in a full run

    [pair_distance] is the array handed to [squareform] (line 96), read as a
    function of two row numbers. *)
Definition pair_distance (getDistance : dist_mode → matrix → nat → dmatrix)
    (mat : matrix) : nat → nat → nat :=
  dfun (default [] (add_transpose (getDistance syn_dist mat 0))).

(** [linkage] returns a single-linkage dendrogram of these distances. *)
Definition linkage_contract (getDistance : dist_mode → matrix → nat → dmatrix)
    (linkage : list nat → option (list merge_event)) (mat : matrix) : Prop :=
  ∀ D y slc,
    add_transpose (getDistance syn_dist mat 0) = Some D →
    squareform D = Some y → linkage y = Some slc →
    single_linkage_ok (dfun D) (length mat) slc = true.

(** The asymmetric query gives a profile the same distance to each earlier
    profile as the symmetric one (Section 6: one distance, two modes). *)
Definition asyn_contract (getDistance : dist_mode → matrix → nat → dmatrix)
    (mat : matrix) : Prop :=
  ∀ k j x, j < k →
    dist_at (getDistance asyn_dist mat 0) k j = Some x →
    x = pair_distance getDistance mat k j.

(** *** The invariant of the encoding loop

    After [idx] merge events, the last one at distance [dk]: [cl] holds the
    live clusters of the dendrogram as lists of row numbers, [desc] is the
    array [descendents] and [res] the code matrix of width [W].
    - The live clusters partition the rows, and [descendents] lists the ids
      of each live cluster with its least id first.
    - Each live cluster is connected at [dk], and rows of different live
      clusters are at distance [dk] or more.
    - At a threshold [t >= dk] the code of a row is the least id of its
      live cluster; at a threshold [t < dk] it is already the least id of
      the profiles connected to it at [t]. *)
Record enc_inv (ids : list Z) (d : nat → nat → nat) (W idx dk : nat)
    (cl : list (option (list nat))) (desc : list (option (list Z)))
    (res : matrix) : Prop := {
  inv_len : length res = length ids;
  inv_width : ∀ p r, res !! p = Some r → length r = W;
  inv_count : live_count cl + idx = length ids;
  inv_fresh : ∀ x, idx + length ids ≤ x → x < length cl → cl !! x = Some None;
  inv_range : ∀ x l p, cl !! x = Some (Some l) → p ∈ l → p < length ids;
  inv_cover : ∀ p, p < length ids → ∃ x l, cl !! x = Some (Some l) ∧ p ∈ l;
  inv_disj : ∀ x y l l' p,
    cl !! x = Some (Some l) → cl !! y = Some (Some l') →
    p ∈ l → p ∈ l' → x = y;
  inv_desc : ∀ x l, cl !! x = Some (Some l) →
    ∃ m zs, desc !! x = Some (Some (m :: zs)) ∧
            (∀ z, z ∈ zs → (m ≤ z)%Z) ∧
            (∀ z, z ∈ m :: zs ↔ ∃ p, p ∈ l ∧ ids !! p = Some z);
  inv_conn : ∀ x l p q, cl !! x = Some (Some l) → p ∈ l → q ∈ l →
    connected d (length ids) dk p q;
  inv_sep : ∀ p q, p < length ids → q < length ids →
    ¬ same_cluster cl p q → dk ≤ d p q;
  inv_hi : ∀ x l m zs p t,
    cl !! x = Some (Some l) → desc !! x = Some (Some (m :: zs)) →
    p ∈ l → dk ≤ t → S t < W → code res p t = Some m;
  inv_lo : ∀ p t, p < length ids → t < dk → S t < W →
    ∃ c, code res p t = Some c ∧
         is_min_id ids (connected d (length ids) t) p c
}.

(** *** Runs with [--append] *)

(** No row of the snapshot holds the id of a profile that is new in this
    run. *)
Definition fresh_ids (cls : matrix) (ids : list Z) : Prop :=
  ∀ x v, x ∈ ids → typed_of cls !! x = None → v ∈ cls → x ∉ v.

(** The invariant of the attachment loop before row [k] is processed: the
    rows before [k] are nested and hold no id of a row from [k] on, and the
    rows from [k] on still hold their own id in every column. *)
Record att_inv (ids : list Z) (W k : nat) (res : matrix) : Prop := {
  att_len : length res = length ids;
  att_nested : ∀ i j t1 t2 a, i < k → j < k → t1 < t2 → S t2 < W →
    code res i t1 = Some a → code res j t1 = Some a →
    code res i t2 = code res j t2;
  att_fresh : ∀ i t j x, i < k → k ≤ j → ids !! j = Some x →
    code res i t ≠ Some x;
  att_todo : ∀ j x, k ≤ j → ids !! j = Some x →
    res !! j = Some (replicate W x)
}.

(** *** The rows of the code matrix
    Row [p] of [res] has width [W] and holds the id of profile [p] in
    column 0. *)
Definition id_rows (ids : list Z) (W : nat) (res : matrix) : Prop :=
  Forall2 (λ x r, length r = W ∧ head r = Some x) ids res.

(** *** Examples *)

(** The example of Section 8 of the specification: four profiles of three
    loci. *)
Definition example_table : table :=
  {| header := ["ST_id"; "g1"; "g2"; "g3"]%string;
     body := [[1; 1; 1; 1]; [2; 1; 1; 2]; [3; 1; 2; 2]; [4; 9; 9; 9]]%Z |}.

(** Two profiles with the same id 5. *)
Definition duplicate_table : table :=
  {| header := ["ST_id"; "g1"; "g2"]%string;
     body := [[5; 1; 1]; [5; 1; 2]; [3; 4; 4]]%Z |}.

(** Profile 5 is new and identical to the typed profile 1. *)
Definition identical_table : table :=
  {| header := ["ST_id"; "g1"; "g2"; "g3"]%string;
     body := [[1; 1; 1; 1]; [5; 1; 1; 1]]%Z |}.

Definition identical_snapshot : matrix := [[1; 1; 1; 1; 1]]%Z.

(** A snapshot that names the cluster of profile 5 at threshold 1 by the
    id 2 of a profile it does not hold, and a profile file in which 2 is
    new. *)
Definition stale_table : table :=
  {| header := ["ST_id"; "g1"; "g2"]%string;
     body := [[5; 1; 1]; [2; 1; 2]]%Z |}.

Definition stale_snapshot : matrix := [[5; 5; 2; 1]]%Z.

(** The profile file of [identical_table] with other allele calls for the
    typed profile 1. *)
Definition changed_table : table :=
  {| header := ["ST_id"; "g1"; "g2"; "g3"]%string;
     body := [[1; 7; 8; 9]; [5; 1; 1; 1]]%Z |}.

(** The state of the encoding of [example_table] before the first merge
    event. *)
Definition example_ids : list Z := [1; 2; 3; 4]%Z.

Definition example_desc : list (option (list Z)) :=
  [Some [1]; Some [2]; Some [3]; Some [4]; None; None; None]%Z.

Definition example_res0 : matrix :=
  [[1; 1; 1; 1; 1]; [2; 2; 2; 2; 2]; [3; 3; 3; 3; 3]; [4; 4; 4; 4; 4]]%Z.

(** The matrices returned for the examples. *)
Definition example_out : matrix :=
  [[1; 1; 1; 1; 1]; [2; 2; 1; 1; 1]; [3; 3; 1; 1; 1]; [4; 4; 4; 4; 1]]%Z.

Definition identical_out : matrix := [[1; 1; 1; 1; 1]; [5; 1; 1; 1; 1]]%Z.

Definition changed_out : matrix := [[1; 1; 1; 1; 1]; [5; 5; 5; 5; 1]]%Z.

(** A profile file with a comment column and a first header that starts
    with [#]; profile 7 has one missing allele and the row with id 0 is
    dropped. *)
Definition comment_table : table :=
  {| header := ["#ST_id"; "g1"; "#note"; "g2"; "g3"]%string;
     body := [[7; 0; 70; 1; 1]; [0; 5; 71; 5; 5]; [2; 1; 72; 1; 1];
              [3; 1; 73; 1; 2]]%Z |}.

(** A profile file without a positive id. *)
Definition unnamed_table : table :=
  {| header := ["ST_id"; "g1"]%string; body := [[0; 1]; [-3; 2]]%Z |}.

(** Three profiles, of which 3 is typed in [repeated_snapshot], a snapshot
    that holds the id 3 in two rows. *)
Definition append_table : table :=
  {| header := ["ST_id"; "g1"; "g2"; "g3"]%string;
     body := [[7; 1; 1; 1]; [3; 1; 1; 2]; [8; 1; 2; 2]]%Z |}.

Definition repeated_snapshot : matrix :=
  [[3; 3; 3; 3; 3]; [9; 9; 9; 9; 9]; [3; 3; 2; 2; 2]]%Z.

Definition append_out : matrix :=
  [[3; 3; 2; 2; 2]; [7; 7; 2; 2; 2]; [8; 8; 2; 2; 2]]%Z.

(** A snapshot of another scheme: its rows have four columns, the code
    matrix of [append_table] has five. *)
Definition narrow_snapshot : matrix := [[9; 9; 9; 9]; [3; 3; 2; 2]]%Z.

(** Two profiles with the same id 7, the first of them identical to
    profile 3. *)
Definition repeated_id_table : table :=
  {| header := ["ST_id"; "g1"; "g2"]%string;
     body := [[3; 1; 1]; [7; 1; 1]; [7; 1; 2]]%Z |}.

(** A profile file whose second data line has a field too many, and one
    whose second data line has a field too few. *)
Definition long_file : profile_file :=
  {| first_line := [Some "ST_id"; Some "g1"]%string;
     data_lines := [[Some 1; Some 1]; [Some 2; Some 1; Some 1]]%Z |}.

Definition short_file : profile_file :=
  {| first_line := [Some "ST_id"; Some "g1"; Some "g2"]%string;
     data_lines := [[Some 1; Some 1; Some 1]; [Some 2; Some 1]]%Z |}.

(** A second dendrogram of the example of Section 8: profiles 2 and 3 are
    merged first. *)
Definition other_linkage (y : list nat) : option (list merge_event) :=
  Some [(1, 2, 1); (0, 4, 1); (3, 5, 3)].

(** * Properties *)

(** ** Loops, sorting and rows *)

Lemma oloop_inv {St A : Type} (P : St → Prop) (body : St → A → option St)
    (l : list A) (s s' : St) :
  (∀ s x s', x ∈ l → P s → body s x = Some s' → P s') →
  P s → oloop body s l = Some s' → P s'.
Proof.
  revert s. induction l as [|x l IH]; simpl; intros s Hstep Hs Hrun.
  - by simplify_eq.
  - destruct (body s x) as [s1|] eqn:Hb; [|done].
    apply (IH s1); [|by eapply Hstep; [left|..]|done].
    intros ???? ; apply Hstep. by right.
Qed.

Lemma oloop_app {St A : Type} (body : St → A → option St)
    (l1 l2 : list A) (s : St) :
  oloop body s (l1 ++ l2) = s1 ← oloop body s l1; oloop body s1 l2.
Proof.
  revert s. induction l1 as [|x l1 IH]; simpl; intros s; [done|].
  destruct (body s x); simpl; [apply IH|done].
Qed.

Lemma oloop_cons {St A : Type} (body : St → A → option St) (s : St) (x : A)
    (l : list A) :
  oloop body s (x :: l) = s' ← body s x; oloop body s' l.
Proof. simpl. by destruct (body s x). Qed.

Global Arguments oloop : simpl never.

Lemma insert_by_perm {A : Type} (key : A → nat) (x : A) (l : list A) :
  insert_by key x l ≡ₚ x :: l.
Proof.
  induction l as [|y l IH]; simpl; [done|].
  destruct (key y <=? key x); [|done].
  rewrite IH. apply perm_swap.
Qed.

Lemma stable_sort_by_perm {A : Type} (key : A → nat) (m : list A) :
  stable_sort_by key m ≡ₚ m.
Proof.
  unfold stable_sort_by.
  assert (∀ acc, foldl (λ acc x, insert_by key x acc) acc m ≡ₚ acc ++ m) as H.
  { induction m as [|x m IH]; simpl; intros acc; [by rewrite app_nil_r|].
    rewrite IH, insert_by_perm. by rewrite <-Permutation_middle. }
  apply H.
Qed.

Lemma column0_perm (m1 m2 : matrix) : m1 ≡ₚ m2 → column0 m1 ≡ₚ column0 m2.
Proof. intros H. unfold column0. by rewrite H. Qed.

Lemma column0_length (m : matrix) : length (column0 m) = length m.
Proof. unfold column0. by rewrite length_fmap. Qed.

Lemma column0_lookup (m : matrix) (i : nat) (r : list Z) :
  m !! i = Some r → column0 m !! i = Some (default 0%Z (head r)).
Proof. intros H. unfold column0. by rewrite list_lookup_fmap, H. Qed.

Lemma prepare_mat_pos (t : table) :
  Forall (λ x, (0 < x)%Z) (column0 (prepare_mat t)).
Proof.
  unfold column0, prepare_mat. apply Forall_fmap, Forall_forall.
  intros r Hr. by apply list_elem_of_filter in Hr as [? _].
Qed.

Lemma copy_from_length (k : nat) (a b : list Z) :
  length a = length b → length (copy_from k a b) = length a.
Proof.
  intros H. unfold copy_from. rewrite length_app, length_take, length_drop. lia.
Qed.

Lemma copy_from_lookup_lt (k c : nat) (a b : list Z) :
  c < k → k ≤ length a → copy_from k a b !! c = a !! c.
Proof.
  intros Hc Hk. unfold copy_from.
  rewrite lookup_app_l by (rewrite length_take; lia).
  by apply lookup_take_lt.
Qed.

Lemma copy_from_lookup_ge (k c : nat) (a b : list Z) :
  k ≤ c → k ≤ length a → copy_from k a b !! c = b !! c.
Proof.
  intros Hc Hk. unfold copy_from.
  rewrite lookup_app_r by (rewrite length_take; lia).
  rewrite length_take, lookup_drop. f_equal. lia.
Qed.

Lemma copy_from_short (k : nat) (a b : list Z) :
  length a = length b → length a ≤ k → copy_from k a b = a.
Proof.
  intros Hl Hk. unfold copy_from.
  rewrite take_ge, drop_ge by lia. apply app_nil_r.
Qed.

Lemma copy_from_idemp (k : nat) (a b : list Z) :
  length a = length b → copy_from k (copy_from k a b) b = copy_from k a b.
Proof.
  intros Hl. destruct (decide (k ≤ length a)) as [Hk|Hk].
  - unfold copy_from at 1 3. f_equal.
    unfold copy_from. rewrite take_app_le by (rewrite length_take; lia).
    rewrite take_take. f_equal. lia.
  - rewrite (copy_from_short k a b) by lia.
    apply copy_from_short; lia.
Qed.

Lemma copy_from_Forall (P : Z → Prop) (k : nat) (a b : list Z) :
  Forall P a → Forall P b → Forall P (copy_from k a b).
Proof.
  intros Ha Hb. apply Forall_app. split.
  - by apply Forall_take.
  - by apply Forall_drop.
Qed.

Lemma set_column0_lookup (v : list Z) (m : matrix) (i : nat) :
  set_column0 v m !! i = x ← v !! i; r ← m !! i; Some (<[0 := x]> r).
Proof.
  unfold set_column0. rewrite lookup_zip_with.
  destruct (v !! i); simpl; [|done]. by destruct (m !! i).
Qed.

Lemma set_column0_code (v : list Z) (m : matrix) (i t : nat) :
  length v = length m → code (set_column0 v m) i t = code m i t.
Proof.
  intros Hl. unfold code. rewrite set_column0_lookup.
  destruct (m !! i) as [r|] eqn:Hr.
  - destruct (lookup_lt_is_Some_2 v i) as [x Hx].
    { rewrite Hl. by eapply lookup_lt_Some. }
    rewrite Hx. simpl. by rewrite list_lookup_insert_ne.
  - by destruct (v !! i).
Qed.

Lemma set_column0_rows_in (S v : list Z) (m : matrix) :
  Forall (λ x, x ∈ S) v → rows_in S m → rows_in S (set_column0 v m).
Proof.
  intros Hv Hm. apply Forall_lookup. intros i r Hr.
  rewrite set_column0_lookup in Hr.
  destruct (v !! i) as [x|] eqn:Hx; [|done]. simpl in Hr.
  destruct (m !! i) as [r0|] eqn:Hr0; [|done]. simplify_eq/=.
  apply Forall_insert.
  - by eapply Forall_lookup_1 in Hm.
  - by eapply Forall_lookup_1 in Hv.
Qed.

Lemma init_res_pos (mat : matrix) (res : matrix) :
  Forall (λ x, (0 < x)%Z) (column0 mat) →
  init_res mat = Some res →
  res = (λ x, replicate (shape1 mat + 1) x) <$> column0 mat.
Proof.
  intros Hpos. unfold init_res.
  destruct (list_maxZ (column0 mat)) as [mx|]; [|done]. simpl.
  intros [= <-]. apply list_eq. intros i.
  rewrite set_column0_lookup, !list_lookup_fmap.
  destruct (column0 mat !! i) as [x|] eqn:Hx; [|done]. simpl.
  f_equal. eapply Forall_lookup_1 in Hpos; [|done].
  apply list_eq. intros j. destruct j as [|j].
  - rewrite Nat.add_1_r. done.
  - rewrite list_lookup_insert_ne by done.
    rewrite list_lookup_fmap. destruct (replicate _ _ !! S j) as [y|] eqn:Hy; [|done].
    apply lookup_replicate in Hy as [-> _]. simpl.
    destruct (Z.ltb_spec x 0); [lia|done].
Qed.

Lemma filter_ext_Forall {A : Type} (P Q : A → Prop)
    `{!∀ x, Decision (P x)} `{!∀ x, Decision (Q x)} (l : list A) :
  Forall (λ x, P x ↔ Q x) l → filter P l = filter Q l.
Proof.
  induction 1 as [|x l Hx _ IH]; [done|].
  rewrite !filter_cons, IH. repeat case_decide; tauto.
Qed.

Lemma filter_all {A : Type} (P : A → Prop) `{!∀ x, Decision (P x)}
    (l : list A) :
  Forall P l → filter P l = l.
Proof.
  induction 1 as [|x l Hx _ IH]; [done|].
  rewrite filter_cons, IH. by case_decide.
Qed.

Lemma filter_none {A : Type} (P : A → Prop) `{!∀ x, Decision (P x)}
    (l : list A) :
  Forall (λ x, ¬ P x) l → filter P l = [].
Proof.
  induction 1 as [|x l Hx _ IH]; [done|].
  rewrite filter_cons, IH. by case_decide.
Qed.

(** ** Profile loading *)

Lemma select_columns_head (h : string) (hs : list string) (r : list Z) :
  head (select_columns (allele_columns (h :: hs)) r) = head r.
Proof. by destruct r. Qed.

Lemma column0_filter_pos (m : matrix) :
  column0 (filter (λ r, (0 < default 0 (head r))%Z) m)
  = filter (λ x, (0 < x)%Z) (column0 m).
Proof.
  induction m as [|r m IH]; [done|].
  unfold column0 at 2. rewrite fmap_cons. fold (column0 m).
  rewrite !filter_cons.
  destruct (decide (0 < default 0 (head r))%Z); [|done].
  unfold column0 at 1. rewrite fmap_cons. f_equal. apply IH.
Qed.

(** [prepare_mat] drops the rows whose id is not positive and keeps every
    other row in file order, so an id that occurs twice in the file occurs
    twice in the loaded matrix. *)
Lemma prepare_mat_keeps_positive_ids (t : table) :
  header t ≠ [] →
  column0 (prepare_mat t) = filter (λ x, (0 < x)%Z) (column0 (body t)).
Proof.
  intros Hh. destruct t as [[|h hs] b]; [done|]. unfold prepare_mat. simpl.
  rewrite column0_filter_pos. f_equal.
  unfold column0. rewrite <-list_fmap_compose. apply list_fmap_ext.
  intros i r _. simpl. by rewrite select_columns_head.
Qed.

Lemma select_cells_elem {A : Type} (mask : list bool) (r : list A) (j : nat)
    (c : A) :
  mask !! j = Some true → r !! j = Some c → c ∈ select_cells mask r.
Proof.
  intros Hm Hr. unfold select_cells. apply list_elem_of_fmap.
  exists (true, c). split; [done|]. apply list_elem_of_filter. split; [done|].
  apply list_elem_of_lookup. exists j. apply lookup_zip_with_Some. eauto.
Qed.

Lemma select_cells_head {A : Type} (mask : list bool) (r : list A) :
  head (select_cells (true :: mask) r) = head r.
Proof. by destruct r. Qed.

Lemma allele_columns_file_length (hd : list (option string))
    (mask : list bool) :
  allele_columns_file hd = Some mask → length mask = length hd.
Proof.
  intros H. apply length_mapM in H. rewrite <-H. unfold enumerate.
  rewrite length_zip_with, length_seq. lia.
Qed.

Lemma allele_columns_file_head (h : option string) (hd : list (option string))
    (mask : list bool) :
  allele_columns_file (h :: hd) = Some mask → ∃ mask', mask = true :: mask'.
Proof.
  unfold allele_columns_file, enumerate. simpl. intros H.
  destruct (mapM _ _) as [mask'|]; [|done]. simpl in H.
  injection H as <-. eauto.
Qed.

Lemma read_csv_rows (f : profile_file) (rows : list (list (option Z))) :
  read_csv f = Some rows →
  Forall2 (λ l r, length l ≤ length (first_line f) ∧
                  r = l ++ replicate (length (first_line f) - length l) None)
          (filter (λ l, l ≠ []) (data_lines f)) rows.
Proof.
  unfold read_csv. intros H. apply mapM_Some_1 in H.
  eapply Forall2_impl; [exact H|]. simpl. intros l r Hlr.
  destruct (Nat.leb_spec (length l) (length (first_line f))); by simplify_eq.
Qed.

Lemma astype_int_Some (c : option Z) (z : Z) :
  astype_int c = Some z → c = Some z.
Proof.
  unfold astype_int. destruct c as [z'|]; [|done]. simpl.
  destruct (_ && _); by intros [= <-].
Qed.

Lemma filter_pos_nonblank (lines : list (list (option Z))) :
  filter (λ x, (0 < x)%Z)
    ((λ l, default 0%Z (mjoin (head l))) <$> filter (λ l, l ≠ []) lines)
  = filter (λ x, (0 < x)%Z) ((λ l, default 0%Z (mjoin (head l))) <$> lines).
Proof.
  induction lines as [|l lines IH]; [done|].
  rewrite (filter_cons _ l). case_decide as Hl.
  - rewrite !fmap_cons, !filter_cons. case_decide; by rewrite IH.
  - rewrite fmap_cons, filter_cons. destruct l; [|done].
    rewrite decide_False by (simpl; lia). apply IH.
Qed.

Lemma enumerate_lookup {A : Type} (l : list A) (i : nat) :
  enumerate l !! i = (λ x, (i, x)) <$> l !! i.
Proof.
  unfold enumerate. rewrite lookup_zip_with.
  destruct (l !! i) as [x|] eqn:Hx.
  - rewrite lookup_seq_lt by (by eapply lookup_lt_Some). done.
  - by destruct (seq 0 (length l) !! i).
Qed.

Lemma allele_columns_file_table (hd : list string) :
  allele_columns_file ((λ h : string, Some h) <$> hd)
  = Some (allele_columns hd).
Proof.
  unfold allele_columns_file. apply mapM_Some_2, Forall2_same_length_lookup.
  split.
  { unfold enumerate, allele_columns.
    by rewrite length_zip_with, length_seq, length_fmap, length_imap, Nat.min_id. }
  intros i [i' h] b Hi Hb.
  rewrite enumerate_lookup, list_lookup_fmap in Hi.
  unfold allele_columns in Hb. rewrite list_lookup_imap in Hb.
  destruct (hd !! i) as [s|]; [|done]. simpl in *. simplify_eq. simpl.
  by destruct (_ =? 0).
Qed.

Lemma select_cells_table (mask : list bool) (r : list Z) :
  select_cells mask ((λ x : Z, Some x) <$> r)
  = (λ x : Z, Some x) <$> select_columns mask r.
Proof.
  unfold select_cells, select_columns.
  revert r. induction mask as [|b mask IH]; intros r; [done|].
  destruct r as [|x r]; [done|]. simpl. rewrite !filter_cons. simpl.
  destruct b; simpl; [f_equal|]; apply IH.
Qed.

Lemma prepare_mat_file_table (t : table) :
  header t ≠ [] →
  Forall (λ r, length r = length (header t)) (body t) →
  Forall (Forall int64) (body t) →
  prepare_mat_file (file_of t) = Some (prepare_mat t).
Proof.
  intros Hne Hrect Hint. unfold prepare_mat_file, file_of. simpl.
  assert (read_csv {| first_line := (λ h : string, Some h) <$> header t;
                      data_lines := (λ r : list Z, (λ x : Z, Some x) <$> r)
                                    <$> body t |}
          = Some ((λ r : list Z, (λ x : Z, Some x) <$> r) <$> body t)) as ->.
  { unfold read_csv. simpl. rewrite length_fmap.
    rewrite filter_all.
    - apply mapM_Some_2, Forall_Forall2_diag, Forall_fmap.
      eapply Forall_impl; [exact Hrect|]. intros r Hr. simpl in *.
      rewrite length_fmap, Hr, Nat.leb_refl, Nat.sub_diag. simpl.
      by rewrite app_nil_r.
    - apply Forall_fmap. eapply Forall_impl; [exact Hrect|]. intros r Hr.
      simpl in *. destruct r; [|done]. simpl in Hr.
      destruct (header t); [done|]. done. }
  simpl. rewrite allele_columns_file_table. simpl.
  assert (mapM (λ r, mapM astype_int (select_cells (allele_columns (header t)) r))
               ((λ r : list Z, (λ x : Z, Some x) <$> r) <$> body t)
          = Some (select_columns (allele_columns (header t)) <$> body t)) as ->.
  { apply mapM_Some_2, Forall2_fmap, Forall_Forall2_diag.
    eapply Forall_impl; [exact Hint|]. intros r Hr. simpl in *.
    rewrite select_cells_table. apply mapM_fmap_Forall_Some.
    apply Forall_forall. intros x Hx.
    assert (int64 x) as [Hlo Hhi].
    { eapply Forall_forall in Hr; [done|].
      unfold select_columns in Hx.
      apply list_elem_of_fmap in Hx as ([b y] & -> & Hx).
      apply list_elem_of_filter in Hx as [_ Hx].
      by apply elem_of_zip_r in Hx. }
    unfold astype_int. simpl.
    apply Z.leb_le in Hlo. apply Z.leb_le in Hhi. by rewrite Hlo, Hhi. }
  done.
Qed.


(** ** Every code is an id of the input *)

Lemma encode_rows_loop_rows_in (S : list Z) (index : gmap Z nat) (min_id : Z)
    (k : nat) (tgts : list Z) (res res' : matrix) :
  rows_in S res →
  oloop (λ res tgt,
           it ← index !! tgt; im ← index !! min_id;
           rt ← res !! it; rm ← res !! im;
           Some (<[it := copy_from k rt rm]> res)) res tgts = Some res' →
  rows_in S res'.
Proof.
  intros Hres. apply oloop_inv; [|done].
  clear. intros res tgt res' _ Hres Hstep. simplify_option_eq.
  apply Forall_insert; [done|].
  apply copy_from_Forall; by eapply Forall_lookup_1.
Qed.

Lemma encode_step_rows_in (S : list Z) (n : nat) (index : gmap Z nat)
    (desc desc' : list (option (list Z))) (res res' : matrix)
    (ic : nat * merge_event) :
  rows_in S res →
  encode_step n index (desc, res) ic = Some (desc', res') →
  rows_in S res'.
Proof.
  intros Hres. destruct ic as [idx [[c0 c1] cd]]. unfold encode_step.
  intros Hstep. simplify_option_eq.
  destruct (_ <? _)%Z; simplify_option_eq;
    destruct (_ <? _); simplify_option_eq;
    by eapply encode_rows_loop_rows_in.
Qed.

Lemma encode_rows_in (S : list Z) (mat : matrix) (slc : list merge_event)
    (res res' : matrix) :
  rows_in S res → encode mat slc res = Some res' → rows_in S res'.
Proof.
  intros Hres. unfold encode. intros Henc.
  apply fmap_Some in Henc as ([desc' res1] & Hloop & ->). simpl.
  revert Hloop.
  apply (oloop_inv (λ st, rows_in S st.2)); [|done].
  intros [d1 r1] ic [d2 r2] _ H1 H2. simpl in *.
  by eapply encode_step_rows_in.
Qed.

Lemma attach_step_rows_in (S : list Z) (start : nat) (res res' : matrix)
    (idd : nat * list nat) :
  rows_in S res → attach_step start res idd = Some res' → rows_in S res'.
Proof.
  intros Hres. destruct idd as [id d]. unfold attach_step.
  destruct (0 <? id + start); [|by intros [= <-]].
  intros Hstep. simplify_option_eq.
  destruct (_ <? _)%Z; simplify_eq; [|done].
  apply Forall_insert; [done|].
  apply copy_from_Forall; by eapply Forall_lookup_1.
Qed.

Lemma attach_rows_in (S : list Z) (start : nat) (A : dmatrix)
    (res res' : matrix) :
  rows_in S res → attach start A res = Some res' → rows_in S res'.
Proof.
  intros Hres. unfold attach. apply oloop_inv; [|done].
  intros ??? _. apply attach_step_rows_in.
Qed.

Lemma order_profiles_full (mat : matrix) :
  order_profiles None mat = (stable_sort_by absence mat, ∅, 0).
Proof. done. Qed.

Lemma sorted_pos (t : table) :
  Forall (λ x, (0 < x)%Z) (column0 (stable_sort_by absence (prepare_mat t))).
Proof.
  rewrite (column0_perm _ _ (stable_sort_by_perm absence (prepare_mat t))).
  apply prepare_mat_pos.
Qed.

Lemma init_rows_in (mat : matrix) :
  rows_in (column0 mat) ((λ x, replicate (shape1 mat + 1) x) <$> column0 mat).
Proof.
  apply Forall_fmap, Forall_forall. intros x Hx. simpl.
  by apply Forall_replicate.
Qed.

(** C10. In a run without [--append], every entry of the code matrix, at
    every threshold and for every profile, is the id of a profile of the
    input. *)
Theorem full_run_codes_are_ids
    (getDistance : dist_mode → matrix → nat → dmatrix)
    (linkage : list nat → option (list merge_event))
    (t : table) (out : matrix) :
  hierCC getDistance linkage None t = Some out →
  ∀ r x, r ∈ out → x ∈ r → x ∈ column0 (prepare_mat t).
Proof.
  unfold hierCC, hierCC_mat. rewrite order_profiles_full.
  set (mat := stable_sort_by absence (prepare_mat t)).
  intros Hrun r x Hr Hx.
  destruct (init_res mat) as [res0|] eqn:Hinit; [|done]. simpl in Hrun.
  apply init_res_pos in Hinit; [|apply sorted_pos].
  destruct (full_clustering _ _ _ _ _) as [res1|] eqn:Hfull; [|done].
  simpl in Hrun.
  destruct (attach _ _ _) as [res2|] eqn:Hatt; [|done].
  simpl in Hrun. simplify_eq.
  assert (rows_in (column0 mat) res1) as H1.
  { unfold full_clustering in Hfull. simplify_option_eq.
    eapply encode_rows_in; [|done]. apply init_rows_in. }
  assert (rows_in (column0 mat) res2) as H2 by by eapply attach_rows_in.
  assert (rows_in (column0 mat) (set_column0 (column0 mat) res2)) as H3.
  { apply set_column0_rows_in; [|done]. by apply Forall_forall. }
  eapply Forall_forall in H3; [|done].
  eapply Forall_forall in H3; [|done].
  by rewrite <-(column0_perm _ _ (stable_sort_by_perm absence (prepare_mat t))).
Qed.

(** ** Connectivity at a threshold *)

Lemma connected_mono (d : nat → nat → nat) (n t1 t2 p q : nat) :
  t1 ≤ t2 → connected d n t1 p q → connected d n t2 p q.
Proof.
  intros Ht. unfold connected, rtsc. apply rtc_subrel.
  intros x y [H|H]; [left|right]; unfold linked in *; intuition lia.
Qed.

Lemma connected_lt (d : nat → nat → nat) (n t p q : nat) :
  connected d n t p q → p < n → q < n.
Proof.
  induction 1 as [|x y z Hxy _ IH]; [done|].
  intros _. apply IH. destruct Hxy as [H|H]; unfold linked in H; tauto.
Qed.

Lemma connected_linked (d : nat → nat → nat) (n t p q : nat) :
  p < n → q < n → d p q ≤ t → connected d n t p q.
Proof. intros. by apply rtsc_lr. Qed.

Global Instance connected_equiv (d : nat → nat → nat) (n t : nat) :
  Equivalence (connected d n t).
Proof. unfold connected. apply _. Qed.

Lemma is_min_id_unique (ids : list Z) (d : nat → nat → nat) (n t p q : nat)
    (c c' : Z) :
  connected d n t p q →
  is_min_id ids (connected d n t) p c →
  is_min_id ids (connected d n t) q c' →
  c = c'.
Proof.
  intros Hpq [(p1 & Hp1 & Hc) Hmin] [(q1 & Hq1 & Hc') Hmin'].
  assert (c ≤ c')%Z.
  { eapply Hmin; [|exact Hc']. etrans; [exact Hpq|exact Hq1]. }
  assert (c' ≤ c)%Z.
  { eapply Hmin'; [|exact Hc]. etrans; [symmetry; exact Hpq|exact Hp1]. }
  lia.
Qed.

Lemma is_min_id_connected (ids : list Z) (d : nat → nat → nat) (n t p q : nat)
    (c : Z) :
  NoDup ids →
  is_min_id ids (connected d n t) p c →
  is_min_id ids (connected d n t) q c →
  connected d n t p q.
Proof.
  intros Hnd [(p1 & Hp1 & Hc) _] [(q1 & Hq1 & Hc') _].
  assert (p1 = q1) as -> by by eapply NoDup_lookup.
  etrans; [exact Hp1|]. by symmetry.
Qed.

(** ** The dendrogram checker *)

Lemma same_clusterb_true (cl : list (option (list nat))) (p q : nat) :
  same_clusterb cl p q = true ↔ same_cluster cl p q.
Proof.
  unfold same_clusterb, same_cluster. rewrite existsb_exists. split.
  - intros ([l|] & Hin & Hl); [|done].
    apply andb_true_iff in Hl as [Hp Hq].
    apply bool_decide_eq_true in Hp, Hq.
    apply list_elem_of_In, list_elem_of_lookup in Hin as [x Hx]. eauto.
  - intros (x & l & Hx & Hp & Hq). exists (Some l). split.
    + apply list_elem_of_In, list_elem_of_lookup. eauto.
    + apply andb_true_iff. by rewrite !bool_decide_eq_true.
Qed.

Lemma linkage_okb_cons (d : nat → nat → nat) (n : nat)
    (cl : list (option (list nat))) (idx a b w : nat) (slc : list merge_event) :
  linkage_okb d n cl idx ((a, b, w) :: slc) = true →
  ∃ A B, cl !! a = Some (Some A) ∧ cl !! b = Some (Some B) ∧
    a ≠ b ∧ idx + n < length cl ∧
    (∃ p q, p ∈ A ∧ q ∈ B ∧ d p q = w) ∧
    (∀ p q, p < n → q < n → ¬ same_cluster cl p q → w ≤ d p q) ∧
    linkage_okb d n (merge_nodes cl (idx + n) a b A B) (S idx) slc = true.
Proof.
  simpl. destruct (cl !! a) as [[A|]|] eqn:Ha; simpl; try done.
  destruct (cl !! b) as [[B|]|] eqn:Hb; simpl; try done.
  rewrite !andb_true_iff. intros [[[[Hab Hlen] Hex] Hall] Hrest].
  exists A, B. split_and!; try done.
  - apply negb_true_iff, Nat.eqb_neq in Hab. done.
  - by apply Nat.ltb_lt.
  - apply existsb_exists in Hex as (p & Hp & Hex).
    apply existsb_exists in Hex as (q & Hq & Hex).
    apply Nat.eqb_eq in Hex. exists p, q.
    by rewrite <-!list_elem_of_In in *.
  - intros p q Hp Hq Hsame.
    rewrite forallb_forall in Hall. specialize (Hall p).
    rewrite forallb_forall in Hall.
    specialize (Hall ltac:(apply in_seq; lia) q ltac:(apply in_seq; lia)).
    apply orb_true_iff in Hall as [Hs|Hle].
    + by apply same_clusterb_true in Hs.
    + by apply Nat.leb_le.
Qed.

Lemma live_count_insert (cl : list (option (list nat))) (i : nat)
    (v c : option (list nat)) :
  cl !! i = Some c →
  live_count (<[i := v]> cl) + match c with Some _ => 1 | None => 0 end
  = live_count cl + match v with Some _ => 1 | None => 0 end.
Proof.
  unfold live_count. revert i. induction cl as [|c0 cl IH]; intros i Hi; [done|].
  destruct i as [|i]; simpl in *.
  - simplify_eq. rewrite !filter_cons.
    destruct c, v; repeat case_decide; simpl;
      try (exfalso; by eauto using is_Some_None); try lia;
      exfalso; naive_solver eauto using is_Some_None.
  - specialize (IH i Hi). rewrite !filter_cons.
    case_decide; simpl; lia.
Qed.

Lemma live_count_one (cl : list (option (list nat))) (x y : nat)
    (l l' : list nat) :
  live_count cl = 1 → cl !! x = Some (Some l) → cl !! y = Some (Some l') → x = y.
Proof.
  unfold live_count. revert x y.
  induction cl as [|c cl IH]; intros x y Hc Hx Hy; [done|].
  rewrite filter_cons in Hc. case_decide as Hs.
  - simpl in Hc. assert (filter (λ c, is_Some c) cl = []) as Hnil.
    { by destruct (filter _ cl). }
    assert (∀ j l, cl !! j = Some (Some l) → False) as Hno.
    { intros j l0 Hj.
      assert (Some l0 ∈ filter (λ c, is_Some c) cl) as Hin.
      { apply list_elem_of_filter. split; [by eexists|].
        apply list_elem_of_lookup. eauto. }
      rewrite Hnil in Hin. by apply not_elem_of_nil in Hin. }
    destruct x as [|x], y as [|y]; simpl in *; [done|..]; exfalso; eauto.
  - destruct x as [|x], y as [|y]; simpl in *; simplify_eq.
    + exfalso. apply Hs. by eexists.
    + exfalso. apply Hs. by eexists.
    + exfalso. apply Hs. by eexists.
    + f_equal. eauto.
Qed.

Lemma merge_nodes_lookup (cl : list (option (list nat))) (x a b : nat)
    (A B : list nat) :
  x < length cl → a < length cl → b < length cl → x ≠ a → x ≠ b →
  merge_nodes cl x a b A B !! x = Some (Some (A ++ B)) ∧
  merge_nodes cl x a b A B !! a = Some None ∧
  merge_nodes cl x a b A B !! b = Some None ∧
  (∀ y, y ≠ x → y ≠ a → y ≠ b → merge_nodes cl x a b A B !! y = cl !! y) ∧
  length (merge_nodes cl x a b A B) = length cl.
Proof.
  intros Hx Ha Hb Hxa Hxb. unfold merge_nodes. split_and!.
  - apply list_lookup_insert_eq. by rewrite !length_insert.
  - rewrite list_lookup_insert_ne by done.
    apply list_lookup_insert_eq. by rewrite !length_insert.
  - rewrite list_lookup_insert_ne by done.
    destruct (decide (a = b)) as [->|Hab].
    + apply list_lookup_insert_eq. by rewrite !length_insert.
    + rewrite list_lookup_insert_ne by done. by apply list_lookup_insert_eq.
  - intros y ???. by rewrite !list_lookup_insert_ne.
  - by rewrite !length_insert.
Qed.

(** ** The dictionary [index] *)

Lemma elem_of_enumerate {A : Type} (l : list A) (i : nat) (x : A) :
  (i, x) ∈ enumerate l ↔ l !! i = Some x.
Proof.
  unfold enumerate. rewrite elem_of_lookup_zip_with. split.
  - intros (j & i' & x' & Heq & Hseq & Hl).
    apply lookup_seq in Hseq as [-> _]. by simplify_eq.
  - intros Hl. exists i, i, x. split_and!; [done| |done].
    apply lookup_seq. split; [done|]. by eapply lookup_lt_Some.
Qed.

Lemma enumerate_snd {A : Type} (l : list A) : (enumerate l).*2 = l.
Proof. unfold enumerate. apply snd_zip. by rewrite length_seq. Qed.

Lemma index_of_Some (ids : list Z) (z : Z) (i : nat) :
  index_of ids !! z = Some i → ids !! i = Some z.
Proof.
  unfold index_of, dict_of. intros H.
  apply elem_of_list_to_map_2 in H. rewrite elem_of_reverse in H.
  apply list_elem_of_fmap in H as ([i' z'] & Heq & H). simpl in Heq.
  simplify_eq. by apply elem_of_enumerate.
Qed.

Lemma index_of_NoDup (ids : list Z) (z : Z) (i : nat) :
  NoDup ids → ids !! i = Some z → index_of ids !! z = Some i.
Proof.
  intros Hnd Hi. unfold index_of, dict_of.
  apply elem_of_list_to_map_1.
  - rewrite fmap_reverse, reverse_Permutation.
    rewrite <-list_fmap_compose.
    replace ((fst ∘ (λ p : nat * Z, (p.2, p.1))) <$> enumerate ids)
      with ((enumerate ids).*2) by done.
    by rewrite enumerate_snd.
  - apply elem_of_reverse, list_elem_of_fmap.
    exists (i, z). split; [done|]. by apply elem_of_enumerate.
Qed.

Lemma foldl_min_head (m : Z) (zs : list Z) :
  (∀ z, z ∈ zs → (m ≤ z)%Z) → foldl Z.min m zs = m.
Proof.
  intros H. induction zs as [|z zs IH]; simpl; [done|].
  rewrite Z.min_l by (apply H; left).
  apply IH. intros z' Hz'. apply H. by right.
Qed.

(** ** The inner loop of a merge event *)

Lemma copy_from_same (k : nat) (a : list Z) : copy_from k a a = a.
Proof. apply take_drop. Qed.

Lemma encode_rows_loop (ids : list Z) (k W : nat) (m0 : Z) (p0 : nat)
    (ra : list Z) (tgts : list Z) (res res' : matrix) :
  NoDup ids → ids !! p0 = Some m0 →
  (∀ p r, res !! p = Some r → length r = W) →
  res !! p0 = Some ra →
  oloop (λ res tgt,
           it ← index_of ids !! tgt; im ← index_of ids !! m0;
           rt ← res !! it; rm ← res !! im;
           Some (<[it := copy_from k rt rm]> res)) res tgts = Some res' →
  length res' = length res ∧
  (∀ p r, res' !! p = Some r → length r = W) ∧
  (∀ p z r, ids !! p = Some z → z ∈ tgts → res !! p = Some r →
            res' !! p = Some (copy_from k r ra)) ∧
  (∀ p, (∀ z, ids !! p = Some z → z ∉ tgts) → res' !! p = res !! p) ∧
  (∀ p z, ids !! p = Some z → z ∈ tgts → p < length res).
Proof.
  intros Hnd Hp0. revert res.
  induction tgts as [|tgt rest IH]; intros res Hw Hra Hloop.
  { cbv [oloop] in Hloop. simplify_eq. split_and!; [done..| |done|].
    - intros ???? H. by apply not_elem_of_nil in H.
    - intros ??? H. by apply not_elem_of_nil in H. }
  rewrite oloop_cons in Hloop.
  destruct (index_of ids !! tgt) as [it|] eqn:Hit; [|done].
  destruct (index_of ids !! m0) as [im|] eqn:Him; [|done].
  simpl in Hloop.
  apply index_of_Some in Hit, Him.
  assert (im = p0) as -> by by eapply NoDup_lookup.
  destruct (res !! it) as [rt|] eqn:Hrt; [|done].
  rewrite Hra in Hloop. simpl in Hloop.
  assert (length rt = W) as Hlrt by eauto.
  assert (length ra = W) as Hlra by eauto.
  set (res1 := <[it := copy_from k rt ra]> res) in *.
  assert (∀ p r, res1 !! p = Some r → length r = W) as Hw1.
  { intros p r Hr. unfold res1 in Hr.
    apply list_lookup_insert_Some in Hr as [(-> & <- & _)|[_ Hr]]; [|eauto].
    rewrite copy_from_length; lia. }
  assert (res1 !! p0 = Some ra) as Hra1.
  { unfold res1. destruct (decide (it = p0)) as [->|Hne].
    - assert (rt = ra) as -> by congruence. rewrite copy_from_same.
      apply list_lookup_insert_eq. by eapply lookup_lt_Some.
    - by rewrite list_lookup_insert_ne. }
  destruct (IH res1) as (Hlen & Hw' & Hin & Hout & Hlt); [done..|].
  split_and!.
  - rewrite Hlen. unfold res1. by rewrite length_insert.
  - done.
  - intros p z r Hp Hz Hr.
    destruct (decide (z ∈ rest)) as [Hzr|Hzr].
    + destruct (decide (p = it)) as [->|Hpi].
      * assert (r = rt) as -> by congruence.
        rewrite <-(copy_from_idemp k rt ra) by lia.
        eapply Hin; [done..|]. unfold res1.
        apply list_lookup_insert_eq. by eapply lookup_lt_Some.
      * eapply Hin; [done..|]. unfold res1.
        by rewrite list_lookup_insert_ne.
    + apply elem_of_cons in Hz as [->|Hz]; [|done].
      assert (p = it) as -> by by eapply NoDup_lookup.
      assert (r = rt) as -> by congruence. rewrite Hout.
      * unfold res1. apply list_lookup_insert_eq. by eapply lookup_lt_Some.
      * intros z Hz. by simplify_eq.
  - intros p Hp. rewrite Hout.
    + unfold res1. apply list_lookup_insert_ne. intros ->.
      eapply Hp; [done|]. by left.
    + intros z Hz Hzr. eapply Hp; [done|]. by right.
  - intros p z Hp Hz. apply elem_of_cons in Hz as [->|Hz].
    + assert (p = it) as -> by by eapply NoDup_lookup.
      by eapply lookup_lt_Some.
    + specialize (Hlt p z Hp Hz). unfold res1 in Hlt.
      by rewrite length_insert in Hlt.
Qed.

Lemma copy_from_lookup_lt' (k c : nat) (a b : list Z) :
  c < k → length a = length b → copy_from k a b !! c = a !! c.
Proof.
  intros Hc Hl. destruct (decide (k ≤ length a)).
  - by apply copy_from_lookup_lt.
  - rewrite copy_from_short; [done..|lia].
Qed.

Lemma copy_from_lookup_ge' (k c : nat) (a b : list Z) :
  k ≤ c → length a = length b → copy_from k a b !! c = b !! c.
Proof.
  intros Hc Hl. destruct (decide (k ≤ length a)).
  - by apply copy_from_lookup_ge.
  - rewrite copy_from_short; [|done|lia].
    rewrite !lookup_ge_None_2; [done|lia..].
Qed.

(** ** One merge event preserves the invariant *)

Lemma cluster_closed (d : nat → nat → nat) (n t w : nat)
    (cl : list (option (list nat))) (y : nat) (l : list nat) (p q : nat) :
  (∀ x y l l' p, cl !! x = Some (Some l) → cl !! y = Some (Some l') →
                 p ∈ l → p ∈ l' → x = y) →
  (∀ p q, p < n → q < n → ¬ same_cluster cl p q → w ≤ d p q) →
  t < w → cl !! y = Some (Some l) →
  connected d n t p q → p ∈ l → q ∈ l.
Proof.
  intros Hdisj Hsep Htw Hy Hconn.
  induction Hconn as [|p p' q Hstep _ IH]; [done|].
  intros Hp. apply IH.
  destruct (decide (p' ∈ l)) as [|Hnot]; [done|]. exfalso.
  assert (¬ same_cluster cl p p' ∧ ¬ same_cluster cl p' p) as [H1 H2].
  { split; intros (x & l' & Hx & Ha & Hb).
    - assert (x = y) as -> by by apply (Hdisj x y l' l p).
      by simplify_eq.
    - assert (x = y) as -> by by apply (Hdisj x y l' l p).
      by simplify_eq. }
  destruct Hstep as [(Ha & Hb & Hd)|(Ha & Hb & Hd)].
  - specialize (Hsep p p' Ha Hb H1). lia.
  - specialize (Hsep p' p Ha Hb H2). lia.
Qed.

Lemma enc_inv_merge (ids : list Z) (d : nat → nat → nat) (W idx dk w : nat)
    (cl cl' : list (option (list nat))) (desc : list (option (list Z)))
    (res res' : matrix) (d0 d1 : nat) (C0 C1 N : list nat)
    (m0 m1 : Z) (z0 z1 : list Z) :
  NoDup ids →
  enc_inv ids d W idx dk cl desc res →
  cl !! d0 = Some (Some C0) → cl !! d1 = Some (Some C1) → d0 ≠ d1 →
  idx + length ids < length cl → idx + length ids < length desc →
  cl' !! (idx + length ids) = Some (Some N) →
  cl' !! d0 = Some None → cl' !! d1 = Some None →
  (∀ y, y ≠ idx + length ids → y ≠ d0 → y ≠ d1 → cl' !! y = cl !! y) →
  length cl' = length cl →
  live_count cl' + 1 = live_count cl →
  (∀ p, p ∈ N ↔ p ∈ C0 ∨ p ∈ C1) →
  (∃ p q, p ∈ C0 ∧ q ∈ C1 ∧ connected d (length ids) w p q) →
  dk ≤ w →
  (∀ p q, p < length ids → q < length ids → ¬ same_cluster cl p q → w ≤ d p q) →
  desc !! d0 = Some (Some (m0 :: z0)) → desc !! d1 = Some (Some (m1 :: z1)) →
  (m0 ≤ m1)%Z →
  oloop (λ res tgt,
           it ← index_of ids !! tgt; im ← index_of ids !! m0;
           rt ← res !! it; rm ← res !! im;
           Some (<[it := copy_from (w + 1) rt rm]> res)) res (m1 :: z1)
    = Some res' →
  enc_inv ids d W (S idx) w cl'
          (<[idx + length ids := Some ((m0 :: z0) ++ m1 :: z1)]> desc) res'.
Proof.
  intros Hnd [] Hd0 Hd1 Hne Hxcl Hxdesc Hx' Hd0' Hd1' Hother Hlen' Hcount
         HN (pw & qw & Hpw & Hqw & Hedge) Hdk Hsep Hdesc0 Hdesc1 Hm01 Hloop.
  (* the two sides *)
  destruct (inv_desc0 d0 C0 Hd0) as (m0' & z0' & Heq0 & Hmin0 & Hmem0).
  destruct (inv_desc0 d1 C1 Hd1) as (m1' & z1' & Heq1 & Hmin1 & Hmem1).
  rewrite Hdesc0 in Heq0. rewrite Hdesc1 in Heq1.
  symmetry in Heq0, Heq1. simplify_eq.
  assert (cl !! (idx + length ids) = Some None) as Hxnone by (apply inv_fresh0; lia).
  assert (d0 ≠ (idx + length ids) ∧ d1 ≠ (idx + length ids)) as [Hd0x Hd1x] by (split; congruence).
  assert (d0 < (idx + length ids) ∧ d1 < (idx + length ids)) as [Hd0lt Hd1lt].
  { split; apply Nat.lt_nge; intros Hge.
    - rewrite inv_fresh0 in Hd0; [done..|by eapply lookup_lt_Some].
    - rewrite inv_fresh0 in Hd1; [done..|by eapply lookup_lt_Some]. }
  assert (∀ p, p ∈ C0 → p ∉ C1) as Hdisj01.
  { intros p H0 H1. apply Hne. by eapply inv_disj0. }
  (* the anchor *)
  destruct (proj1 (Hmem0 m0) ltac:(left)) as (p0 & Hp0 & Hidp0).
  assert (m0 ∉ m1 :: z1) as Hanchor.
  { intros Hin. apply Hmem1 in Hin as (p1 & Hp1 & Hidp1).
    assert (p1 = p0) as -> by by eapply NoDup_lookup.
    by eapply Hdisj01. }
  destruct (lookup_lt_is_Some_2 res p0) as [ra Hra].
  { rewrite inv_len0. by eapply lookup_lt_Some. }
  destruct (encode_rows_loop ids (w + 1) W m0 p0 ra (m1 :: z1) res res')
    as (Hlen & Hw' & Hin & Hout & _); [done..|].
  assert (∀ p r, p ∈ C1 → res !! p = Some r →
                 res' !! p = Some (copy_from (w + 1) r ra)) as Habs.
  { intros p r Hp Hr.
    destruct (lookup_lt_is_Some_2 ids p) as [z Hz]; [by eapply inv_range0|].
    eapply Hin; [done| |done]. apply Hmem1. eauto. }
  assert (∀ p, p ∉ C1 → res' !! p = res !! p) as Hkeep.
  { intros p Hp. apply Hout. intros z Hz Hzin.
    apply Hmem1 in Hzin as (p1 & Hp1 & Hidp1).
    assert (p1 = p) as -> by by eapply NoDup_lookup. done. }
  assert (∀ p t, t < w → code res' p t = code res p t) as Hcode_lo.
  { intros p t Ht. unfold code.
    destruct (decide (p ∈ C1)) as [Hp|Hp]; [|by rewrite Hkeep].
    destruct (res !! p) as [r|] eqn:Hr.
    - rewrite (Habs p r Hp Hr). simpl.
      apply copy_from_lookup_lt'; [lia|].
      rewrite (inv_width0 p r), (inv_width0 p0 ra); done.
    - rewrite (lookup_ge_None_2 res'); [done|].
      rewrite Hlen. by apply lookup_ge_None. }
  assert (∀ p t, p ∈ C1 → w ≤ t → code res' p t = code res p0 t) as Hcode_hi.
  { intros p t Hp Ht. unfold code.
    destruct (lookup_lt_is_Some_2 res p) as [r Hr].
    { rewrite inv_len0. by eapply inv_range0. }
    rewrite (Habs p r Hp Hr), Hra. simpl.
    apply copy_from_lookup_ge'; [lia|].
    rewrite (inv_width0 p r), (inv_width0 p0 ra); done. }
  assert (∀ y l, cl' !! y = Some (Some l) →
            (y = (idx + length ids) ∧ l = N) ∨ (y ≠ (idx + length ids) ∧ y ≠ d0 ∧ y ≠ d1 ∧ cl !! y = Some (Some l)))
    as Hcases.
  { intros y l Hy. destruct (decide (y = (idx + length ids))) as [->|Hyx].
    - left. split; [done|]. congruence.
    - right. destruct (decide (y = d0)) as [->|]; [congruence|].
      destruct (decide (y = d1)) as [->|]; [congruence|].
      by rewrite <-Hother. }
  split.
  - by rewrite Hlen.
  - done.
  - lia.
  - intros y Hy Hylen. rewrite Hother; [|lia..].
    apply inv_fresh0; lia.
  - intros y l p Hy Hp.
    destruct (Hcases y l Hy) as [[-> ->]|(_ & _ & _ & Hy')]; [|by eauto].
    apply HN in Hp as [Hp|Hp]; eauto.
  - intros p Hp. destruct (inv_cover0 p Hp) as (y & l & Hy & Hpl).
    destruct (decide (y = d0)) as [->|Hy0].
    { exists (idx + length ids), N. split; [done|]. apply HN. left. by simplify_eq. }
    destruct (decide (y = d1)) as [->|Hy1].
    { exists (idx + length ids), N. split; [done|]. apply HN. right. by simplify_eq. }
    exists y, l. split; [|done]. rewrite Hother; [done|congruence|done..].
  - intros y y' l l' p Hy Hy' Hp Hp'.
    destruct (Hcases y l Hy) as [[-> ->]|(? & ? & ? & Hyo)];
      destruct (Hcases y' l' Hy') as [[-> ->]|(? & ? & ? & Hyo')]; [done|..].
    + exfalso. apply HN in Hp as [Hp|Hp].
      * assert (d0 = y') by by eapply inv_disj0. done.
      * assert (d1 = y') by by eapply inv_disj0. done.
    + exfalso. apply HN in Hp' as [Hp'|Hp'].
      * assert (d0 = y) by by eapply inv_disj0. done.
      * assert (d1 = y) by by eapply inv_disj0. done.
    + by eapply inv_disj0.
  - intros y l Hy.
    destruct (Hcases y l Hy) as [[-> ->]|(? & ? & ? & Hyo)].
    + exists m0, (z0 ++ m1 :: z1). split_and!.
      * by apply list_lookup_insert_eq.
      * intros z Hz. apply elem_of_app in Hz as [Hz|Hz]; [by apply Hmin0|].
        apply elem_of_cons in Hz as [->|Hz]; [done|].
        specialize (Hmin1 z Hz). lia.
      * intros z. rewrite app_comm_cons, elem_of_app, Hmem0, Hmem1.
        split.
        -- intros [(p & Hp & Hz)|(p & Hp & Hz)]; exists p; (split; [|done]);
             apply HN; auto.
        -- intros (p & Hp & Hz). apply HN in Hp as [Hp|Hp]; eauto.
    + rewrite list_lookup_insert_ne by done. by apply inv_desc0.
  - intros y l p q Hy Hp Hq.
    destruct (Hcases y l Hy) as [[-> ->]|(? & ? & ? & Hyo)].
    + assert (∀ a b, a ∈ C0 → b ∈ C1 → connected d (length ids) w a b) as Hcross.
      { intros a b Ha Hb.
        trans pw.
        { apply (connected_mono d (length ids) dk w); [done|].
          by apply (inv_conn0 d0 C0). }
        trans qw; [exact Hedge|].
        apply (connected_mono d (length ids) dk w); [done|].
        by apply (inv_conn0 d1 C1). }
      apply HN in Hp as [Hp|Hp]; apply HN in Hq as [Hq|Hq].
      * apply (connected_mono d (length ids) dk w); [done|].
        by apply (inv_conn0 d0 C0).
      * by apply Hcross.
      * symmetry. by apply Hcross.
      * apply (connected_mono d (length ids) dk w); [done|].
        by apply (inv_conn0 d1 C1).
    + apply (connected_mono d (length ids) dk w); [done|].
      by apply (inv_conn0 y l).
  - intros p q Hp Hq Hsame. apply Hsep; [done..|].
    intros (y & l & Hy & Hpl & Hql). apply Hsame.
    destruct (decide (y = d0)) as [->|Hy0].
    { exists (idx + length ids), N. simplify_eq. split_and!; [done|apply HN; auto..]. }
    destruct (decide (y = d1)) as [->|Hy1].
    { exists (idx + length ids), N. simplify_eq. split_and!; [done|apply HN; auto..]. }
    exists y, l. split_and!; [|done..]. rewrite Hother; [done|congruence|done..].
  - intros y l m zs p t Hy Hdesc Hp Ht HtW.
    destruct (Hcases y l Hy) as [[-> ->]|(? & ? & ? & Hyo)].
    + rewrite list_lookup_insert_eq in Hdesc by done.
      simpl in Hdesc. simplify_eq.
      apply HN in Hp as [Hp|Hp].
      * unfold code. rewrite Hkeep by by apply Hdisj01.
        eapply (inv_hi0 d0 C0); [exact Hd0|exact Hdesc0|exact Hp|lia|done].
      * rewrite Hcode_hi by done.
        eapply (inv_hi0 d0 C0); [exact Hd0|exact Hdesc0|exact Hp0|lia|done].
    + rewrite list_lookup_insert_ne in Hdesc by done.
      unfold code. rewrite Hkeep.
      * eapply (inv_hi0 y l); [done..|lia|done].
      * intros Hp1. assert (y = d1) by by apply (inv_disj0 y d1 l C1 p). done.
  - intros p t Hp Ht HtW. rewrite Hcode_lo by done.
    destruct (decide (t < dk)) as [Hlt|Hge]; [by apply inv_lo0|].
    destruct (inv_cover0 p Hp) as (y & l & Hy & Hpl).
    destruct (inv_desc0 y l Hy) as (m & zs & Hdesc & Hmin & Hmem).
    exists m. split.
    { eapply (inv_hi0 y l); [done..|lia|done]. }
    split.
    + destruct (proj1 (Hmem m) ltac:(left)) as (q & Hq & Hidq).
      exists q. split; [|done].
      apply (connected_mono d (length ids) dk t); [lia|].
      by apply (inv_conn0 y l).
    + intros q z Hconn Hz.
      assert (q ∈ l) as Hql.
      { eapply (cluster_closed d (length ids) t w cl y l p q); eauto. }
      assert (z ∈ m :: zs) as Hzin by (apply Hmem; eauto).
      apply elem_of_cons in Hzin as [->|Hzin]; [done|]. by apply Hmin.
Qed.

Lemma merge_nodes_count (cl : list (option (list nat))) (x a b : nat)
    (A B : list nat) :
  cl !! a = Some (Some A) → cl !! b = Some (Some B) → cl !! x = Some None →
  a ≠ b →
  live_count (merge_nodes cl x a b A B) + 1 = live_count cl.
Proof.
  intros Ha Hb Hx Hab. unfold merge_nodes.
  assert (x ≠ a ∧ x ≠ b) as [Hxa Hxb] by (split; congruence).
  pose proof (live_count_insert cl b None (Some B) Hb) as H1.
  assert (<[b := None]> cl !! a = Some (Some A)) as Ha1.
  { by rewrite list_lookup_insert_ne. }
  pose proof (live_count_insert _ a None (Some A) Ha1) as H2.
  assert (<[a := None]> (<[b := None]> cl) !! x = Some None) as Hx2.
  { by rewrite !list_lookup_insert_ne. }
  pose proof (live_count_insert _ x (Some (A ++ B)) None Hx2) as H3.
  simpl in *. lia.
Qed.

(** The shape of a successful merge event: [d0] is the side whose first
    descendant has the smaller id, [d1] the other side. *)
Lemma encode_step_inv (n : nat) (index : gmap Z nat)
    (desc desc' : list (option (list Z))) (res res' : matrix)
    (idx c0 c1 w : nat) :
  encode_step n index (desc, res) (idx, (c0, c1, w)) = Some (desc', res') →
  ∃ l0 l1 k0 k1 d0 d1 ld0 ld1 min_id tgts,
    desc !! c0 = Some (Some l0) ∧ desc !! c1 = Some (Some l1) ∧
    head l0 = Some k0 ∧ head l1 = Some k1 ∧
    (d0, d1, ld0, ld1)
      = (if (k1 <? k0)%Z then (c1, c0, l1, l0) else (c0, c1, l0, l1)) ∧
    list_minZ ld0 = Some min_id ∧
    idx + n < length desc ∧
    desc' = <[idx + n := Some (ld0 ++ ld1)]> desc ∧
    desc' !! d1 = Some (Some tgts) ∧
    oloop (λ res tgt,
             it ← index !! tgt; im ← index !! min_id;
             rt ← res !! it; rm ← res !! im;
             Some (<[it := copy_from (w + 1) rt rm]> res)) res tgts
      = Some res'.
Proof.
  unfold encode_step. intros Hstep.
  destruct (desc !! c0) as [[l0|]|] eqn:H0; try done.
  destruct (desc !! c1) as [[l1|]|] eqn:H1; try done.
  simpl in Hstep.
  destruct (head l0) as [k0|] eqn:Hk0; [|done].
  destruct (head l1) as [k1|] eqn:Hk1; [|done].
  simpl in Hstep.
  exists l0, l1, k0, k1.
  destruct (k1 <? k0)%Z.
  - rewrite H1, H0 in Hstep. simpl in Hstep.
    destruct (list_minZ l1) as [min_id|] eqn:Hmin; [|done]. simpl in Hstep.
    destruct (idx + n <? length desc) eqn:Hx; [|done].
    apply Nat.ltb_lt in Hx.
    destruct (<[idx + n := _]> desc !! c0) as [[tgts|]|] eqn:Ht; try done.
    simpl in Hstep.
    destruct (oloop _ res tgts) as [res1|] eqn:Hloop; [|done].
    simpl in Hstep. simplify_eq.
    by exists c1, c0, l1, l0, min_id, tgts.
  - rewrite H0, H1 in Hstep. simpl in Hstep.
    destruct (list_minZ l0) as [min_id|] eqn:Hmin; [|done]. simpl in Hstep.
    destruct (idx + n <? length desc) eqn:Hx; [|done].
    apply Nat.ltb_lt in Hx.
    destruct (<[idx + n := _]> desc !! c1) as [[tgts|]|] eqn:Ht; try done.
    simpl in Hstep.
    destruct (oloop _ res tgts) as [res1|] eqn:Hloop; [|done].
    simpl in Hstep. simplify_eq.
    by exists c0, c1, l0, l1, min_id, tgts.
Qed.

Lemma enc_inv_step (ids : list Z) (d : nat → nat → nat) (W idx dk : nat)
    (cl : list (option (list nat))) (desc desc' : list (option (list Z)))
    (res res' : matrix) (a b w : nat) (A B : list nat) :
  NoDup ids →
  enc_inv ids d W idx dk cl desc res →
  cl !! a = Some (Some A) → cl !! b = Some (Some B) → a ≠ b →
  idx + length ids < length cl →
  (∃ p q, p ∈ A ∧ q ∈ B ∧ d p q = w) →
  (∀ p q, p < length ids → q < length ids → ¬ same_cluster cl p q → w ≤ d p q) →
  encode_step (length ids) (index_of ids) (desc, res) (idx, (a, b, w))
    = Some (desc', res') →
  enc_inv ids d W (S idx) w
          (merge_nodes cl (idx + length ids) a b A B) desc' res'.
Proof.
  intros Hnd Hinv Ha Hb Hab Hx (pw & qw & Hpw & Hqw & Hw) Hsep Hstep.
  pose proof Hinv as [].
  destruct (inv_desc0 a A Ha) as (ma & za & Hda & Hmina & _).
  destruct (inv_desc0 b B Hb) as (mb & zb & Hdb & Hminb & _).
  assert (cl !! (idx + length ids) = Some None) as Hxnone
    by (apply inv_fresh0; lia).
  assert (a < idx + length ids ∧ b < idx + length ids) as [Halt Hblt].
  { split; apply Nat.lt_nge; intros Hge.
    - rewrite inv_fresh0 in Ha; [done..|by eapply lookup_lt_Some].
    - rewrite inv_fresh0 in Hb; [done..|by eapply lookup_lt_Some]. }
  assert (pw < length ids ∧ qw < length ids) as [Hpwn Hqwn]
    by (split; [by apply (inv_range0 a A)|by apply (inv_range0 b B)]).
  assert (connected d (length ids) w pw qw) as Hedge
    by (apply connected_linked; [done..|lia]).
  assert (dk ≤ w) as Hdk.
  { rewrite <-Hw. apply inv_sep0; [done..|].
    intros (y & l & Hy & Hp & Hq).
    assert (y = a) as -> by by apply (inv_disj0 y a l A pw).
    assert (a = b) by by apply (inv_disj0 a b l B qw). done. }
  destruct (merge_nodes_lookup cl (idx + length ids) a b A B)
    as (Hl1 & Hl2 & Hl3 & Hl4 & Hl5);
    [done|by eapply lookup_lt_Some|by eapply lookup_lt_Some|lia..|].
  pose proof (merge_nodes_count cl _ a b A B Ha Hb Hxnone Hab) as Hcount.
  apply encode_step_inv in Hstep
    as (l0 & l1 & k0 & k1 & d0 & d1 & ld0 & ld1 & min_id & tgts
        & H0 & H1 & Hk0 & Hk1 & Hside & Hmin & Hxd & -> & Htgts & Hloop).
  rewrite Hda in H0. rewrite Hdb in H1. simplify_eq/=.
  destruct (k1 <? k0)%Z eqn:Hcmp; simplify_eq.
  - apply Z.ltb_lt in Hcmp.
    simpl in Hmin. rewrite (foldl_min_head k1 zb Hminb) in Hmin.
    rewrite list_lookup_insert_ne, Hda in Htgts by lia. simplify_eq.
    eapply (enc_inv_merge ids d W idx dk _ cl _ desc res res' b a B A (A ++ B));
      try done.
    + intros y ???. by apply Hl4.
    + intros p. rewrite elem_of_app. tauto.
    + exists qw, pw. split_and!; [done..|]. by symmetry.
    + lia.
  - apply Z.ltb_ge in Hcmp.
    simpl in Hmin. rewrite (foldl_min_head k0 za Hmina) in Hmin.
    rewrite list_lookup_insert_ne, Hdb in Htgts by lia. simplify_eq.
    eapply (enc_inv_merge ids d W idx dk _ cl _ desc res res' a b A B (A ++ B));
      try done.
    + intros p. by rewrite elem_of_app.
    + eauto.
Qed.

(** ** The whole encoding loop *)

Lemma enc_inv_loop (ids : list Z) (d : nat → nat → nat) (W : nat)
    (slc : list merge_event) :
  NoDup ids →
  ∀ idx dk cl desc res desc' res',
    enc_inv ids d W idx dk cl desc res →
    linkage_okb d (length ids) cl idx slc = true →
    oloop (encode_step (length ids) (index_of ids)) (desc, res)
          (zip (seq idx (length slc)) slc) = Some (desc', res') →
    ∃ dk' cl', enc_inv ids d W (idx + length slc) dk' cl' desc' res'.
Proof.
  intros Hnd. induction slc as [|[[a b] w] slc IH];
    intros idx dk cl desc res desc' res' Hinv Hok Hloop.
  - cbv [length seq zip zip_with oloop] in Hloop. simplify_eq.
    exists dk, cl. by rewrite Nat.add_0_r.
  - apply linkage_okb_cons in Hok
      as (A & B & Ha & Hb & Hab & Hx & Hwit & Hsep & Hok).
    change (zip (seq idx (length ((a, b, w) :: slc))) ((a, b, w) :: slc))
      with ((idx, (a, b, w)) :: zip (seq (S idx) (length slc)) slc) in Hloop.
    rewrite oloop_cons in Hloop.
    destruct (encode_step _ _ _ _) as [[desc1 res1]|] eqn:Hstep; [|done].
    simpl in Hloop.
    eapply enc_inv_step in Hstep; [|done..].
    destruct (IH _ _ _ _ _ _ _ Hstep Hok Hloop) as (dk' & cl' & Hinv').
    exists dk', cl'. simpl. by rewrite Nat.add_succ_r.
Qed.

Lemma nodes0_lookup (n x : nat) (l : list nat) :
  nodes0 n !! x = Some (Some l) ↔ x < n ∧ l = [x].
Proof.
  unfold nodes0. destruct (decide (x < n)) as [Hx|Hx].
  - rewrite lookup_app_l by (by rewrite length_fmap, length_seq).
    rewrite list_lookup_fmap, lookup_seq_lt by done. simpl.
    split; [intros [= <-]; auto|]. by intros [_ ->].
  - rewrite lookup_app_r by (rewrite length_fmap, length_seq; lia).
    split; [|tauto]. intros H. apply lookup_replicate in H as [? _]. done.
Qed.

Lemma nodes0_live_count (n : nat) : live_count (nodes0 n) = n.
Proof.
  unfold live_count, nodes0. rewrite filter_app, length_app.
  assert (∀ l : list nat, length (filter (λ c, is_Some c)
            ((λ i, Some [i]) <$> l)) = length l) as H1.
  { induction l as [|i l IH]; [done|]. rewrite fmap_cons, filter_cons.
    case_decide as Hs; simpl; [by rewrite IH|]. exfalso. apply Hs. by eexists. }
  assert (∀ k, filter (λ c : option (list nat), is_Some c)
                      (replicate k None) = []) as H2.
  { induction k as [|k IH]; [done|]. simpl. rewrite filter_cons.
    case_decide as Hs; [|done]. by destruct Hs. }
  rewrite H1, H2, length_seq. simpl. lia.
Qed.

Lemma enc_inv_init (ids : list Z) (d : nat → nat → nat) (W : nat) :
  enc_inv ids d W 0 0 (nodes0 (length ids))
    (((λ m, Some [m]) <$> ids) ++ replicate (length ids - 1) None)
    ((λ x, replicate W x) <$> ids).
Proof.
  split.
  - by rewrite length_fmap.
  - intros p r Hr. rewrite list_lookup_fmap in Hr.
    destruct (ids !! p); simplify_eq/=. by rewrite length_replicate.
  - rewrite nodes0_live_count. lia.
  - intros x Hx Hlen. unfold nodes0 in *.
    rewrite lookup_app_r by (rewrite length_fmap, length_seq; lia).
    apply lookup_replicate_2.
    rewrite length_app, length_fmap, length_seq, length_replicate in Hlen.
    rewrite length_fmap, length_seq. lia.
  - intros x l p Hx Hp. apply nodes0_lookup in Hx as [Hx ->].
    apply list_elem_of_singleton in Hp as ->. done.
  - intros p Hp. exists p, [p]. split; [by apply nodes0_lookup|].
    by apply list_elem_of_singleton.
  - intros x y l l' p Hx Hy Hp Hp'.
    apply nodes0_lookup in Hx as [_ ->]. apply nodes0_lookup in Hy as [_ ->].
    apply list_elem_of_singleton in Hp, Hp'. congruence.
  - intros x l Hx. apply nodes0_lookup in Hx as [Hx ->].
    destruct (lookup_lt_is_Some_2 ids x Hx) as [z Hz].
    exists z, []. split_and!.
    + rewrite lookup_app_l by (by rewrite length_fmap).
      by rewrite list_lookup_fmap, Hz.
    + intros z' Hz'. by apply not_elem_of_nil in Hz'.
    + intros z'. rewrite list_elem_of_singleton. split.
      * intros ->. exists x. split; [by apply list_elem_of_singleton|done].
      * intros (p & Hp & Hz'). apply list_elem_of_singleton in Hp as ->.
        congruence.
  - intros x l p q Hx Hp Hq. apply nodes0_lookup in Hx as [_ ->].
    apply list_elem_of_singleton in Hp, Hq. subst. reflexivity.
  - intros. lia.
  - intros x l m zs p t Hx Hdesc Hp _ Ht.
    apply nodes0_lookup in Hx as [Hx ->].
    apply list_elem_of_singleton in Hp as ->.
    destruct (lookup_lt_is_Some_2 ids x Hx) as [z Hz].
    rewrite lookup_app_l in Hdesc by (by rewrite length_fmap).
    rewrite list_lookup_fmap, Hz in Hdesc. simplify_eq/=.
    unfold code. rewrite list_lookup_fmap, Hz. simpl.
    by apply lookup_replicate_2.
  - intros p t _ Ht. lia.
Qed.

(** After the encoding of a single-linkage dendrogram, the code of every
    row at every threshold is the least id among the profiles connected to
    it at that threshold. *)
Lemma encode_correct (mat : matrix) (d : nat → nat → nat) (W : nat)
    (slc : list merge_event) (res : matrix) :
  NoDup (column0 mat) →
  single_linkage_ok d (length mat) slc = true →
  encode mat slc ((λ x, replicate W x) <$> column0 mat) = Some res →
  length res = length mat ∧
  (∀ p r, res !! p = Some r → length r = W) ∧
  ∀ p t, p < length mat → S t < W →
    ∃ c, code res p t = Some c ∧
         is_min_id (column0 mat) (connected d (length mat) t) p c.
Proof.
  intros Hnd Hok Henc. unfold encode in Henc.
  apply fmap_Some in Henc as ([desc' res'] & Hloop & ->). simpl.
  apply andb_true_iff in Hok as [Hlen Hok]. apply Nat.eqb_eq in Hlen.
  rewrite <-(column0_length mat) in *.
  set (ids := column0 mat) in *.
  destruct (enc_inv_loop ids d W slc Hnd 0 0 _ _ _ _ _
              (enc_inv_init ids d W) Hok Hloop) as (dk & cl & []).
  split; [done|]. split; [done|].
  intros p t Hp Ht.
  destruct (decide (t < dk)) as [Hlt|Hge]; [by apply inv_lo0|].
  destruct (inv_cover0 p Hp) as (y & l & Hy & Hpl).
  destruct (inv_desc0 y l Hy) as (m & zs & Hdesc & Hmin & Hmem).
  exists m. split.
  { eapply (inv_hi0 y l); [done..|lia|done]. }
  split.
  - destruct (proj1 (Hmem m) ltac:(left)) as (q & Hq & Hidq).
    exists q. split; [|done].
    apply (connected_mono d (length ids) dk t); [lia|].
    by apply (inv_conn0 y l).
  - intros q z Hconn Hz.
    assert (q < length ids) as Hqn by by eapply connected_lt.
    destruct (inv_cover0 q Hqn) as (y' & l' & Hy' & Hql).
    assert (y' = y) as ->.
    { eapply live_count_one; [|done..]. simpl in inv_count0. lia. }
    simplify_eq.
    assert (z ∈ m :: zs) as Hzin by (apply Hmem; eauto).
    apply elem_of_cons in Hzin as [->|Hzin]; [done|]. by apply Hmin.
Qed.

(** ** [argmin] *)

Lemma argmin_from_spec (l pre : list nat) (bi bv : nat) :
  pre !! bi = Some bv →
  (∀ j x, pre !! j = Some x → bv ≤ x) →
  (∀ j x, j < bi → pre !! j = Some x → bv < x) →
  ∃ v, (pre ++ l) !! argmin_from l (length pre) bi bv = Some v ∧
       (∀ j x, (pre ++ l) !! j = Some x → v ≤ x) ∧
       (∀ j x, j < argmin_from l (length pre) bi bv →
               (pre ++ l) !! j = Some x → v < x).
Proof.
  revert pre bi bv. induction l as [|x l IH]; intros pre bi bv Hbi Hle Hlt.
  { simpl. rewrite app_nil_r. eauto. }
  simpl. rewrite (cons_middle x pre l), app_assoc.
  assert (S (length pre) = length (pre ++ [x])) as ->
    by (rewrite length_app; simpl; lia).
  destruct (Nat.ltb_spec x bv) as [Hx|Hx].
  - apply IH.
    + by rewrite lookup_app_r, Nat.sub_diag.
    + intros j y Hj. apply lookup_app_Some in Hj as [Hj|[_ Hj]].
      * specialize (Hle j y Hj). lia.
      * destruct (j - length pre); simplify_eq/=. lia.
    + intros j y Hjl Hj. rewrite lookup_app_l in Hj by done.
      specialize (Hle j y Hj). lia.
  - apply IH.
    + rewrite lookup_app_l; [done|]. by eapply lookup_lt_Some.
    + intros j y Hj. apply lookup_app_Some in Hj as [Hj|[_ Hj]]; [eauto|].
      destruct (j - length pre); simplify_eq/=. lia.
    + intros j y Hjl Hj.
      rewrite lookup_app_l in Hj; [eauto|].
      apply lookup_lt_Some in Hbi. lia.
Qed.

Lemma argmin_spec (l : list nat) (i : nat) :
  argmin l = Some i →
  ∃ v, l !! i = Some v ∧
       (∀ j x, l !! j = Some x → v ≤ x) ∧
       (∀ j x, j < i → l !! j = Some x → v < x).
Proof.
  destruct l as [|x l]; [done|]. intros [= <-].
  apply (argmin_from_spec l [x] 0 x); [done|..].
  - intros [|j] y Hj; simplify_eq/=. lia.
  - intros j y Hj. lia.
Qed.

(** ** The attachment pass after a full encoding *)

Lemma code_Some_width (res : matrix) (W p t : nat) (c : Z) :
  (∀ p r, res !! p = Some r → length r = W) →
  code res p t = Some c → p < length res ∧ S t < W.
Proof.
  intros Hw Hc. unfold code in Hc.
  destruct (res !! p) as [r|] eqn:Hr; [|done]. simpl in Hc.
  split; [by eapply lookup_lt_Some|].
  rewrite <-(Hw p r Hr). by eapply lookup_lt_Some.
Qed.

Lemma nearest_neighbour_same_code (ids : list Z) (d : nat → nat → nat)
    (W : nat) (res : matrix) (k i minD : nat) (dvec : list nat) (a b : Z) :
  (∀ p r, res !! p = Some r → length r = W) →
  (∀ p t, p < length res → S t < W →
     ∃ c, code res p t = Some c ∧
          is_min_id ids (connected d (length res) t) p c) →
  (∀ j x, j < k → dvec !! j = Some x → x = d k j) →
  argmin (take k dvec) = Some i → dvec !! i = Some minD →
  code res k minD = Some a → code res i minD = Some b →
  a = b.
Proof.
  intros Hw Hcodes Hd Harg Hmin Ha Hb.
  apply argmin_spec in Harg as (v & Hv & _).
  apply lookup_take_Some in Hv as [Hv Hik].
  assert (v = minD) as -> by congruence.
  assert (minD = d k i) as Hdki by eauto.
  destruct (code_Some_width res W k minD a Hw Ha) as [Hk Ht].
  destruct (code_Some_width res W i minD b Hw Hb) as [Hi _].
  destruct (Hcodes k minD Hk Ht) as (ck & Hck & Hmk).
  destruct (Hcodes i minD Hi Ht) as (ci & Hci & Hmi).
  assert (ck = a ∧ ci = b) as [-> ->] by (split; congruence).
  eapply is_min_id_unique; [|done..].
  apply connected_linked; [done..|lia].
Qed.

Lemma attach_full_noop (ids : list Z) (d : nat → nat → nat) (W : nat)
    (A : dmatrix) (res res' : matrix) :
  (∀ p r, res !! p = Some r → length r = W) →
  (∀ p t, p < length res → S t < W →
     ∃ c, code res p t = Some c ∧
          is_min_id ids (connected d (length res) t) p c) →
  (∀ k j x, j < k → dist_at A k j = Some x → x = d k j) →
  attach 0 A res = Some res' → res' = res.
Proof.
  intros Hw Hcodes HA. unfold attach.
  apply (oloop_inv (λ r, r = res)); [|done].
  intros ? [id dvec] res2 Hin -> Hstep.
  apply elem_of_enumerate, lookup_take_Some in Hin as [Hin _].
  unfold attach_step in Hstep. rewrite Nat.add_0_r in Hstep.
  destruct (0 <? id); [|by simplify_eq].
  destruct (argmin (take id dvec)) as [i|] eqn:Harg; [|done].
  simpl in Hstep.
  destruct (dvec !! i) as [minD|] eqn:HminD; [|done]. simpl in Hstep.
  destruct (res !! id) as [r|] eqn:Hr; [|done]. simpl in Hstep.
  destruct (res !! i) as [ri|] eqn:Hri; [|done]. simpl in Hstep.
  destruct (r !! (minD + 1)) as [a|] eqn:Ha; [|done]. simpl in Hstep.
  destruct (ri !! (minD + 1)) as [b|] eqn:Hb; [|done]. simpl in Hstep.
  assert (a = b) as ->.
  { eapply (nearest_neighbour_same_code ids d W res id i minD dvec);
      [exact Hw|exact Hcodes| |exact Harg|exact HminD| |].
    - intros j x Hj Hx. apply (HA id j x Hj). unfold dist_at.
      by rewrite Hin.
    - unfold code. rewrite Hr. simpl. by rewrite <-Nat.add_1_r.
    - unfold code. rewrite Hri. simpl. by rewrite <-Nat.add_1_r. }
  rewrite Z.ltb_irrefl in Hstep. by simplify_eq.
Qed.

(** ** Full runs *)

Lemma prepare_mat_rows_nonempty (t : table) (r : list Z) :
  r ∈ prepare_mat t → 1 ≤ length r.
Proof.
  unfold prepare_mat. intros Hr. apply list_elem_of_filter in Hr as [Hpos _].
  destruct r; simpl in *; lia.
Qed.

Lemma sorted_shape1 (t : table) :
  stable_sort_by absence (prepare_mat t) ≠ [] →
  1 ≤ shape1 (stable_sort_by absence (prepare_mat t)).
Proof.
  intros Hne. unfold shape1.
  destruct (stable_sort_by absence (prepare_mat t)) as [|r m] eqn:Hm; [done|].
  simpl. apply (prepare_mat_rows_nonempty t).
  rewrite <-(stable_sort_by_perm absence (prepare_mat t)), Hm. by left.
Qed.

Lemma full_run_encoded
    (getDistance : dist_mode → matrix → nat → dmatrix)
    (linkage : list nat → option (list merge_event))
    (t : table) (out : matrix) :
  let mat := stable_sort_by absence (prepare_mat t) in
  NoDup (column0 mat) →
  linkage_contract getDistance linkage mat →
  asyn_contract getDistance mat →
  hierCC getDistance linkage None t = Some out →
  ∃ res0 res1,
    init_res mat = Some res0 ∧
    full_clustering getDistance linkage mat 0 res0 = Some res1 ∧
    attach 0 (getDistance asyn_dist mat 0) res1 = Some res1 ∧
    out = set_column0 (column0 mat) res1 ∧
    length res1 = length mat ∧
    (∀ p r, res1 !! p = Some r → length r = shape1 mat + 1) ∧
    ∀ p th, p < length mat → th ≤ n_loci mat →
      ∃ c, code res1 p th = Some c ∧
           is_min_id (column0 mat)
             (connected (pair_distance getDistance mat) (length mat) th) p c.
Proof.
  intros mat Hnd Hlink Hasyn. unfold hierCC, hierCC_mat.
  rewrite order_profiles_full. fold mat. intros Hrun.
  destruct (init_res mat) as [res0|] eqn:Hinit; [|done]. simpl in Hrun.
  pose proof Hinit as Hinit'.
  apply init_res_pos in Hinit'; [|apply sorted_pos].
  destruct (full_clustering _ _ _ _ _) as [res1|] eqn:Hfull; [|done].
  simpl in Hrun.
  destruct (attach _ _ _) as [res2|] eqn:Hatt; [|done].
  simpl in Hrun. simplify_eq.
  pose proof Hfull as Hfull'.
  unfold full_clustering in Hfull'.
  destruct (add_transpose _) as [D|] eqn:HD; [|done]. simpl in Hfull'.
  destruct (squareform D) as [y|] eqn:Hy; [|done]. simpl in Hfull'.
  destruct (linkage y) as [slc|] eqn:Hslc; [|done]. simpl in Hfull'.
  specialize (Hlink D y slc HD Hy Hslc).
  assert (pair_distance getDistance mat = dfun D) as Hpd.
  { unfold pair_distance. by rewrite HD. }
  destruct (encode_correct mat (dfun D) (shape1 mat + 1) slc res1 Hnd Hlink Hfull')
    as (Hlen & Hw & Hcodes).
  assert (res2 = res1) as ->.
  { eapply (attach_full_noop (column0 mat) (dfun D) (shape1 mat + 1));
      [exact Hw| |by rewrite <-Hpd|exact Hatt].
    rewrite Hlen. done. }
  exists ((λ x, replicate (shape1 mat + 1) x) <$> column0 mat), res1.
  split_and!; try done.
  intros p th Hp Hth. rewrite Hpd. apply Hcodes; [done|].
  assert (1 ≤ shape1 mat).
  { apply sorted_shape1. fold mat. intros Hnil. rewrite Hnil in Hp.
    simpl in Hp. lia. }
  unfold n_loci in Hth. lia.
Qed.

(** C1, as the code has it, for profiles with unique ids. In a full run,
    the code of every profile at every threshold [t] up
    to the number of loci is the least id among the profiles connected to
    it at distance at most [t], and two profiles have the same code at [t]
    exactly when they are connected at [t]. Profiles are named by their
    row in the processing order; ids are unique; [linkage] returns a
    single-linkage dendrogram, and both distance queries agree. *)
Theorem full_run_single_linkage
    (getDistance : dist_mode → matrix → nat → dmatrix)
    (linkage : list nat → option (list merge_event))
    (t : table) (out : matrix) :
  let mat := stable_sort_by absence (prepare_mat t) in
  NoDup (column0 mat) →
  linkage_contract getDistance linkage mat →
  asyn_contract getDistance mat →
  hierCC getDistance linkage None t = Some out →
  ∀ p q th, p < length mat → q < length mat → th ≤ n_loci mat →
    (∃ c, code out p th = Some c ∧
          is_min_id (column0 mat)
            (connected (pair_distance getDistance mat) (length mat) th) p c) ∧
    (code out p th = code out q th ↔
     connected (pair_distance getDistance mat) (length mat) th p q).
Proof.
  intros mat Hnd Hlink Hasyn Hrun p q th Hp Hq Hth.
  destruct (full_run_encoded getDistance linkage t out Hnd Hlink Hasyn Hrun)
    as (res0 & res1 & _ & _ & _ & -> & Hlen & _ & Hcodes).
  rewrite !set_column0_code by (by rewrite column0_length).
  destruct (Hcodes p th Hp Hth) as (cp & Hcp & Hmp).
  destruct (Hcodes q th Hq Hth) as (cq & Hcq & Hmq).
  split; [eauto|]. rewrite Hcp, Hcq. split.
  - intros [= ->]. by eapply is_min_id_connected.
  - intros Hconn. f_equal. by eapply is_min_id_unique.
Qed.

(** C8, as the code has it, for profiles with unique ids. In a full run
    the attachment pass that follows the encoding changes
    nothing: every profile and its nearest earlier neighbour have the same
    code at the threshold of their distance (column [minD + 1]), so the
    comparison of line 113 never holds. *)
Theorem full_run_attach_no_op
    (getDistance : dist_mode → matrix → nat → dmatrix)
    (linkage : list nat → option (list merge_event))
    (t : table) (out : matrix) :
  let mat := stable_sort_by absence (prepare_mat t) in
  NoDup (column0 mat) →
  linkage_contract getDistance linkage mat →
  asyn_contract getDistance mat →
  hierCC getDistance linkage None t = Some out →
  ∃ res0 res1,
    init_res mat = Some res0 ∧
    full_clustering getDistance linkage mat 0 res0 = Some res1 ∧
    attach 0 (getDistance asyn_dist mat 0) res1 = Some res1 ∧
    ∀ k dvec i minD r ri a b,
      getDistance asyn_dist mat 0 !! k = Some dvec → 0 < k →
      argmin (take k dvec) = Some i → dvec !! i = Some minD →
      res1 !! k = Some r → res1 !! i = Some ri →
      r !! (minD + 1) = Some a → ri !! (minD + 1) = Some b →
      ¬ (b < a)%Z.
Proof.
  intros mat Hnd Hlink Hasyn Hrun.
  destruct (full_run_encoded getDistance linkage t out Hnd Hlink Hasyn Hrun)
    as (res0 & res1 & Hinit & Hfull & Hatt & -> & Hlen & Hw & Hcodes).
  fold mat in Hinit, Hfull, Hatt, Hlen, Hw, Hcodes.
  exists res0, res1. split_and!; [done..|].
  intros k dvec i minD r ri a b Hk Hpos Harg HminD Hr Hri Ha Hb.
  assert (a = b); [|lia].
  assert (S minD < shape1 mat + 1) as Ht.
  { rewrite <-(Hw k r Hr), <-Nat.add_1_r. by eapply lookup_lt_Some. }
  eapply (nearest_neighbour_same_code (column0 mat)
            (pair_distance getDistance mat) (shape1 mat + 1) res1 k i minD dvec);
    [exact Hw| | |exact Harg|exact HminD| |].
  - intros p th Hp Hth. rewrite Hlen in *. apply Hcodes; [done|].
    unfold n_loci. lia.
  - intros j x Hj Hx. apply (Hasyn k j x Hj). unfold dist_at. by rewrite Hk.
  - unfold code. rewrite Hr. simpl. by rewrite <-Nat.add_1_r.
  - unfold code. rewrite Hri. simpl. by rewrite <-Nat.add_1_r.
Qed.

(** ** One merge event *)

(** C4, as the code has it, for profiles with unique ids. Of the two merged
    nodes [c0] and [c1] the anchor is the one whose list of descendants
    starts with the smaller id, [c0] on a tie (the key of line 102), and the
    other one is absorbed. A merge event at distance [w] gives every leaf of
    the absorbed side the codes of the anchor leaf, the row of the least id
    of the anchor side, at the thresholds [t >= w] (the columns from
    [w + 1] on) and leaves its id and its codes at the thresholds [t < w]
    as they were; the rows of all other profiles are unchanged. *)
Theorem merge_event_overwrites (ids : list Z) (W : nat)
    (desc desc' : list (option (list Z))) (res res' : matrix)
    (idx c0 c1 w : nat) :
  NoDup ids →
  (∀ p r, res !! p = Some r → length r = W) →
  desc !! (idx + length ids) = Some None →
  encode_step (length ids) (index_of ids) (desc, res) (idx, (c0, c1, w))
    = Some (desc', res') →
  ∃ l0 l1 k0 k1 anchor absorbed min_id pa,
    desc !! c0 = Some (Some l0) ∧ desc !! c1 = Some (Some l1) ∧
    head l0 = Some k0 ∧ head l1 = Some k1 ∧
    (anchor, absorbed) = (if (k1 <? k0)%Z then (l1, l0) else (l0, l1)) ∧
    list_minZ anchor = Some min_id ∧ ids !! pa = Some min_id ∧
    desc' !! (idx + length ids) = Some (Some (anchor ++ absorbed)) ∧
    ∀ p z, ids !! p = Some z →
      (z ∈ absorbed →
         res' !! p ≫= (.!! 0) = res !! p ≫= (.!! 0) ∧
         ∀ t, (t < w → code res' p t = code res p t) ∧
              (w ≤ t → code res' p t = code res pa t)) ∧
      (z ∉ absorbed → res' !! p = res !! p).
Proof.
  intros Hnd Hw Hfresh Hstep.
  apply encode_step_inv in Hstep
    as (l0 & l1 & k0 & k1 & d0 & d1 & ld0 & ld1 & min_id & tgts
        & H0 & H1 & Hk0 & Hk1 & Hside & Hmin & Hxd & -> & Htgts & Hloop).
  assert (desc !! d0 = Some (Some ld0) ∧ desc !! d1 = Some (Some ld1) ∧
          head ld1 ≠ None ∧
          (ld0, ld1) = (if (k1 <? k0)%Z then (l1, l0) else (l0, l1)))
    as (Hd0 & Hd1 & Hne & Hsides).
  { destruct (k1 <? k0)%Z; simplify_eq; split_and!; auto; congruence. }
  assert (d1 ≠ idx + length ids) as Hd1x by congruence.
  rewrite list_lookup_insert_ne, Hd1 in Htgts by done. simplify_eq.
  destruct tgts as [|tgt rest]; [done|].
  assert (∃ pa ra, index_of ids !! min_id = Some pa ∧ res !! pa = Some ra)
    as (pa & ra & Hpa & Hra).
  { rewrite oloop_cons in Hloop.
    destruct (index_of ids !! tgt) as [it|]; [|done].
    destruct (index_of ids !! min_id) as [pa|]; [|done].
    simpl in Hloop.
    destruct (res !! it) as [rt|]; [|done]. simpl in Hloop.
    destruct (res !! pa) as [ra|] eqn:Hra; [|done]. eauto. }
  apply index_of_Some in Hpa.
  destruct (encode_rows_loop ids (w + 1) W min_id pa ra (tgt :: rest) res res')
    as (Hlen & Hw' & Hin & Hout & Hlt); [done..|].
  exists l0, l1, k0, k1, ld0, (tgt :: rest), min_id, pa. split_and!.
  - done.
  - done.
  - done.
  - done.
  - done.
  - done.
  - done.
  - by apply list_lookup_insert_eq.
  - intros p z Hp. split.
    + intros Hz.
      destruct (lookup_lt_is_Some_2 res p) as [r Hr]; [by eapply Hlt|].
      assert (length r = length ra) as Hrr.
      { by rewrite (Hw p r Hr), (Hw pa ra Hra). }
      unfold code. rewrite (Hin p z r Hp Hz Hr), Hr, Hra. simpl. split.
      * apply copy_from_lookup_lt'; [lia|done].
      * intros t. split; intros Ht.
        -- apply copy_from_lookup_lt'; [lia|done].
        -- apply copy_from_lookup_ge'; [lia|done].
    + intros Hz. apply Hout. intros z' Hz'. by simplify_eq.
Qed.

(** ** One step of the attachment *)

Lemma attach_step_spec (start : nat) (res res' : matrix) (id : nat)
    (dvec : list nat) :
  attach_step start res (id, dvec) = Some res' →
  (id + start = 0 → res' = res) ∧
  (0 < id + start →
   ∃ i minD a b,
     argmin (take (id + start) dvec) = Some i ∧
     i < id + start ∧ dvec !! i = Some minD ∧
     (∀ j x, j < id + start → dvec !! j = Some x → minD ≤ x) ∧
     (∀ j x, j < i → dvec !! j = Some x → minD < x) ∧
     code res (id + start) minD = Some a ∧ code res i minD = Some b ∧
     (∀ j, j ≠ id + start → res' !! j = res !! j) ∧
     res' !! (id + start) ≫= (.!! 0) = res !! (id + start) ≫= (.!! 0) ∧
     ((b < a)%Z →
        ∀ t, (t < minD → code res' (id + start) t = code res (id + start) t) ∧
             (minD ≤ t → code res' (id + start) t = code res i t)) ∧
     (¬ (b < a)%Z → res' = res)).
Proof.
  unfold attach_step. intros Hstep.
  destruct (Nat.ltb_spec 0 (id + start)) as [Hk|Hk].
  2:{ split; [by simplify_eq|lia]. }
  split; [lia|]. intros _.
  destruct (argmin (take (id + start) dvec)) as [i|] eqn:Harg; [|done].
  simpl in Hstep.
  destruct (dvec !! i) as [minD|] eqn:HminD; [|done]. simpl in Hstep.
  destruct (res !! (id + start)) as [r|] eqn:Hr; [|done]. simpl in Hstep.
  destruct (res !! i) as [ri|] eqn:Hri; [|done]. simpl in Hstep.
  destruct (r !! (minD + 1)) as [a|] eqn:Ha; [|done]. simpl in Hstep.
  destruct (ri !! (minD + 1)) as [b|] eqn:Hb; [|done]. simpl in Hstep.
  pose proof Harg as Hspec.
  apply argmin_spec in Hspec as (v & Hv & Hle & Hlt).
  apply lookup_take_Some in Hv as [Hv Hik].
  assert (v = minD) as -> by congruence.
  assert (minD + 1 ≤ length r) as Hlr.
  { apply lookup_lt_Some in Ha. lia. }
  exists i, minD, a, b. split_and!; try done.
  - intros j x Hj Hx. apply (Hle j x). by rewrite lookup_take_lt.
  - intros j x Hj Hx. apply (Hlt j x Hj). rewrite lookup_take_lt; [done|lia].
  - unfold code. rewrite Hr. simpl. by rewrite <-Nat.add_1_r.
  - unfold code. rewrite Hri. simpl. by rewrite <-Nat.add_1_r.
  - intros j Hj. destruct (b <? a)%Z; simplify_eq; [|done].
    by rewrite list_lookup_insert_ne.
  - destruct (b <? a)%Z; simplify_eq; [|by rewrite Hr].
    rewrite list_lookup_insert_eq by by eapply lookup_lt_Some.
    simpl. apply copy_from_lookup_lt; lia.
  - intros Hba. apply Z.ltb_lt in Hba. rewrite Hba in Hstep. simplify_eq.
    intros t. unfold code.
    rewrite list_lookup_insert_eq by by eapply lookup_lt_Some.
    rewrite Hr, Hri. simpl. split; intros Ht.
    + apply copy_from_lookup_lt; lia.
    + apply copy_from_lookup_ge; lia.
  - intros Hba. apply Z.ltb_nlt in Hba. rewrite Hba in Hstep. by simplify_eq.
Qed.

Lemma code_replicate (res : matrix) (k W t : nat) (x y : Z) :
  res !! k = Some (replicate W x) → code res k t = Some y → y = x ∧ S t < W.
Proof.
  unfold code. intros -> Hy. simpl in Hy.
  by apply lookup_replicate in Hy.
Qed.

Lemma code_replicate_2 (res : matrix) (k W t : nat) (x : Z) :
  res !! k = Some (replicate W x) → S t < W → code res k t = Some x.
Proof.
  unfold code. intros -> Ht. simpl. by apply lookup_replicate_2.
Qed.

(** C5, as the code has it. A new profile enters the attachment with its
    own id [x] in every column. At position 0 it stays so. At a later
    position, [i] is the first nearest neighbour among the earlier rows and
    [minD] its distance; when the neighbour's code [b] at threshold [minD]
    (column [minD + 1]) is smaller than [x], the profile takes the
    neighbour's codes at the thresholds [t >= minD] and keeps [x] below;
    otherwise its row stays as it is. No other row changes. *)
Theorem attach_new_profile (start : nat) (res res' : matrix) (id : nat)
    (dvec : list nat) (W : nat) (x : Z) :
  res !! (id + start) = Some (replicate W x) →
  attach_step start res (id, dvec) = Some res' →
  (∀ j, j ≠ id + start → res' !! j = res !! j) ∧
  (id + start = 0 → res' !! (id + start) = Some (replicate W x)) ∧
  (0 < id + start →
   ∃ i minD b,
     argmin (take (id + start) dvec) = Some i ∧
     i < id + start ∧ dvec !! i = Some minD ∧
     (∀ j y, j < id + start → dvec !! j = Some y → minD ≤ y) ∧
     (∀ j y, j < i → dvec !! j = Some y → minD < y) ∧
     code res i minD = Some b ∧
     ((b < x)%Z →
        ∀ t, (t < minD → code res' (id + start) t = Some x) ∧
             (minD ≤ t → code res' (id + start) t = code res i t)) ∧
     (¬ (b < x)%Z → res' !! (id + start) = Some (replicate W x))).
Proof.
  intros Hrow Hstep. apply attach_step_spec in Hstep as [H0 Hpos].
  destruct (decide (id + start = 0)) as [Hz|Hz].
  { rewrite (H0 Hz). split_and!; [done..|lia]. }
  destruct Hpos
    as (i & minD & a & b & Harg & Hi & HminD & Hle & Hlt & Ha & Hb & Hother
        & _ & Hyes & Hno); [lia|].
  apply (code_replicate _ _ _ _ _ _ Hrow) in Ha as [-> HtW].
  split_and!; [done|lia|]. intros _.
  exists i, minD, b. split_and!; try done.
  - intros Hba t. destruct (Hyes Hba t) as [Hlo Hhi]. split; [|done].
    intros Ht. rewrite Hlo by done. apply (code_replicate_2 _ _ W); [done|lia].
  - intros Hba. by rewrite (Hno Hba).
Qed.

(** ** Runs with [--append] *)

Lemma typed_of_Some (cls : matrix) (x : Z) (j : nat) :
  typed_of cls !! x = Some j → column0 cls !! j = Some x ∧ (0 < x)%Z.
Proof.
  unfold typed_of, dict_of. intros H.
  apply elem_of_list_to_map_2 in H. rewrite elem_of_reverse in H.
  apply list_elem_of_fmap in H as ([j' x'] & Heq & H). simpl in Heq.
  simplify_eq. apply list_elem_of_filter in H as [Hpos H].
  by apply elem_of_enumerate in H.
Qed.

Lemma typed_of_is_Some (cls : matrix) (x : Z) :
  x ∈ column0 cls → (0 < x)%Z → is_Some (typed_of cls !! x).
Proof.
  intros Hx Hpos. apply list_elem_of_lookup in Hx as [j Hj].
  apply not_eq_None_Some. unfold typed_of, dict_of.
  rewrite <-not_elem_of_list_to_map. intros Hnot. apply Hnot.
  rewrite fmap_reverse, elem_of_reverse.
  apply list_elem_of_fmap. exists (x, j). split; [done|].
  apply list_elem_of_fmap. exists (j, x). split; [done|].
  apply list_elem_of_filter. split; [done|]. by apply elem_of_enumerate.
Qed.

Lemma filter_split_perm {A : Type} (f : A → bool) (l : list A) :
  filter (λ x, f x = true) l ++ filter (λ x, f x = false) l ≡ₚ l.
Proof.
  induction l as [|x l IH]; [done|].
  rewrite !filter_cons. destruct (f x) eqn:Hf; repeat case_decide; try done.
  - simpl. by rewrite IH.
  - rewrite <-Permutation_middle. by rewrite IH.
Qed.

Lemma order_profiles_append (cls : matrix) (mat0 mat : matrix)
    (typed : gmap Z nat) (start : nat) :
  order_profiles (Some cls) mat0 = (mat, typed, start) →
  typed = typed_of cls ∧ mat ≡ₚ mat0 ∧
  (∀ k r, mat !! k = Some r → is_typed typed r = true → k < start) ∧
  (∀ k r, mat !! k = Some r → is_typed typed r = false → start ≤ k).
Proof.
  unfold order_profiles. destruct (Nat.ltb_spec 0 (size (typed_of cls))) as [Hs|Hs].
  - intros [= <- <- <-]. split_and!; [done|apply filter_split_perm|..].
    + intros k r Hk Ht. apply Nat.lt_nge. intros Hge.
      rewrite lookup_app_r in Hk by done.
      assert (r ∈ filter (λ r, is_typed (typed_of cls) r = false) mat0) as Hin.
      { apply list_elem_of_lookup. eauto. }
      apply list_elem_of_filter in Hin as [Hin _]. congruence.
    + intros k r Hk Ht. apply Nat.le_ngt. intros Hlt.
      rewrite lookup_app_l in Hk by done.
      assert (r ∈ filter (λ r, is_typed (typed_of cls) r = true) mat0) as Hin.
      { apply list_elem_of_lookup. eauto. }
      apply list_elem_of_filter in Hin as [Hin _]. congruence.
  - intros [= <- <- <-]. split_and!; [done..| |intros; lia].
    intros k r _ Ht. exfalso.
    assert (typed_of cls = ∅) as Hempty by (apply map_size_empty_inv; lia).
    unfold is_typed in Ht. rewrite Hempty, lookup_empty in Ht.
    apply bool_decide_eq_true in Ht. by destruct Ht.
Qed.

Lemma column0_filter (typed : gmap Z nat) (b : bool) (m : matrix) :
  column0 (filter (λ r, is_typed typed r = b) m)
  = filter (λ x, bool_decide (is_Some (typed !! x)) = b) (column0 m).
Proof.
  induction m as [|r m IH]; [done|].
  unfold column0 at 2. rewrite fmap_cons. fold (column0 m).
  rewrite !filter_cons. unfold is_typed at 1.
  destruct (decide (bool_decide (is_Some (typed !! default 0%Z (head r))) = b));
    [|done].
  unfold column0 at 1. rewrite fmap_cons. f_equal. apply IH.
Qed.

Lemma order_profiles_ids (cls : matrix) (m1 m2 : matrix) :
  column0 m1 = column0 m2 →
  column0 (order_profiles (Some cls) m1).1.1
    = column0 (order_profiles (Some cls) m2).1.1 ∧
  (order_profiles (Some cls) m1).2 = (order_profiles (Some cls) m2).2.
Proof.
  intros Hids. unfold order_profiles.
  destruct (0 <? size (typed_of cls)); simpl; [|done].
  unfold column0 at 1 2. rewrite !fmap_app. fold (column0).
  rewrite <-!(column0_length (filter _ _)), !column0_filter, Hids. done.
Qed.

Lemma seed_rows_lookup (cls : matrix) (typed : gmap Z nat) (W : nat)
    (ids : list Z) (res1 : matrix) (k : nat) (x : Z) :
  mapM (seed_row cls typed) ((λ x, replicate (W + 1) x) <$> ids) = Some res1 →
  ids !! k = Some x →
  length res1 = length ids ∧
  ∃ r, res1 !! k = Some r ∧
    match typed !! x with
    | Some j => ∃ v, cls !! j = Some v ∧ assign_row (replicate (W + 1) x) v = Some r
    | None => r = replicate (W + 1) x
    end.
Proof.
  intros Hm Hk. apply mapM_Some_1 in Hm.
  pose proof (Forall2_length _ _ _ Hm) as Hlen. rewrite length_fmap in Hlen.
  split; [done|].
  destruct (Forall2_lookup_l _ _ _ k (replicate (W + 1) x) Hm) as (r & Hr & Hseed).
  { by rewrite list_lookup_fmap, Hk. }
  exists r. split; [done|]. unfold seed_row in Hseed.
  rewrite Nat.add_1_r in Hseed. simpl in Hseed. rewrite Nat.add_1_r.
  destruct (typed !! x) as [j|]; [|by simplify_eq].
  destruct (cls !! j) as [v|]; [|done]. eauto.
Qed.

Lemma attach_step_length (start : nat) (res res' : matrix)
    (idd : nat * list nat) :
  attach_step start res idd = Some res' → length res' = length res.
Proof.
  destruct idd as [id d]. unfold attach_step.
  destruct (0 <? id + start); [|by intros [= <-]].
  intros Hstep. simplify_option_eq.
  destruct (_ <? _)%Z; simplify_eq; [|done].
  by rewrite length_insert.
Qed.

Lemma attach_rows_fixed (start : nat) (A : dmatrix) (res res' : matrix) :
  attach start A res = Some res' →
  length res' = length res ∧
  ∀ k, k < start ∨ k = 0 → res' !! k = res !! k.
Proof.
  unfold attach.
  apply (oloop_inv (λ r, length r = length res ∧
                         ∀ k, k < start ∨ k = 0 → r !! k = res !! k)); [|done].
  intros r [id dvec] r' _ [Hlen Hfix] Hstep.
  split; [by rewrite (attach_step_length _ _ _ _ Hstep)|].
  apply attach_step_spec in Hstep as [H0 Hpos].
  destruct (decide (id + start = 0)) as [Hz|Hz].
  { by rewrite (H0 Hz). }
  destruct Hpos as (i & minD & a & b & _ & _ & _ & _ & _ & _ & _ & Hother & _);
    [lia|].
  intros k Hk. rewrite Hother by lia. by apply Hfix.
Qed.

Lemma append_run_stages
    (getDistance : dist_mode → matrix → nat → dmatrix)
    (linkage : list nat → option (list merge_event))
    (cls mat0 out : matrix) :
  Forall (λ x, (0 < x)%Z) (column0 mat0) →
  hierCC_mat getDistance linkage (Some cls) mat0 = Some out →
  ∃ mat start res1 res2,
    order_profiles (Some cls) mat0 = (mat, typed_of cls, start) ∧
    Forall (λ x, (0 < x)%Z) (column0 mat) ∧
    mapM (seed_row cls (typed_of cls))
         ((λ x, replicate (shape1 mat + 1) x) <$> column0 mat) = Some res1 ∧
    attach start (getDistance asyn_dist mat start) res1 = Some res2 ∧
    length res2 = length mat ∧
    out = set_column0 (column0 mat) res2.
Proof.
  intros Hpos. unfold hierCC_mat.
  destruct (order_profiles (Some cls) mat0) as [[mat typed] start] eqn:Ho.
  destruct (order_profiles_append cls mat0 mat typed start Ho)
    as (-> & Hperm & _ & _).
  assert (Forall (λ x, (0 < x)%Z) (column0 mat)) as Hpos'.
  { by rewrite (column0_perm _ _ Hperm). }
  intros Hrun.
  destruct (init_res mat) as [res0|] eqn:Hinit; [|done]. simpl in Hrun.
  apply init_res_pos in Hinit; [|done]. subst res0.
  destruct (mapM _ _) as [res1|] eqn:Hseed; [|done]. simpl in Hrun.
  destruct (attach _ _ _) as [res2|] eqn:Hatt; [|done]. simpl in Hrun.
  simplify_eq. exists mat, start, res1, res2. split_and!; try done.
  destruct (attach_rows_fixed _ _ _ _ Hatt) as [-> _].
  apply mapM_Some_1, Forall2_length in Hseed.
  by rewrite <-Hseed, length_fmap, column0_length.
Qed.

Lemma assign_row_wide (r v r' : list Z) :
  2 ≤ length v → assign_row r v = Some r' → r' = v ∧ length v = length r.
Proof.
  unfold assign_row. intros Hv.
  destruct (Nat.eqb_spec (length v) (length r)) as [Heq|Hne].
  - by intros [= <-].
  - destruct v as [|? [|? ?]]; simpl in *; try done; lia.
Qed.

(** The output row of a profile whose id is a key of [typed] is the row of
    the snapshot that [typed] points to. *)
Lemma append_typed_row
    (getDistance : dist_mode → matrix → nat → dmatrix)
    (linkage : list nat → option (list merge_event))
    (cls mat0 out : matrix) (k : nat) (x : Z) (j : nat) :
  Forall (λ x, (0 < x)%Z) (column0 mat0) →
  (∀ v, v ∈ cls → 2 ≤ length v) →
  hierCC_mat getDistance linkage (Some cls) mat0 = Some out →
  column0 (order_profiles (Some cls) mat0).1.1 !! k = Some x →
  typed_of cls !! x = Some j →
  ∃ v, cls !! j = Some v ∧ out !! k = Some v ∧ head v = Some x.
Proof.
  intros Hpos Hcls Hrun Hk Hj.
  destruct (append_run_stages _ _ _ _ _ Hpos Hrun)
    as (mat & start & res1 & res2 & Ho & Hpos' & Hseed & Hatt & Hlen & ->).
  rewrite Ho in Hk. simpl in Hk.
  destruct (order_profiles_append _ _ _ _ _ Ho) as (_ & _ & Htyped & _).
  destruct (seed_rows_lookup _ _ _ _ _ k x Hseed Hk) as (_ & r & Hr & Hrow).
  rewrite Hj in Hrow. destruct Hrow as (v & Hv & Hassign).
  assert (v ∈ cls) as Hvin by (apply list_elem_of_lookup; eauto).
  apply assign_row_wide in Hassign as [-> Hvlen]; [|by apply Hcls].
  assert (k < start) as Hks.
  { unfold column0 in Hk. rewrite list_lookup_fmap in Hk.
    destruct (mat !! k) as [prof|] eqn:Hprof; [|done]. simpl in Hk.
    apply (Htyped k prof Hprof). unfold is_typed.
    apply bool_decide_eq_true. simplify_eq. by eexists. }
  destruct (attach_rows_fixed _ _ _ _ Hatt) as [_ Hfix].
  assert (head v = Some x) as Hhead.
  { apply typed_of_Some in Hj as [Hj _]. unfold column0 in Hj.
    rewrite list_lookup_fmap, Hv in Hj. simpl in Hj.
    specialize (Hcls v Hvin). destruct v; simpl in *; [lia|congruence]. }
  exists v. split_and!; [done| |done].
  rewrite set_column0_lookup, Hk, Hfix, Hr by auto. simpl. f_equal.
  apply list_insert_id. by rewrite <-head_lookup.
Qed.

Lemma append_out_ids
    (getDistance : dist_mode → matrix → nat → dmatrix)
    (linkage : list nat → option (list merge_event))
    (cls mat0 out : matrix) (k : nat) (r : list Z) (x : Z) :
  Forall (λ x, (0 < x)%Z) (column0 mat0) →
  hierCC_mat getDistance linkage (Some cls) mat0 = Some out →
  out !! k = Some r → head r = Some x →
  column0 (order_profiles (Some cls) mat0).1.1 !! k = Some x ∧ (0 < x)%Z.
Proof.
  intros Hpos Hrun Hr Hx.
  destruct (append_run_stages _ _ _ _ _ Hpos Hrun)
    as (mat & start & res1 & res2 & Ho & Hpos' & Hseed & Hatt & Hlen & ->).
  rewrite Ho. simpl. rewrite set_column0_lookup in Hr.
  destruct (column0 mat !! k) as [x'|] eqn:Hk; [|done]. simpl in Hr.
  destruct (res2 !! k) as [r2|]; [|done]. simplify_eq/=.
  assert (x' = x) as ->.
  { destruct r2; simpl in *; congruence. }
  split; [done|]. by eapply Forall_lookup_1 in Hpos'.
Qed.

(** C6. A run with [--append] leaves the row of a typed profile as it is in
    the snapshot: every output row whose id occurs in the snapshot is the
    snapshot row that [typed] records for this id. The snapshot has the id
    column and at least one code column. *)
Theorem append_keeps_typed_rows
    (getDistance : dist_mode → matrix → nat → dmatrix)
    (linkage : list nat → option (list merge_event))
    (cls : matrix) (t : table) (out : matrix) :
  (∀ v, v ∈ cls → 2 ≤ length v) →
  hierCC getDistance linkage (Some cls) t = Some out →
  ∀ k r x, out !! k = Some r → head r = Some x → x ∈ column0 cls →
    ∃ j, typed_of cls !! x = Some j ∧ cls !! j = Some r.
Proof.
  intros Hcls Hrun k r x Hr Hx Hin. unfold hierCC in Hrun.
  pose proof (prepare_mat_pos t) as Hpos.
  destruct (append_out_ids _ _ _ _ _ k r x Hpos Hrun Hr Hx) as [Hk Hxpos].
  destruct (typed_of_is_Some cls x Hin Hxpos) as [j Hj].
  destruct (append_typed_row _ _ _ _ _ k x j Hpos Hcls Hrun Hk Hj)
    as (v & Hv & Hout & _).
  exists j. split; [done|]. congruence.
Qed.

(** C9. In a run with [--append] the row of a typed profile comes from the
    snapshot alone: a second run on a profile file with the same ids in the
    same order, whatever its allele calls and whatever the distances and
    the dendrogram computed from them, gives this profile the same row. *)
Theorem append_ignores_alleles_of_typed
    (getDistance1 getDistance2 : dist_mode → matrix → nat → dmatrix)
    (linkage1 linkage2 : list nat → option (list merge_event))
    (cls : matrix) (t1 t2 : table) (out1 out2 : matrix) :
  (∀ v, v ∈ cls → 2 ≤ length v) →
  column0 (prepare_mat t1) = column0 (prepare_mat t2) →
  hierCC getDistance1 linkage1 (Some cls) t1 = Some out1 →
  hierCC getDistance2 linkage2 (Some cls) t2 = Some out2 →
  ∀ k r x, out1 !! k = Some r → head r = Some x → x ∈ column0 cls →
    out2 !! k = Some r ∧
    ∃ j, typed_of cls !! x = Some j ∧ cls !! j = Some r.
Proof.
  intros Hcls Hids Hrun1 Hrun2 k r x Hr Hx Hin. unfold hierCC in *.
  pose proof (prepare_mat_pos t1) as Hpos1.
  pose proof (prepare_mat_pos t2) as Hpos2.
  destruct (append_out_ids _ _ _ _ _ k r x Hpos1 Hrun1 Hr Hx) as [Hk Hxpos].
  destruct (typed_of_is_Some cls x Hin Hxpos) as [j Hj].
  destruct (append_typed_row _ _ _ _ _ k x j Hpos1 Hcls Hrun1 Hk Hj)
    as (v & Hv & Hout & _).
  assert (v = r) as -> by congruence.
  destruct (order_profiles_ids cls _ _ Hids) as [Hsame _].
  rewrite Hsame in Hk.
  destruct (append_typed_row _ _ _ _ _ k x j Hpos2 Hcls Hrun2 Hk Hj)
    as (v' & Hv' & Hout' & _).
  assert (v' = r) as -> by congruence. eauto.
Qed.

(** ** Nested partitions *)

Lemma oloop_indexed {St A : Type} (P : nat → St → Prop)
    (body : St → nat * A → option St) (l : list A) :
  (∀ i x s s', l !! i = Some x → P i s → body s (i, x) = Some s' →
               P (S i) s') →
  ∀ s s', P 0 s → oloop body s (enumerate l) = Some s' → P (length l) s'.
Proof.
  unfold enumerate. intros Hstep.
  assert (∀ l2 l1 s s', l = l1 ++ l2 → P (length l1) s →
            oloop body s (zip (seq (length l1) (length l2)) l2) = Some s' →
            P (length l) s') as Hgen.
  { induction l2 as [|x l2 IH]; intros l1 s s' -> Hs Hloop.
    - cbv [length seq zip zip_with oloop] in Hloop. simplify_eq.
      by rewrite app_nil_r.
    - change (zip (seq (length l1) (length (x :: l2))) (x :: l2))
        with ((length l1, x) :: zip (seq (S (length l1)) (length l2)) l2)
        in Hloop.
      rewrite oloop_cons in Hloop.
      destruct (body s (length l1, x)) as [s1|] eqn:Hb; [|done].
      simpl in Hloop.
      apply (IH (l1 ++ [x]) s1 s').
      + by rewrite <-app_assoc.
      + rewrite length_app, Nat.add_1_r. eapply Hstep; [|done..].
        by rewrite lookup_app_r, Nat.sub_diag.
      + by rewrite length_app, Nat.add_1_r. }
  intros s s' Hs Hloop. by apply (Hgen l [] s s').
Qed.

Lemma att_inv_step (ids : list Z) (W start id : nat) (dvec : list nat)
    (res res' : matrix) :
  NoDup ids →
  att_inv ids W (id + start) res →
  attach_step start res (id, dvec) = Some res' →
  att_inv ids W (S (id + start)) res'.
Proof.
  intros Hnd [Hlen Hnest Hfresh Htodo] Hstep.
  pose proof (attach_step_length _ _ _ _ Hstep) as Hlen'.
  apply attach_step_spec in Hstep as [H0 Hpos].
  set (k := id + start) in *.
  assert (∀ y t, k < length ids → ids !! k = Some y →
            ∀ c, code res k t = Some c → c = y) as Hown.
  { intros y t _ Hy c Hc.
    by destruct (code_replicate res k W t y c (Htodo k y ltac:(lia) Hy) Hc). }
  (* the row of [k] does not change, or takes the codes of an earlier row
     from some threshold on *)
  assert ((∀ j, j ≠ k → res' !! j = res !! j) ∧
          (res' !! k = res !! k ∨
           ∃ i minD, i < k ∧
             ∀ t, (t < minD → code res' k t = code res k t) ∧
                  (minD ≤ t → code res' k t = code res i t)))
    as [Hother Hrow].
  { destruct (decide (k = 0)) as [Hz|Hz].
    { rewrite (H0 Hz). auto. }
    destruct Hpos as (i & minD & a & b & _ & Hi & _ & _ & _ & _ & _ & Hoth
                      & _ & Hyes & Hno); [lia|].
    split; [done|].
    destruct (decide (b < a)%Z) as [Hba|Hba].
    - right. exists i, minD. split; [done|]. by apply Hyes.
    - left. by rewrite (Hno Hba). }
  assert (∀ j t, j ≠ k → code res' j t = code res j t) as Hcode.
  { intros j t Hj. unfold code. by rewrite Hother. }
  split.
  - lia.
  - intros i j t1 t2 a Hi Hj Ht HtW Hci Hcj.
    destruct (decide (i = k)) as [->|Hik]; destruct (decide (j = k)) as [->|Hjk];
      [done|..].
    + (* the new row against an earlier row *)
      rewrite (Hcode j) in * by done.
      destruct (lookup_lt_is_Some_2 ids k) as [y Hy].
      { rewrite <-Hlen, <-Hlen'. unfold code in Hci.
        destruct (res' !! k) eqn:E; [by eapply lookup_lt_Some|done]. }
      destruct Hrow as [Hrow|(n & minD & Hn & Hrow)].
      * exfalso. unfold code in Hci. rewrite Hrow in Hci.
        assert (a = y) as -> by by eapply (Hown y t1); [apply lookup_lt_Some in Hy|..].
        by apply (Hfresh j t1 k y ltac:(lia) ltac:(lia) Hy).
      * destruct (decide (t1 < minD)) as [Hlt|Hge].
        -- exfalso. rewrite (proj1 (Hrow t1) Hlt) in Hci.
           assert (a = y) as -> by by eapply (Hown y t1); [apply lookup_lt_Some in Hy|..].
           by apply (Hfresh j t1 k y ltac:(lia) ltac:(lia) Hy).
        -- rewrite (proj2 (Hrow t1)) in Hci by lia.
           rewrite (proj2 (Hrow t2)) by lia.
           apply (Hnest n j t1 t2 a); [lia..|done|done].
    + (* an earlier row against the new row *)
      rewrite (Hcode i) in * by done.
      destruct (lookup_lt_is_Some_2 ids k) as [y Hy].
      { rewrite <-Hlen, <-Hlen'. unfold code in Hcj.
        destruct (res' !! k) eqn:E; [by eapply lookup_lt_Some|done]. }
      destruct Hrow as [Hrow|(n & minD & Hn & Hrow)].
      * exfalso. unfold code in Hcj. rewrite Hrow in Hcj.
        assert (a = y) as -> by by eapply (Hown y t1); [apply lookup_lt_Some in Hy|..].
        by apply (Hfresh i t1 k y ltac:(lia) ltac:(lia) Hy).
      * destruct (decide (t1 < minD)) as [Hlt|Hge].
        -- exfalso. rewrite (proj1 (Hrow t1) Hlt) in Hcj.
           assert (a = y) as -> by by eapply (Hown y t1); [apply lookup_lt_Some in Hy|..].
           by apply (Hfresh i t1 k y ltac:(lia) ltac:(lia) Hy).
        -- rewrite (proj2 (Hrow t1)) in Hcj by lia.
           rewrite (proj2 (Hrow t2)) by lia.
           apply (Hnest i n t1 t2 a); [lia..|done|done].
    + rewrite !Hcode in * by done. apply (Hnest i j t1 t2 a); [lia..|done|done].
  - intros i t j x Hi Hj Hx Hc.
    destruct (decide (i = k)) as [->|Hik].
    + destruct (lookup_lt_is_Some_2 ids k) as [y Hy].
      { apply lookup_lt_Some in Hx. lia. }
      assert (x ≠ y) as Hxy.
      { intros ->. assert (j = k) by by eapply NoDup_lookup. lia. }
      destruct Hrow as [Hrow|(n & minD & Hn & Hrow)].
      * unfold code in Hc. rewrite Hrow in Hc.
        apply Hxy. by eapply (Hown y t); [apply lookup_lt_Some in Hy|..].
      * destruct (decide (t < minD)) as [Hlt|Hge].
        -- rewrite (proj1 (Hrow t) Hlt) in Hc.
           apply Hxy. by eapply (Hown y t); [apply lookup_lt_Some in Hy|..].
        -- rewrite (proj2 (Hrow t)) in Hc by lia.
           by apply (Hfresh n t j x ltac:(lia) ltac:(lia) Hx).
    + rewrite Hcode in Hc by done.
      by apply (Hfresh i t j x ltac:(lia) ltac:(lia) Hx).
  - intros j x Hj Hx. rewrite Hother by lia. apply Htodo; [lia|done].
Qed.

Lemma att_inv_nested (ids : list Z) (W k : nat) (res : matrix) :
  NoDup ids → att_inv ids W k res →
  ∀ i j t1 t2 a, t1 < t2 → S t2 < W →
    code res i t1 = Some a → code res j t1 = Some a →
    code res i t2 = code res j t2.
Proof.
  intros Hnd [Hlen Hnest Hfresh Htodo] i j t1 t2 a Ht HtW Hci Hcj.
  assert (i < length ids ∧ j < length ids) as [Hi Hj].
  { rewrite <-Hlen. unfold code in *.
    destruct (res !! i) eqn:E1; [|done]. destruct (res !! j) eqn:E2; [|done].
    split; by eapply lookup_lt_Some. }
  destruct (lookup_lt_is_Some_2 ids i Hi) as [xi Hxi].
  destruct (lookup_lt_is_Some_2 ids j Hj) as [xj Hxj].
  destruct (decide (i < k)) as [Hik|Hik]; destruct (decide (j < k)) as [Hjk|Hjk].
  - by apply (Hnest i j t1 t2 a).
  - exfalso.
    pose proof (Htodo j xj ltac:(lia) Hxj) as Hrow.
    apply (code_replicate _ _ _ _ _ _ Hrow) in Hcj as [-> _].
    by apply (Hfresh i t1 j xj ltac:(lia) ltac:(lia) Hxj).
  - exfalso.
    pose proof (Htodo i xi ltac:(lia) Hxi) as Hrow.
    apply (code_replicate _ _ _ _ _ _ Hrow) in Hci as [-> _].
    by apply (Hfresh j t1 i xi ltac:(lia) ltac:(lia) Hxi).
  - pose proof (Htodo i xi ltac:(lia) Hxi) as Hrowi.
    pose proof (Htodo j xj ltac:(lia) Hxj) as Hrowj.
    apply (code_replicate _ _ _ _ _ _ Hrowi) in Hci as [-> _].
    apply (code_replicate _ _ _ _ _ _ Hrowj) in Hcj as [Heq _].
    rewrite (code_replicate_2 _ _ W t2 xi Hrowi HtW).
    rewrite (code_replicate_2 _ _ W t2 xj Hrowj HtW). by rewrite Heq.
Qed.

Lemma typed_iff_before (cls : matrix) (mat0 mat : matrix) (start k : nat)
    (x : Z) :
  order_profiles (Some cls) mat0 = (mat, typed_of cls, start) →
  column0 mat !! k = Some x →
  k < start ↔ is_Some (typed_of cls !! x).
Proof.
  intros Ho Hk.
  destruct (order_profiles_append _ _ _ _ _ Ho) as (_ & _ & Hyes & Hno).
  unfold column0 in Hk. rewrite list_lookup_fmap in Hk.
  destruct (mat !! k) as [prof|] eqn:Hprof; [|done]. simplify_eq/=.
  specialize (Hyes k prof Hprof). specialize (Hno k prof Hprof).
  unfold is_typed in *.
  destruct (bool_decide (is_Some (typed_of cls !! default 0%Z (head prof))))
    eqn:Hb.
  - apply bool_decide_eq_true in Hb. split; auto.
  - apply bool_decide_eq_false in Hb. split; [|done].
    intros Hlt. specialize (Hno eq_refl). lia.
Qed.

Lemma att_inv_seed (cls mat0 mat res1 : matrix) (start : nat) :
  order_profiles (Some cls) mat0 = (mat, typed_of cls, start) →
  (∀ v, v ∈ cls → 2 ≤ length v) →
  nested (n_loci mat) cls →
  fresh_ids cls (column0 mat) →
  mapM (seed_row cls (typed_of cls))
       ((λ x, replicate (shape1 mat + 1) x) <$> column0 mat) = Some res1 →
  att_inv (column0 mat) (shape1 mat + 1) start res1.
Proof.
  intros Ho Hcls Hnest Hfresh Hseed.
  assert (length res1 = length (column0 mat)) as Hlen.
  { apply mapM_Some_1, Forall2_length in Hseed.
    by rewrite <-Hseed, length_fmap. }
  (* a row before [start] is a row of the snapshot *)
  assert (∀ i, i < start → i < length res1 →
            ∃ ji v, cls !! ji = Some v ∧ res1 !! i = Some v) as Hbefore.
  { intros i Hi Hil. rewrite Hlen in Hil.
    destruct (lookup_lt_is_Some_2 _ i Hil) as [x Hx].
    destruct (seed_rows_lookup _ _ _ _ _ i x Hseed Hx) as (_ & r & Hr & Hrow).
    apply (typed_iff_before _ _ _ _ _ _ Ho Hx) in Hi as [ji Hji].
    rewrite Hji in Hrow. destruct Hrow as (v & Hv & Hassign).
    apply assign_row_wide in Hassign as [-> _].
    - eauto.
    - apply Hcls, list_elem_of_lookup. eauto. }
  assert (∀ i t c, code res1 i t = Some c → i < length res1) as Hlt.
  { intros i t c Hc. unfold code in Hc.
    destruct (res1 !! i) eqn:E; [by eapply lookup_lt_Some|done]. }
  split.
  - done.
  - intros i j t1 t2 a Hi Hj Ht HtW Hci Hcj.
    destruct (Hbefore i Hi (Hlt _ _ _ Hci)) as (ji & vi & Hvi & Hri).
    destruct (Hbefore j Hj (Hlt _ _ _ Hcj)) as (jj & vj & Hvj & Hrj).
    unfold code in *. rewrite Hri in *. rewrite Hrj in *. simpl in *.
    specialize (Hnest ji jj t1 t2 a Ht). unfold code in Hnest.
    rewrite Hvi, Hvj in Hnest. simpl in Hnest.
    apply Hnest; [|done..]. unfold n_loci. lia.
  - intros i t j x Hi Hj Hx Hc.
    destruct (Hbefore i Hi (Hlt _ _ _ Hc)) as (ji & vi & Hvi & Hri).
    unfold code in Hc. rewrite Hri in Hc. simpl in Hc.
    apply (Hfresh x vi).
    + apply list_elem_of_lookup. eauto.
    + destruct (typed_of cls !! x) eqn:Ht; [|done].
      assert (j < start); [|lia].
      apply (typed_iff_before _ _ _ _ _ _ Ho Hx). by eexists.
    + apply list_elem_of_lookup. eauto.
    + apply list_elem_of_lookup. eauto.
  - intros j x Hj Hx.
    destruct (seed_rows_lookup _ _ _ _ _ j x Hseed Hx) as (_ & r & Hr & Hrow).
    destruct (typed_of cls !! x) eqn:Ht.
    + assert (j < start); [|lia].
      apply (typed_iff_before _ _ _ _ _ _ Ho Hx). by eexists.
    + by subst.
Qed.

Lemma append_run_nested
    (getDistance : dist_mode → matrix → nat → dmatrix)
    (linkage : list nat → option (list merge_event))
    (cls mat0 out : matrix) :
  let mat := (order_profiles (Some cls) mat0).1.1 in
  Forall (λ x, (0 < x)%Z) (column0 mat0) →
  NoDup (column0 mat0) →
  (∀ v, v ∈ cls → 2 ≤ length v) →
  nested (n_loci mat) cls →
  fresh_ids cls (column0 mat) →
  hierCC_mat getDistance linkage (Some cls) mat0 = Some out →
  nested (n_loci mat) out.
Proof.
  intros mat Hpos Hnd Hcls Hnest Hfresh Hrun.
  destruct (append_run_stages _ _ _ _ _ Hpos Hrun)
    as (mat' & start & res1 & res2 & Ho & _ & Hseed & Hatt & Hlen & ->).
  assert (mat = mat') as Hmat by (unfold mat; by rewrite Ho).
  clearbody mat. subst mat'.
  destruct (order_profiles_append _ _ _ _ _ Ho) as (_ & Hperm & _ & _).
  assert (NoDup (column0 mat)) as Hnd'.
  { by rewrite (column0_perm _ _ Hperm). }
  pose proof (att_inv_seed _ _ _ _ _ Ho Hcls Hnest Hfresh Hseed) as Hinv.
  unfold attach in Hatt.
  apply (oloop_indexed
           (λ i r, att_inv (column0 mat) (shape1 mat + 1) (i + start) r))
    in Hatt; [|by intros; eapply att_inv_step|done].
  intros i j t1 t2 a Ht HtL.
  rewrite !set_column0_code by (by rewrite column0_length).
  apply (att_inv_nested _ _ _ _ Hnd' Hatt); [done|].
  unfold n_loci in HtL. lia.
Qed.

Lemma full_run_nested
    (getDistance : dist_mode → matrix → nat → dmatrix)
    (linkage : list nat → option (list merge_event))
    (t : table) (out : matrix) :
  let mat := stable_sort_by absence (prepare_mat t) in
  NoDup (column0 mat) →
  linkage_contract getDistance linkage mat →
  asyn_contract getDistance mat →
  hierCC getDistance linkage None t = Some out →
  nested (n_loci mat) out.
Proof.
  intros mat Hnd Hlink Hasyn Hrun.
  destruct (full_run_encoded getDistance linkage t out Hnd Hlink Hasyn Hrun)
    as (res0 & res1 & _ & _ & _ & -> & Hlen & Hw & Hcodes).
  fold mat in Hlen, Hw, Hcodes.
  intros i j t1 t2 a Ht HtL.
  rewrite !set_column0_code by (by rewrite column0_length).
  intros Hci Hcj.
  assert (i < length mat ∧ j < length mat) as [Hi Hj].
  { rewrite <-Hlen. unfold code in *.
    destruct (res1 !! i) eqn:E1; [|done]. destruct (res1 !! j) eqn:E2; [|done].
    split; by eapply lookup_lt_Some. }
  destruct (Hcodes i t1 Hi ltac:(lia)) as (c1 & Hc1 & Hm1).
  destruct (Hcodes j t1 Hj ltac:(lia)) as (c1' & Hc1' & Hm1').
  destruct (Hcodes i t2 Hi HtL) as (c2 & Hc2 & Hm2).
  destruct (Hcodes j t2 Hj HtL) as (c2' & Hc2' & Hm2').
  assert (c1 = a ∧ c1' = a) as [-> ->] by (split; congruence).
  rewrite Hc2, Hc2'. f_equal.
  eapply is_min_id_unique; [|done..].
  apply (connected_mono _ _ t1 t2); [lia|].
  by eapply is_min_id_connected.
Qed.


(** ** The least id of a component, computed *)

Lemma neighbours_spec (d : nat → nat → nat) (n t : nat) (S : list nat)
    (b : nat) :
  b ∈ neighbours d n t S ↔
  b < n ∧ ∃ a, a ∈ S ∧ (d a b ≤ t ∨ d b a ≤ t).
Proof.
  unfold neighbours. rewrite list_elem_of_filter, elem_of_seq, existsb_exists.
  split.
  - intros [(a & Ha & Hd) Hb]. split; [lia|]. exists a.
    split; [by apply list_elem_of_In|].
    apply orb_true_iff in Hd as [Hd|Hd]; apply Nat.leb_le in Hd; auto.
  - intros [Hb (a & Ha & Hd)]. split; [|lia]. exists a.
    split; [by apply list_elem_of_In|].
    apply orb_true_iff. rewrite !Nat.leb_le. done.
Qed.

Lemma reach_sound (d : nat → nat → nat) (n t p fuel : nat) (S : list nat) :
  (∀ a, a ∈ S → a < n ∧ connected d n t p a) →
  ∀ b, b ∈ reach d n t fuel S → b < n ∧ connected d n t p b.
Proof.
  revert S. induction fuel as [|fuel IH]; intros S HS b Hb; [by apply HS|].
  simpl in Hb. apply (IH (S ++ neighbours d n t S)); [|done].
  intros a Ha. apply elem_of_app in Ha as [Ha|Ha]; [by apply HS|].
  apply neighbours_spec in Ha as [Han (a' & Ha' & Hd)].
  destruct (HS a' Ha') as [Ha'n Hconn]. split; [done|].
  etrans; [exact Hconn|].
  destruct Hd as [Hd|Hd]; [by apply rtsc_lr|by apply rtsc_rl].
Qed.

Lemma closedb_complete (d : nat → nat → nat) (n t : nat) (S : list nat)
    (p q : nat) :
  closedb d n t S = true → p ∈ S → connected d n t p q → q ∈ S.
Proof.
  intros Hcl Hp Hconn. unfold closedb in Hcl. rewrite forallb_forall in Hcl.
  induction Hconn as [|p p' q Hstep _ IH]; [done|].
  apply IH.
  assert (bool_decide (p' ∈ S) = true) as Hin; [|by apply bool_decide_eq_true in Hin].
  apply Hcl, list_elem_of_In, neighbours_spec.
  destruct Hstep as [(? & ? & ?)|(? & ? & ?)]; split; eauto.
Qed.

Lemma list_minZ_spec (l : list Z) (m : Z) :
  list_minZ l = Some m → m ∈ l ∧ ∀ z, z ∈ l → (m ≤ z)%Z.
Proof.
  destruct l as [|x l]; [done|]. simpl. intros [= <-].
  revert x. induction l as [|y l IH]; intros x; simpl.
  - split; [by left|]. intros z Hz. apply list_elem_of_singleton in Hz. lia.
  - destruct (IH (Z.min x y)) as [Hin Hle]. split.
    + apply elem_of_cons in Hin as [Hin|Hin]; [|by do 2 right].
      rewrite Hin. destruct (Z.min_spec x y) as [[_ ->]|[_ ->]];
        [by left|right; by left].
    + intros z Hz.
      assert (foldl Z.min (Z.min x y) l ≤ Z.min x y)%Z as Hm
        by (apply Hle; by left).
      apply elem_of_cons in Hz as [->|Hz]; [lia|].
      apply elem_of_cons in Hz as [->|Hz]; [lia|].
      apply Hle. by right.
Qed.

Lemma is_min_id_compute (ids : list Z) (d : nat → nat → nat) (n t p : nat)
    (c m : Z) :
  p < n →
  closedb d n t (component d n t p) = true →
  component_min_id ids d n t p = Some m →
  is_min_id ids (connected d n t) p c →
  c = m.
Proof.
  intros Hp Hcl Hm [(q & Hq & Hc) Hmin].
  apply list_minZ_spec in Hm as [Hin Hle].
  assert (p ∈ component d n t p) as Hpin.
  { unfold component. generalize n at 2. intros fuel.
    assert (∀ S, p ∈ S → p ∈ reach d n t fuel S) as H.
    { induction fuel as [|fuel IH]; intros S HS; [done|].
      simpl. apply IH, elem_of_app. by left. }
    apply H. by left. }
  assert (∀ b, b ∈ component d n t p → connected d n t p b) as Hsound.
  { intros b Hb. eapply reach_sound; [|exact Hb].
    intros a Ha. apply list_elem_of_singleton in Ha as ->. done. }
  apply Z.le_antisymm.
  - apply list_elem_of_omap in Hin as (b & Hb & Hidb).
    by apply (Hmin b m (Hsound b Hb)).
  - apply Hle. apply list_elem_of_omap. exists q. split; [|done].
    by eapply closedb_complete.
Qed.

(** ** The distance provider of the specification meets its contract *)

Lemma allelic_dist_at (mode : dist_mode) (mat : matrix) (i j : nat)
    (p q : list Z) :
  mat !! i = Some p → mat !! j = Some q →
  dist_at (allelic_getDistance mode mat 0) i j
  = Some match mode with
         | syn_dist => if j <? i then allelic_distance p q else 0
         | asyn_dist => allelic_distance p q
         end.
Proof.
  intros Hi Hj. unfold dist_at, allelic_getDistance. rewrite drop_0.
  rewrite list_lookup_imap, Hi. simpl.
  rewrite list_lookup_imap, Hj. simpl. by rewrite Nat.add_0_r.
Qed.

Lemma allelic_dist_at_Some (mode : dist_mode) (mat : matrix) (i j x : nat) :
  dist_at (allelic_getDistance mode mat 0) i j = Some x →
  ∃ p q, mat !! i = Some p ∧ mat !! j = Some q.
Proof.
  unfold dist_at, allelic_getDistance. rewrite drop_0, list_lookup_imap.
  destruct (mat !! i) as [p|]; [|done]. simpl.
  rewrite list_lookup_imap. destruct (mat !! j) as [q|]; [|done]. eauto.
Qed.

Lemma allelic_add_transpose (mat : matrix) :
  ∃ D, add_transpose (allelic_getDistance syn_dist mat 0) = Some D ∧
    ∀ i j p q, mat !! i = Some p → mat !! j = Some q →
      dist_at D i j
      = Some ((if j <? i then allelic_distance p q else 0)
              + (if i <? j then allelic_distance q p else 0)).
Proof.
  unfold add_transpose.
  assert (forallb
            (λ r, length r =? length (allelic_getDistance syn_dist mat 0))
            (allelic_getDistance syn_dist mat 0) = true) as ->.
  { apply forallb_forall. intros r Hr.
    apply list_elem_of_In, list_elem_of_lookup in Hr as [i Hr].
    unfold allelic_getDistance in *. rewrite drop_0 in *.
    apply list_lookup_imap_Some in Hr as (p & _ & ->).
    rewrite !length_imap. by apply Nat.eqb_eq. }
  eexists. split; [done|]. intros i j p q Hi Hj.
  unfold dist_at at 1. rewrite list_lookup_imap.
  pose proof (allelic_dist_at syn_dist mat i j p q Hi Hj) as Hij.
  unfold dist_at in Hij.
  destruct (allelic_getDistance syn_dist mat 0 !! i) as [r|]; [|done].
  simpl in *. rewrite list_lookup_imap, Hij. simpl.
  by rewrite (allelic_dist_at syn_dist mat j i q p Hj Hi).
Qed.

Lemma allelic_asyn_contract (mat : matrix) :
  asyn_contract allelic_getDistance mat.
Proof.
  intros k j x Hjk Hx.
  destruct (allelic_dist_at_Some _ _ _ _ _ Hx) as (p & q & Hk & Hj).
  rewrite (allelic_dist_at asyn_dist mat k j p q Hk Hj) in Hx.
  destruct (allelic_add_transpose mat) as (D & HD & Hentry).
  unfold pair_distance, dfun. rewrite HD. simpl.
  rewrite (Hentry k j p q Hk Hj).
  destruct (Nat.ltb_spec j k); [|lia]. destruct (Nat.ltb_spec k j); [lia|].
  simpl. simplify_eq. lia.
Qed.

(** ** The example of the specification *)

Lemma example_ids_NoDup :
  NoDup (column0 (stable_sort_by absence (prepare_mat example_table))).
Proof. apply (bool_decide_unpack _). by vm_compute. Defined.

(** C3, as the code has it: the full run on the four example profiles gives
    profile 3 the code 1 already at threshold 1, since it is at distance 1
    from profile 2. The distances are those of Section 6 of the
    specification, and the rows are the same for every single-linkage
    dendrogram that [linkage] may return. *)
Theorem example_code_rows (linkage : list nat → option (list merge_event))
    (out : matrix) :
  linkage_contract allelic_getDistance linkage
    (stable_sort_by absence (prepare_mat example_table)) →
  hierCC allelic_getDistance linkage None example_table = Some out →
  code_rows out
  = [[1; 1; 1; 1]; [2; 1; 1; 1]; [3; 1; 1; 1]; [4; 4; 4; 1]]%Z.
Proof.
  intros Hlink Hrun.
  destruct (full_run_encoded allelic_getDistance linkage example_table out
              example_ids_NoDup Hlink (allelic_asyn_contract _) Hrun)
    as (res0 & res1 & _ & _ & _ & -> & Hlen & Hw & Hcodes).
  set (mat := stable_sort_by absence (prepare_mat example_table)) in *.
  assert (∀ p th m, p < length mat → th ≤ n_loci mat →
            closedb (pair_distance allelic_getDistance mat) (length mat) th
              (component (pair_distance allelic_getDistance mat)
                         (length mat) th p) = true →
            component_min_id (column0 mat)
              (pair_distance allelic_getDistance mat) (length mat) th p
            = Some m →
            code res1 p th = Some m) as Hval.
  { intros p th m Hp Hth Hcl Hm.
    destruct (Hcodes p th Hp Hth) as (c & Hc & Hmin).
    rewrite Hc. f_equal. by eapply is_min_id_compute. }
  clear Hcodes.
  destruct res1 as [|r0 [|r1 [|r2 [|r3 [|? ?]]]]]; try done.
  pose proof (Hw 0 r0 eq_refl) as H0. pose proof (Hw 1 r1 eq_refl) as H1.
  pose proof (Hw 2 r2 eq_refl) as H2. pose proof (Hw 3 r3 eq_refl) as H3.
  destruct r0 as [|a0 [|a1 [|a2 [|a3 [|a4 [|? ?]]]]]]; try done.
  destruct r1 as [|b0 [|b1 [|b2 [|b3 [|b4 [|? ?]]]]]]; try done.
  destruct r2 as [|c0 [|c1 [|c2 [|c3 [|c4 [|? ?]]]]]]; try done.
  destruct r3 as [|d0 [|d1 [|d2 [|d3 [|d4 [|? ?]]]]]]; try done.
  clear Hlen Hw H0 H1 H2 H3.
  assert (∀ p th m, p < 4 → th ≤ 3 →
            closedb (pair_distance allelic_getDistance mat) (length mat) th
              (component (pair_distance allelic_getDistance mat)
                         (length mat) th p) = true →
            component_min_id (column0 mat)
              (pair_distance allelic_getDistance mat) (length mat) th p
            = Some m →
            code [[a0; a1; a2; a3; a4]; [b0; b1; b2; b3; b4];
                  [c0; c1; c2; c3; c4]; [d0; d1; d2; d3; d4]] p th
            = Some m) as Hval' by (intros; by apply Hval).
  clear Hval.
  pose proof (Hval' 0 0 1%Z ltac:(lia) ltac:(lia) ltac:(by vm_compute) ltac:(by vm_compute)).
  pose proof (Hval' 0 1 1%Z ltac:(lia) ltac:(lia) ltac:(by vm_compute) ltac:(by vm_compute)).
  pose proof (Hval' 0 2 1%Z ltac:(lia) ltac:(lia) ltac:(by vm_compute) ltac:(by vm_compute)).
  pose proof (Hval' 0 3 1%Z ltac:(lia) ltac:(lia) ltac:(by vm_compute) ltac:(by vm_compute)).
  pose proof (Hval' 1 0 2%Z ltac:(lia) ltac:(lia) ltac:(by vm_compute) ltac:(by vm_compute)).
  pose proof (Hval' 1 1 1%Z ltac:(lia) ltac:(lia) ltac:(by vm_compute) ltac:(by vm_compute)).
  pose proof (Hval' 1 2 1%Z ltac:(lia) ltac:(lia) ltac:(by vm_compute) ltac:(by vm_compute)).
  pose proof (Hval' 1 3 1%Z ltac:(lia) ltac:(lia) ltac:(by vm_compute) ltac:(by vm_compute)).
  pose proof (Hval' 2 0 3%Z ltac:(lia) ltac:(lia) ltac:(by vm_compute) ltac:(by vm_compute)).
  pose proof (Hval' 2 1 1%Z ltac:(lia) ltac:(lia) ltac:(by vm_compute) ltac:(by vm_compute)).
  pose proof (Hval' 2 2 1%Z ltac:(lia) ltac:(lia) ltac:(by vm_compute) ltac:(by vm_compute)).
  pose proof (Hval' 2 3 1%Z ltac:(lia) ltac:(lia) ltac:(by vm_compute) ltac:(by vm_compute)).
  pose proof (Hval' 3 0 4%Z ltac:(lia) ltac:(lia) ltac:(by vm_compute) ltac:(by vm_compute)).
  pose proof (Hval' 3 1 4%Z ltac:(lia) ltac:(lia) ltac:(by vm_compute) ltac:(by vm_compute)).
  pose proof (Hval' 3 2 4%Z ltac:(lia) ltac:(lia) ltac:(by vm_compute) ltac:(by vm_compute)).
  pose proof (Hval' 3 3 1%Z ltac:(lia) ltac:(lia) ltac:(by vm_compute) ltac:(by vm_compute)).
  clear Hval'. unfold code in *. simplify_eq/=. reflexivity.
Qed.

(** ** The theorems at concrete inputs *)

Lemma example_linkage_contract :
  linkage_contract allelic_getDistance Scipy.linkage
    (stable_sort_by absence (prepare_mat example_table)).
Proof.
  intros D y slc HD Hy Hslc.
  vm_compute in HD. injection HD as <-.
  vm_compute in Hy. injection Hy as <-.
  vm_compute in Hslc. injection Hslc as <-.
  vm_compute. reflexivity.
Defined.

Lemma full_run_codes_are_ids_witness :
  hierCC_run None example_table = Some example_out ∧
  1%Z ∈ column0 (prepare_mat example_table).
Proof.
  split; [by vm_compute|].
  apply (full_run_codes_are_ids allelic_getDistance Scipy.linkage example_table
           example_out ltac:(by vm_compute) [3; 3; 1; 1; 1]%Z 1%Z).
  - do 2 right. by left.
  - do 2 right. by left.
Defined.

Lemma full_run_single_linkage_witness :
  hierCC_run None example_table = Some example_out ∧
  (∃ c, code example_out 2 1 = Some c ∧
        is_min_id (column0 (stable_sort_by absence (prepare_mat example_table)))
          (connected (pair_distance allelic_getDistance
                        (stable_sort_by absence (prepare_mat example_table)))
                     (length (stable_sort_by absence (prepare_mat example_table)))
                     1) 2 c) ∧
  (code example_out 2 1 = code example_out 0 1 ↔
   connected (pair_distance allelic_getDistance
                (stable_sort_by absence (prepare_mat example_table)))
             (length (stable_sort_by absence (prepare_mat example_table)))
             1 2 0).
Proof.
  split; [by vm_compute|].
  apply (full_run_single_linkage allelic_getDistance Scipy.linkage
           example_table example_out).
  - exact example_ids_NoDup.
  - exact example_linkage_contract.
  - apply allelic_asyn_contract.
  - by vm_compute.
  - vm_compute. lia.
  - vm_compute. lia.
  - vm_compute. lia.
Defined.

Lemma full_run_attach_no_op_witness :
  hierCC_run None example_table = Some example_out ∧
  ∃ res0 res1,
    init_res (stable_sort_by absence (prepare_mat example_table)) = Some res0 ∧
    full_clustering allelic_getDistance Scipy.linkage
      (stable_sort_by absence (prepare_mat example_table)) 0 res0 = Some res1 ∧
    attach 0 (allelic_getDistance asyn_dist
                (stable_sort_by absence (prepare_mat example_table)) 0) res1
    = Some res1 ∧
    ∀ k dvec i minD r ri a b,
      allelic_getDistance asyn_dist
        (stable_sort_by absence (prepare_mat example_table)) 0 !! k
      = Some dvec → 0 < k →
      argmin (take k dvec) = Some i → dvec !! i = Some minD →
      res1 !! k = Some r → res1 !! i = Some ri →
      r !! (minD + 1) = Some a → ri !! (minD + 1) = Some b →
      ¬ (b < a)%Z.
Proof.
  split; [by vm_compute|].
  apply (full_run_attach_no_op allelic_getDistance Scipy.linkage example_table
           example_out).
  - exact example_ids_NoDup.
  - exact example_linkage_contract.
  - apply allelic_asyn_contract.
  - by vm_compute.
Defined.

Lemma duplicate_linkage_contract :
  linkage_contract allelic_getDistance Scipy.linkage
    (stable_sort_by absence (prepare_mat duplicate_table)).
Proof.
  intros D y slc HD Hy Hslc.
  vm_compute in HD. injection HD as <-.
  vm_compute in Hy. injection Hy as <-.
  vm_compute in Hslc. injection Hslc as <-.
  vm_compute. reflexivity.
Defined.

Lemma repeated_id_linkage_contract :
  linkage_contract allelic_getDistance Scipy.linkage
    (stable_sort_by absence (prepare_mat repeated_id_table)).
Proof.
  intros D y slc HD Hy Hslc.
  vm_compute in HD. injection HD as <-.
  vm_compute in Hy. injection Hy as <-.
  vm_compute in Hslc. injection Hslc as <-.
  vm_compute. reflexivity.
Defined.

(** C1 fails on the code when an id is repeated: in [duplicate_table] the
    two profiles with id 5 are at distance 1 and have the same code 5 at
    threshold 0, at which they are not connected; and at threshold 2, at
    which all three profiles are connected, the first of them has the code
    5, not the least id 3. Both collaborators meet their contracts. *)
Lemma duplicate_ids_break_single_linkage :
  linkage_contract allelic_getDistance Scipy.linkage
    (stable_sort_by absence (prepare_mat duplicate_table)) ∧
  asyn_contract allelic_getDistance
    (stable_sort_by absence (prepare_mat duplicate_table)) ∧
  hierCC_run None duplicate_table
  = Some [[5; 5; 5; 5]; [5; 5; 5; 3]; [3; 3; 3; 3]]%Z ∧
  code [[5; 5; 5; 5]; [5; 5; 5; 3]; [3; 3; 3; 3]]%Z 0 0
  = code [[5; 5; 5; 5]; [5; 5; 5; 3]; [3; 3; 3; 3]]%Z 1 0 ∧
  ¬ connected (pair_distance allelic_getDistance
                 (stable_sort_by absence (prepare_mat duplicate_table)))
              (length (stable_sort_by absence (prepare_mat duplicate_table)))
              0 0 1 ∧
  code [[5; 5; 5; 5]; [5; 5; 5; 3]; [3; 3; 3; 3]]%Z 0 2 = Some 5%Z ∧
  ¬ is_min_id (column0 (stable_sort_by absence (prepare_mat duplicate_table)))
      (connected (pair_distance allelic_getDistance
                    (stable_sort_by absence (prepare_mat duplicate_table)))
                 (length (stable_sort_by absence (prepare_mat duplicate_table)))
                 2) 0 5%Z.
Proof.
  split_and!.
  - exact duplicate_linkage_contract.
  - apply allelic_asyn_contract.
  - by vm_compute.
  - reflexivity.
  - intros Hconn.
    apply (closedb_complete _ _ _ [0] 0 1) in Hconn.
    + apply list_elem_of_singleton in Hconn. discriminate.
    + by vm_compute.
    + by left.
  - reflexivity.
  - intros [_ Hmin].
    specialize (Hmin 2 3%Z).
    assert (5 ≤ 3)%Z; [|lia]. apply Hmin; [|reflexivity].
    apply connected_linked; vm_compute; lia.
Qed.

(** C8 fails on the code when an id is repeated: after the encoding of
    [repeated_id_table] the row of the first profile with id 7 is
    [[7; 7; 7; 7]], its nearest earlier neighbour is profile 3 at distance
    0, its code 7 at threshold 0 is greater than the code 3 of the
    neighbour, and the attachment pass overwrites the row with
    [[7; 3; 3; 3]]. Both collaborators meet their contracts. *)
Lemma repeated_id_attachment_overwrites :
  linkage_contract allelic_getDistance Scipy.linkage
    (stable_sort_by absence (prepare_mat repeated_id_table)) ∧
  asyn_contract allelic_getDistance
    (stable_sort_by absence (prepare_mat repeated_id_table)) ∧
  (init_res (stable_sort_by absence (prepare_mat repeated_id_table))
   ≫= full_clustering allelic_getDistance Scipy.linkage
         (stable_sort_by absence (prepare_mat repeated_id_table)) 0)
  = Some [[3; 3; 3; 3]; [7; 7; 7; 7]; [7; 3; 3; 3]]%Z ∧
  allelic_getDistance asyn_dist
    (stable_sort_by absence (prepare_mat repeated_id_table)) 0 !! 1
  = Some [0; 0; 1] ∧
  argmin (take 1 [0; 0; 1]) = Some 0 ∧
  code [[3; 3; 3; 3]; [7; 7; 7; 7]; [7; 3; 3; 3]]%Z 1 0 = Some 7%Z ∧
  code [[3; 3; 3; 3]; [7; 7; 7; 7]; [7; 3; 3; 3]]%Z 0 0 = Some 3%Z ∧
  attach 0 (allelic_getDistance asyn_dist
              (stable_sort_by absence (prepare_mat repeated_id_table)) 0)
         [[3; 3; 3; 3]; [7; 7; 7; 7]; [7; 3; 3; 3]]%Z
  = Some [[3; 3; 3; 3]; [7; 3; 3; 3]; [7; 3; 3; 3]]%Z ∧
  hierCC_run None repeated_id_table
  = Some [[3; 3; 3; 3]; [7; 3; 3; 3]; [7; 3; 3; 3]]%Z.
Proof.
  split_and!.
  - exact repeated_id_linkage_contract.
  - apply allelic_asyn_contract.
  - by vm_compute.
  - by vm_compute.
  - by vm_compute.
  - by vm_compute.
  - by vm_compute.
  - by vm_compute.
  - by vm_compute.
Qed.


Lemma identical_fresh_ids :
  fresh_ids identical_snapshot
    (column0 (order_profiles (Some identical_snapshot)
                (prepare_mat identical_table)).1.1).
Proof.
  intros x v Hx Ht Hv. vm_compute in Hx.
  apply list_elem_of_In in Hx. apply list_elem_of_In in Hv.
  destruct Hx as [<-|[<-|[]]]; [by vm_compute in Ht|].
  destruct Hv as [<-|[]]. intros Hin. apply list_elem_of_In in Hin.
  simpl in Hin. intuition discriminate.
Defined.

Lemma identical_snapshot_nested (L : nat) : nested L identical_snapshot.
Proof.
  intros i j t1 t2 a _ _ Hi Hj.
  destruct i as [|i]; [|by vm_compute in Hi].
  destruct j as [|j]; [|by vm_compute in Hj]. reflexivity.
Defined.


(** C4 fails on the code: the first merge event of the example joins
    profiles 1 and 2 at distance 1, and the code of the absorbed profile 2
    at threshold 1 itself changes from 2 to 1. *)
Lemma merge_event_overwrites_its_threshold :
  ∃ desc' res',
    encode_step 4 (index_of example_ids) (example_desc, example_res0)
                (0, (0, 1, 1)) = Some (desc', res') ∧
    code example_res0 1 1 = Some 2%Z ∧ code res' 1 1 = Some 1%Z.
Proof.
  exists [Some [1]; Some [2]; Some [3]; Some [4]; Some [1; 2]; None; None]%Z,
         [[1; 1; 1; 1; 1]; [2; 2; 1; 1; 1]; [3; 3; 3; 3; 3]; [4; 4; 4; 4; 4]]%Z.
  by vm_compute.
Qed.

Lemma merge_event_overwrites_witness :
  ∃ l0 l1 k0 k1 anchor absorbed min_id pa,
    example_desc !! 0 = Some (Some l0) ∧ example_desc !! 1 = Some (Some l1) ∧
    head l0 = Some k0 ∧ head l1 = Some k1 ∧
    (anchor, absorbed) = (if (k1 <? k0)%Z then (l1, l0) else (l0, l1)) ∧
    list_minZ anchor = Some min_id ∧ example_ids !! pa = Some min_id ∧
    [Some [1]; Some [2]; Some [3]; Some [4]; Some [1; 2]; None; None]%Z
      !! (0 + length example_ids) = Some (Some (anchor ++ absorbed)) ∧
    ∀ p z, example_ids !! p = Some z →
      (z ∈ absorbed →
         [[1; 1; 1; 1; 1]; [2; 2; 1; 1; 1]; [3; 3; 3; 3; 3];
          [4; 4; 4; 4; 4]]%Z !! p ≫= (.!! 0)
         = example_res0 !! p ≫= (.!! 0) ∧
         ∀ t, (t < 1 →
               code [[1; 1; 1; 1; 1]; [2; 2; 1; 1; 1]; [3; 3; 3; 3; 3];
                     [4; 4; 4; 4; 4]]%Z p t = code example_res0 p t) ∧
              (1 ≤ t →
               code [[1; 1; 1; 1; 1]; [2; 2; 1; 1; 1]; [3; 3; 3; 3; 3];
                     [4; 4; 4; 4; 4]]%Z p t = code example_res0 pa t)) ∧
      (z ∉ absorbed →
         [[1; 1; 1; 1; 1]; [2; 2; 1; 1; 1]; [3; 3; 3; 3; 3];
          [4; 4; 4; 4; 4]]%Z !! p = example_res0 !! p).
Proof.
  apply (merge_event_overwrites example_ids 5 example_desc _ example_res0 _
           0 0 1 1).
  - apply (bool_decide_unpack _). by vm_compute.
  - intros p r Hr. destruct p as [|[|[|[|p]]]]; vm_compute in Hr;
      try done; by injection Hr as <-.
  - reflexivity.
  - by vm_compute.
Defined.

(** With a repeated id the dictionary [index] of line 98 names the last row
    of the id: the first merge event of [repeated_id_table] absorbs the
    leaf of row 1, and the row that is written is row 2. *)
Lemma repeated_id_merge_writes_last_row :
  encode_step 3 (index_of [3; 7; 7]%Z)
    ([Some [3]; Some [7]; Some [7]; None; None]%Z,
     [[3; 3; 3; 3]; [7; 7; 7; 7]; [7; 7; 7; 7]]%Z) (0, (0, 1, 0))
  = Some ([Some [3]; Some [7]; Some [7]; Some [3; 7]; None]%Z,
          [[3; 3; 3; 3]; [7; 7; 7; 7]; [7; 3; 3; 3]]%Z).
Proof. by vm_compute. Qed.

(** C5 fails on the code: the new profile 5 is identical to the typed
    profile 1, so [minD = 0], and its code at threshold 0, which is not one
    of the thresholds [minD + 1 ..], is overwritten with the code 1 of the
    neighbour. *)
Lemma identical_profile_takes_code_at_minD :
  hierCC_run (Some identical_snapshot) identical_table
  = Some [[1; 1; 1; 1; 1]; [5; 1; 1; 1; 1]]%Z ∧
  attach_step 1 [[1; 1; 1; 1; 1]; [5; 5; 5; 5; 5]]%Z (0, [0; 0])
  = Some [[1; 1; 1; 1; 1]; [5; 1; 1; 1; 1]]%Z ∧
  code [[1; 1; 1; 1; 1]; [5; 5; 5; 5; 5]]%Z 1 0 = Some 5%Z ∧
  code [[1; 1; 1; 1; 1]; [5; 1; 1; 1; 1]]%Z 1 0 = Some 1%Z.
Proof. by vm_compute. Qed.

Lemma attach_new_profile_witness :
  (∀ j, j ≠ 0 + 1 →
     [[1; 1; 1; 1; 1]; [5; 1; 1; 1; 1]]%Z !! j
     = [[1; 1; 1; 1; 1]; [5; 5; 5; 5; 5]]%Z !! j) ∧
  (0 + 1 = 0 →
     [[1; 1; 1; 1; 1]; [5; 1; 1; 1; 1]]%Z !! (0 + 1) = Some (replicate 5 5%Z)) ∧
  (0 < 0 + 1 →
   ∃ i minD b,
     argmin (take (0 + 1) [0; 0]) = Some i ∧
     i < 0 + 1 ∧ [0; 0] !! i = Some minD ∧
     (∀ j y, j < 0 + 1 → [0; 0] !! j = Some y → minD ≤ y) ∧
     (∀ j y, j < i → [0; 0] !! j = Some y → minD < y) ∧
     code [[1; 1; 1; 1; 1]; [5; 5; 5; 5; 5]]%Z i minD = Some b ∧
     ((b < 5)%Z →
        ∀ t, (t < minD →
              code [[1; 1; 1; 1; 1]; [5; 1; 1; 1; 1]]%Z (0 + 1) t = Some 5%Z) ∧
             (minD ≤ t →
              code [[1; 1; 1; 1; 1]; [5; 1; 1; 1; 1]]%Z (0 + 1) t
              = code [[1; 1; 1; 1; 1]; [5; 5; 5; 5; 5]]%Z i t)) ∧
     (¬ (b < 5)%Z →
        [[1; 1; 1; 1; 1]; [5; 1; 1; 1; 1]]%Z !! (0 + 1)
        = Some (replicate 5 5%Z))).
Proof.
  apply (attach_new_profile 1 [[1; 1; 1; 1; 1]; [5; 5; 5; 5; 5]]%Z _ 0 [0; 0]
           5 5%Z).
  - reflexivity.
  - by vm_compute.
Defined.

Lemma append_keeps_typed_rows_witness :
  hierCC_run (Some identical_snapshot) identical_table = Some identical_out ∧
  ∃ j, typed_of identical_snapshot !! 1%Z = Some j ∧
       identical_snapshot !! j = Some [1; 1; 1; 1; 1]%Z.
Proof.
  split; [by vm_compute|].
  apply (append_keeps_typed_rows allelic_getDistance Scipy.linkage
           identical_snapshot identical_table identical_out) with (k := 0).
  - intros v Hv. apply list_elem_of_In in Hv. destruct Hv as [<-|[]].
    simpl. lia.
  - by vm_compute.
  - reflexivity.
  - reflexivity.
  - by left.
Defined.

Lemma append_ignores_alleles_of_typed_witness :
  column0 (prepare_mat identical_table) = column0 (prepare_mat changed_table) ∧
  hierCC_run (Some identical_snapshot) identical_table = Some identical_out ∧
  hierCC_run (Some identical_snapshot) changed_table = Some changed_out ∧
  changed_out !! 0 = Some [1; 1; 1; 1; 1]%Z ∧
  ∃ j, typed_of identical_snapshot !! 1%Z = Some j ∧
       identical_snapshot !! j = Some [1; 1; 1; 1; 1]%Z.
Proof.
  split_and!; [by vm_compute..|].
  apply (append_ignores_alleles_of_typed
           allelic_getDistance allelic_getDistance Scipy.linkage Scipy.linkage
           identical_snapshot identical_table changed_table
           identical_out changed_out) with (k := 0).
  - intros v Hv. apply list_elem_of_In in Hv. destruct Hv as [<-|[]].
    simpl. lia.
  - by vm_compute.
  - by vm_compute.
  - by vm_compute.
  - reflexivity.
  - reflexivity.
  - by left.
Defined.



Lemma example_code_rows_witness :
  hierCC_run None example_table = Some example_out ∧
  code_rows example_out
  = [[1; 1; 1; 1]; [2; 1; 1; 1]; [3; 1; 1; 1]; [4; 4; 4; 1]]%Z.
Proof.
  split; [by vm_compute|].
  apply (example_code_rows Scipy.linkage example_out).
  - exact example_linkage_contract.
  - by vm_compute.
Defined.

(** C3 fails on the code: the code rows are not those of the
    specification, which has the code 3 for profile 3 at threshold 1. *)
Lemma example_code_rows_differ :
  code_rows <$> hierCC_run None example_table
  ≠ Some [[1; 1; 1; 1]; [2; 1; 1; 1]; [3; 3; 1; 1]; [4; 4; 4; 1]]%Z.
Proof. by vm_compute. Qed.

(** * Further properties of the code *)

(** ** Loading: comment columns and widths *)

Lemma select_columns_nil_r (mask : list bool) : select_columns mask [] = [].
Proof. unfold select_columns. by rewrite zip_with_nil_r. Qed.

Lemma select_columns_cons (m : bool) (mask : list bool) (x : Z) (r : list Z) :
  select_columns (m :: mask) (x :: r)
  = if m then x :: select_columns mask r else select_columns mask r.
Proof.
  unfold select_columns. simpl. rewrite filter_cons.
  by destruct m.
Qed.

Lemma select_columns_insert (mask : list bool) (r : list Z) (i : nat) (v : Z) :
  mask !! i = Some false →
  select_columns mask (<[i := v]> r) = select_columns mask r.
Proof.
  revert r i. induction mask as [|m mask IH]; intros r i Hi; [done|].
  destruct r as [|x r]; [done|].
  destruct i as [|i]; simpl in *.
  - simplify_eq. by rewrite !select_columns_cons.
  - rewrite !select_columns_cons. by rewrite IH.
Qed.

Lemma select_columns_length (mask : list bool) (r : list Z) :
  length r = length mask →
  length (select_columns mask r) = length (filter (λ b, b = true) mask).
Proof.
  revert r. induction mask as [|m mask IH]; intros r Hr.
  { by destruct r. }
  destruct r as [|x r]; [done|]. simpl in Hr.
  rewrite select_columns_cons, filter_cons.
  destruct m; case_decide; try done; simpl; rewrite IH; lia.
Qed.

Lemma allele_columns_cons (h : string) (hs : list string) :
  allele_columns (h :: hs) = true :: ((λ s, negb (String.prefix "#" s)) <$> hs).
Proof.
  unfold allele_columns. simpl. f_equal.
  rewrite <-(imap_const (λ s, negb (String.prefix "#" s))).
  by apply imap_ext.
Qed.

Lemma comment_columns_count (hs : list string) :
  length (filter (λ b, b = true) ((λ s, negb (String.prefix "#" s)) <$> hs))
  = length (filter (λ s, String.prefix "#" s = false) hs).
Proof.
  induction hs as [|s hs IH]; [done|].
  rewrite fmap_cons, !filter_cons.
  destruct (String.prefix "#" s); simpl; repeat case_decide; simpl; try done; lia.
Qed.

(** X1. A column other than the first whose header starts with [#] is
    dropped by [prepare_mat]: whatever its cells hold, the loaded matrix is
    the same. *)
Theorem prepare_mat_ignores_comment_columns (hd : list string) (b : matrix)
    (i : nat) (h : string) (f : list Z → Z) :
  0 < i → hd !! i = Some h → String.prefix "#" h = true →
  prepare_mat {| header := hd; body := (λ r, <[i := f r]> r) <$> b |}
  = prepare_mat {| header := hd; body := b |}.
Proof.
  intros Hi Hh Hp. unfold prepare_mat. simpl. f_equal.
  rewrite <-list_fmap_compose. apply list_fmap_ext. intros k r _. simpl.
  apply select_columns_insert. unfold allele_columns.
  rewrite list_lookup_imap, Hh. simpl. rewrite Hp.
  destruct i; [lia|done].
Qed.

(** X2. On a rectangular profile table every loaded row has the id column
    and one column for each later header that does not start with [#]; the
    first column is kept whatever its header is. *)
Theorem prepare_mat_width (t : table) (h : string) (hs : list string) :
  header t = h :: hs →
  Forall (λ r, length r = length (header t)) (body t) →
  Forall (λ r, length r
               = 1 + length (filter (λ s, String.prefix "#" s = false) hs))
         (prepare_mat t).
Proof.
  intros Hh Hrect. unfold prepare_mat. apply Forall_forall. intros r Hr.
  apply list_elem_of_filter in Hr as [_ Hr].
  apply list_elem_of_fmap in Hr as (r0 & -> & Hr0).
  eapply Forall_forall in Hrect; [|done].
  rewrite select_columns_length.
  - rewrite Hh, allele_columns_cons, filter_cons. case_decide; [|done].
    simpl. by rewrite comment_columns_count.
  - rewrite Hrect. unfold allele_columns. by rewrite length_imap.
Qed.

(** ** The processing order of a full run *)

Lemma insert_by_sorted {A : Type} (key : A → nat) (x : A) (l : list A) :
  StronglySorted (λ a b, key a ≤ key b) l →
  StronglySorted (λ a b, key a ≤ key b) (insert_by key x l).
Proof.
  induction 1 as [|y l Hl IH Hy]; simpl.
  { repeat constructor. }
  destruct (Nat.leb_spec (key y) (key x)) as [Hle|Hlt].
  - constructor; [done|].
    rewrite (insert_by_perm key x l). by constructor.
  - constructor; [by constructor|]. constructor; [lia|].
    eapply Forall_impl; [done|]. simpl. intros; lia.
Qed.

Lemma filter_key_above {A : Type} (key : A → nat) (k : nat) (l : list A) :
  Forall (λ b, k < key b) l → filter (λ r, key r = k) l = [].
Proof.
  induction 1 as [|y l Hy _ IH]; [done|].
  rewrite filter_cons. case_decide; [lia|done].
Qed.

Lemma insert_by_filter {A : Type} (key : A → nat) (k : nat) (x : A)
    (l : list A) :
  StronglySorted (λ a b, key a ≤ key b) l →
  filter (λ r, key r = k) (insert_by key x l)
  = filter (λ r, key r = k) l ++ filter (λ r, key r = k) [x].
Proof.
  induction 1 as [|y l Hl IH Hy]; simpl; [done|].
  destruct (Nat.leb_spec (key y) (key x)) as [Hle|Hlt].
  - rewrite !(filter_cons _ y). case_decide; simpl; by rewrite IH.
  - rewrite (filter_cons _ x), (filter_cons _ x []), filter_nil.
    case_decide as Hx; [|by rewrite app_nil_r].
    rewrite (filter_key_above key k (y :: l)); [done|].
    constructor; [lia|]. eapply Forall_impl; [done|]. simpl. intros; lia.
Qed.

Lemma stable_sort_by_sorted {A : Type} (key : A → nat) (m : list A) :
  StronglySorted (λ a b, key a ≤ key b) (stable_sort_by key m) ∧
  ∀ k, filter (λ r, key r = k) (stable_sort_by key m)
       = filter (λ r, key r = k) m.
Proof.
  unfold stable_sort_by.
  assert (∀ acc, StronglySorted (λ a b, key a ≤ key b) acc →
    StronglySorted (λ a b, key a ≤ key b)
      (foldl (λ acc x, insert_by key x acc) acc m) ∧
    ∀ k, filter (λ r, key r = k) (foldl (λ acc x, insert_by key x acc) acc m)
         = filter (λ r, key r = k) acc ++ filter (λ r, key r = k) m) as H.
  { induction m as [|x m IH]; simpl; intros acc Hacc.
    { split; [done|]. intros k. by rewrite filter_nil, app_nil_r. }
    destruct (IH (insert_by key x acc)) as [Hs Hf].
    { by apply insert_by_sorted. }
    split; [done|]. intros k.
    rewrite Hf, insert_by_filter by done.
    rewrite <-app_assoc. f_equal. by rewrite <-filter_app. }
  destruct (H []) as [Hs Hf]; [constructor|]. split; [done|].
  intros k. by rewrite Hf.
Qed.

(** X3. A full run processes the profiles in the order of a stable sort by
    the number of entries that are not positive: the order is a permutation
    of the loaded rows, it is sorted by this number, and rows with the same
    number keep their file order. *)
Theorem full_run_processing_order (mat : matrix) :
  (order_profiles None mat).1.1 ≡ₚ mat ∧
  StronglySorted (λ a b, absence a ≤ absence b) (order_profiles None mat).1.1 ∧
  ∀ k, filter (λ r, absence r = k) (order_profiles None mat).1.1
       = filter (λ r, absence r = k) mat.
Proof.
  rewrite order_profiles_full. simpl. split; [apply stable_sort_by_perm|].
  apply stable_sort_by_sorted.
Qed.

(** ** A profile file without profiles *)

Lemma prepare_mat_nil (t : table) :
  Forall (λ x, (x ≤ 0)%Z) (column0 (body t)) → prepare_mat t = [].
Proof.
  intros Hids. unfold prepare_mat.
  destruct (filter _ _) as [|r m] eqn:Hm; [done|]. exfalso.
  assert (r ∈ filter (λ r : list Z, (0 < default 0 (head r))%Z)
                (select_columns (allele_columns (header t)) <$> body t)) as Hr.
  { rewrite Hm. by left. }
  apply list_elem_of_filter in Hr as [Hpos Hr].
  apply list_elem_of_fmap in Hr as (r0 & -> & Hr0).
  destruct (header t) as [|h hs].
  - unfold allele_columns, select_columns in Hpos. simpl in Hpos. lia.
  - rewrite select_columns_head in Hpos.
    unfold column0 in Hids. rewrite Forall_fmap in Hids.
    eapply Forall_forall in Hids; [|done]. simpl in Hids. lia.
Qed.

(** X5. A profile file without a positive id, an empty one included, makes
    every run fail, with and without [--append]: no row is loaded, and at
    the latest [np.max] of line 84 raises on the empty id column. *)
Theorem run_without_profiles_fails
    (getDistance : dist_mode → matrix → nat → dmatrix)
    (linkage : list nat → option (list merge_event))
    (append : option matrix) (t : table) :
  Forall (λ x, (x ≤ 0)%Z) (column0 (body t)) →
  hierCC getDistance linkage append t = None.
Proof.
  intros Hids. unfold hierCC. rewrite (prepare_mat_nil t Hids).
  unfold hierCC_mat, order_profiles.
  destruct append as [cls|]; [destruct (0 <? size (typed_of cls))|]; done.
Qed.

(** ** The id column and the shape of the code matrix *)

Lemma id_rows_init (ids : list Z) (W : nat) :
  1 ≤ W → id_rows ids W ((λ x, replicate W x) <$> ids).
Proof.
  intros HW. apply Forall2_fmap_r, Forall_Forall2_diag, Forall_forall.
  intros x _. simpl. rewrite length_replicate. split; [done|].
  destruct W; [lia|done].
Qed.

Lemma id_rows_lookup (ids : list Z) (W : nat) (res : matrix) (p : nat)
    (r : list Z) :
  id_rows ids W res → res !! p = Some r →
  length r = W ∧ ∃ x, ids !! p = Some x ∧ head r = Some x.
Proof.
  intros Hres Hr. destruct (Forall2_lookup_r _ _ _ _ _ Hres Hr) as (x & Hx & ? & ?).
  eauto.
Qed.

Lemma id_rows_insert (ids : list Z) (W : nat) (res : matrix) (p : nat)
    (r : list Z) (x : Z) :
  id_rows ids W res → ids !! p = Some x → length r = W → head r = Some x →
  id_rows ids W (<[p := r]> res).
Proof.
  intros Hres Hx Hlen Hhead. unfold id_rows.
  rewrite <-(list_insert_id ids p x Hx). by apply Forall2_insert.
Qed.

Lemma copy_from_head (k : nat) (a b : list Z) :
  1 ≤ k → a ≠ [] → head (copy_from k a b) = head a.
Proof. intros Hk Ha. destruct a; [done|]. destruct k; [lia|done]. Qed.

Lemma id_rows_copy (ids : list Z) (W : nat) (res : matrix) (p q k : nat)
    (rp rq : list Z) :
  id_rows ids W res → res !! p = Some rp → res !! q = Some rq → 1 ≤ k →
  id_rows ids W (<[p := copy_from k rp rq]> res).
Proof.
  intros Hres Hp Hq Hk.
  destruct (id_rows_lookup _ _ _ _ _ Hres Hp) as (Hlp & x & Hx & Hhp).
  destruct (id_rows_lookup _ _ _ _ _ Hres Hq) as (Hlq & _).
  apply (id_rows_insert ids W res p _ x); [done..| |].
  - rewrite copy_from_length; congruence.
  - rewrite copy_from_head; [done..|]. by destruct rp.
Qed.

Lemma encode_rows_loop_id_rows (ids : list Z) (W : nat) (index : gmap Z nat)
    (min_id : Z) (k : nat) (tgts : list Z) (res res' : matrix) :
  1 ≤ k → id_rows ids W res →
  oloop (λ res tgt,
           it ← index !! tgt; im ← index !! min_id;
           rt ← res !! it; rm ← res !! im;
           Some (<[it := copy_from k rt rm]> res)) res tgts = Some res' →
  id_rows ids W res'.
Proof.
  intros Hk Hres. apply oloop_inv; [|done].
  clear res Hres. intros res tgt res2 _ Hres Hstep. simplify_option_eq.
  by eapply id_rows_copy.
Qed.

Lemma encode_step_id_rows (ids : list Z) (W n : nat) (index : gmap Z nat)
    (desc desc' : list (option (list Z))) (res res' : matrix)
    (ic : nat * merge_event) :
  id_rows ids W res →
  encode_step n index (desc, res) ic = Some (desc', res') →
  id_rows ids W res'.
Proof.
  intros Hres. destruct ic as [idx [[c0 c1] cd]]. unfold encode_step.
  intros Hstep. simplify_option_eq.
  destruct (_ <? _)%Z; simplify_option_eq;
    destruct (_ <? _); simplify_option_eq;
    (eapply encode_rows_loop_id_rows; [|done..]; lia).
Qed.

Lemma encode_id_rows (ids : list Z) (W : nat) (mat : matrix)
    (slc : list merge_event) (res res' : matrix) :
  id_rows ids W res → encode mat slc res = Some res' → id_rows ids W res'.
Proof.
  intros Hres. unfold encode. intros Henc.
  apply fmap_Some in Henc as ([desc' res1] & Hloop & ->). simpl.
  revert Hloop.
  apply (oloop_inv (λ st, id_rows ids W st.2)); [|done].
  intros [d1 r1] ic [d2 r2] _ H1 H2. simpl in *.
  by eapply encode_step_id_rows.
Qed.

Lemma attach_step_id_rows (ids : list Z) (W start : nat) (res res' : matrix)
    (idd : nat * list nat) :
  id_rows ids W res → attach_step start res idd = Some res' →
  id_rows ids W res'.
Proof.
  intros Hres. destruct idd as [id d]. unfold attach_step.
  destruct (0 <? id + start); [|by intros [= <-]].
  intros Hstep. simplify_option_eq.
  destruct (_ <? _)%Z; simplify_eq; [|done].
  eapply id_rows_copy; [done..|lia].
Qed.

Lemma attach_id_rows (ids : list Z) (W start : nat) (A : dmatrix)
    (res res' : matrix) :
  id_rows ids W res → attach start A res = Some res' → id_rows ids W res'.
Proof.
  intros Hres. unfold attach. apply oloop_inv; [|done].
  intros ??? _. apply attach_step_id_rows.
Qed.

Lemma seed_row_id_row (cls : matrix) (W : nat) (x : Z) (r r' : list Z) :
  length r = W → head r = Some x →
  seed_row cls (typed_of cls) r = Some r' →
  length r' = W ∧ head r' = Some x.
Proof.
  intros Hlen Hhead. unfold seed_row. rewrite Hhead. simpl.
  destruct (typed_of cls !! x) as [j|] eqn:Hj; [|by intros [= <-]].
  destruct (cls !! j) as [v|] eqn:Hv; [|done]. simpl.
  apply typed_of_Some in Hj as [Hj _].
  unfold column0 in Hj. rewrite list_lookup_fmap, Hv in Hj. simpl in Hj.
  unfold assign_row.
  destruct (Nat.eqb_spec (length v) (length r)) as [Heq|Hne].
  - intros [= <-]. split; [congruence|].
    destruct v; simpl in *; [|congruence]. destruct r; simpl in *; [done|lia].
  - destruct v as [|y [|? ?]]; try done. intros [= <-].
    rewrite length_replicate. split; [done|].
    simpl in Hj. simplify_eq. destruct r; [done|]. done.
Qed.

Lemma seed_id_rows (cls : matrix) (ids : list Z) (W : nat)
    (res res' : matrix) :
  id_rows ids W res →
  mapM (seed_row cls (typed_of cls)) res = Some res' →
  id_rows ids W res'.
Proof.
  intros Hres Hseed. apply mapM_Some_1 in Hseed.
  apply Forall2_same_length_lookup. split.
  { by rewrite (Forall2_length _ _ _ Hres), (Forall2_length _ _ _ Hseed). }
  intros p x r' Hx Hr'.
  destruct (Forall2_lookup_r _ _ _ _ _ Hseed Hr') as (r & Hr & Hrow).
  destruct (id_rows_lookup _ _ _ _ _ Hres Hr) as (Hlen & x' & Hx' & Hhead).
  simplify_eq. by eapply seed_row_id_row.
Qed.

Lemma id_rows_shape (ids : list Z) (W : nat) (res : matrix) :
  id_rows ids W res →
  length res = length ids ∧ column0 res = ids ∧
  Forall (λ r, length r = W) res ∧ set_column0 ids res = res.
Proof.
  intros Hres. pose proof (Forall2_length _ _ _ Hres) as Hlen.
  split_and!; [done| | |].
  - apply list_eq. intros p. unfold column0. rewrite list_lookup_fmap.
    destruct (res !! p) as [r|] eqn:Hr; simpl.
    + destruct (id_rows_lookup _ _ _ _ _ Hres Hr) as (_ & x & -> & ->). done.
    + symmetry. apply lookup_ge_None. apply lookup_ge_None in Hr. lia.
  - apply Forall_forall. intros r Hr. apply list_elem_of_lookup in Hr as [p Hr].
    by destruct (id_rows_lookup _ _ _ _ _ Hres Hr) as (? & _).
  - apply list_eq. intros p. rewrite set_column0_lookup.
    destruct (res !! p) as [r|] eqn:Hr; simpl.
    + destruct (id_rows_lookup _ _ _ _ _ Hres Hr) as (_ & x & -> & Hh). simpl.
      f_equal. apply list_insert_id. by rewrite <-head_lookup.
    + by destruct (ids !! p).
Qed.

Lemma order_profiles_perm (append : option matrix) (mat0 : matrix) :
  (order_profiles append mat0).1.1 ≡ₚ mat0.
Proof.
  destruct append as [cls|].
  - destruct (order_profiles (Some cls) mat0) as [[mat typed] start] eqn:Ho.
    by destruct (order_profiles_append cls mat0 mat typed start Ho) as (_ & ? & _).
  - rewrite order_profiles_full. apply stable_sort_by_perm.
Qed.

Lemma order_profiles_pos (append : option matrix) (t : table) :
  Forall (λ x, (0 < x)%Z) (column0 (order_profiles append (prepare_mat t)).1.1).
Proof.
  rewrite (column0_perm _ _ (order_profiles_perm append (prepare_mat t))).
  apply prepare_mat_pos.
Qed.

Lemma order_profiles_typed (append : option matrix) (mat0 : matrix) :
  (order_profiles append mat0).1.2
  = match append with Some cls => typed_of cls | None => ∅ end.
Proof.
  destruct append as [cls|]; [|done].
  unfold order_profiles. by destruct (0 <? size (typed_of cls)).
Qed.

(** The stages of a run, with the order of the profiles named. *)
Lemma run_stages
    (getDistance : dist_mode → matrix → nat → dmatrix)
    (linkage : list nat → option (list merge_event))
    (append : option matrix) (t : table) (out : matrix) :
  hierCC getDistance linkage append t = Some out →
  ∃ res0 res1 res2,
    init_res (order_profiles append (prepare_mat t)).1.1 = Some res0 ∧
    match append with
    | Some cls => mapM (seed_row cls (order_profiles append (prepare_mat t)).1.2) res0
    | None => full_clustering getDistance linkage
                (order_profiles append (prepare_mat t)).1.1
                (order_profiles append (prepare_mat t)).2 res0
    end = Some res1 ∧
    attach (order_profiles append (prepare_mat t)).2
           (getDistance asyn_dist (order_profiles append (prepare_mat t)).1.1
                        (order_profiles append (prepare_mat t)).2) res1
    = Some res2 ∧
    out = set_column0 (column0 (order_profiles append (prepare_mat t)).1.1) res2.
Proof.
  unfold hierCC, hierCC_mat.
  destruct (order_profiles append (prepare_mat t)) as [[mat typed] start].
  simpl. intros Hrun.
  destruct (init_res mat) as [res0|]; [|done]. simpl in Hrun.
  destruct (match append with Some _ => _ | None => _ end) as [res1|] eqn:H1;
    [|done]. simpl in Hrun.
  destruct (attach _ _ _) as [res2|] eqn:H2; [|done]. simpl in Hrun.
  simplify_eq. by exists res0, res1, res2.
Qed.

Lemma stages_id_rows
    (getDistance : dist_mode → matrix → nat → dmatrix)
    (linkage : list nat → option (list merge_event))
    (append : option matrix) (t : table) (res0 res1 res2 : matrix) :
  let mat := (order_profiles append (prepare_mat t)).1.1 in
  let typed := (order_profiles append (prepare_mat t)).1.2 in
  let start := (order_profiles append (prepare_mat t)).2 in
  init_res mat = Some res0 →
  match append with
  | Some cls => mapM (seed_row cls typed) res0
  | None => full_clustering getDistance linkage mat start res0
  end = Some res1 →
  attach start (getDistance asyn_dist mat start) res1 = Some res2 →
  res0 = (λ x, replicate (shape1 mat + 1) x) <$> column0 mat ∧
  id_rows (column0 mat) (shape1 mat + 1) res0 ∧
  id_rows (column0 mat) (shape1 mat + 1) res1 ∧
  id_rows (column0 mat) (shape1 mat + 1) res2.
Proof.
  intros mat typed start Hinit H1 H2.
  apply init_res_pos in Hinit; [|apply order_profiles_pos].
  assert (id_rows (column0 mat) (shape1 mat + 1) res0) as Hr0.
  { rewrite Hinit. apply id_rows_init. lia. }
  assert (id_rows (column0 mat) (shape1 mat + 1) res1) as Hr1.
  { destruct append as [cls|].
    - unfold typed in H1. rewrite order_profiles_typed in H1.
      by eapply seed_id_rows.
    - unfold full_clustering in H1. simplify_option_eq.
      by eapply encode_id_rows. }
  split_and!; [done..|]. by eapply attach_id_rows.
Qed.

(** X6. No stage of a run changes the id column: after the seeding or the
    encoding, and after the attachment, column 0 still holds the ids in
    processing order, so the assignment [res.T[0] = mat.T[0]] of line 116
    leaves the array as it is. *)
Theorem id_column_never_changes
    (getDistance : dist_mode → matrix → nat → dmatrix)
    (linkage : list nat → option (list merge_event))
    (append : option matrix) (t : table) (res0 res1 res2 : matrix) :
  let mat := (order_profiles append (prepare_mat t)).1.1 in
  let typed := (order_profiles append (prepare_mat t)).1.2 in
  let start := (order_profiles append (prepare_mat t)).2 in
  init_res mat = Some res0 →
  match append with
  | Some cls => mapM (seed_row cls typed) res0
  | None => full_clustering getDistance linkage mat start res0
  end = Some res1 →
  attach start (getDistance asyn_dist mat start) res1 = Some res2 →
  column0 res1 = column0 mat ∧ column0 res2 = column0 mat ∧
  set_column0 (column0 mat) res2 = res2.
Proof.
  intros mat typed start Hinit H1 H2.
  destruct (stages_id_rows getDistance linkage append t res0 res1 res2
              Hinit H1 H2) as (_ & _ & Hr1 & Hr2).
  apply id_rows_shape in Hr1 as (_ & Hc1 & _).
  apply id_rows_shape in Hr2 as (_ & Hc2 & _ & Hset). done.
Qed.

(** X4. The array saved by a run, with or without [--append], has one row
    for each loaded profile, in processing order, with the profile id in
    column 0, and every row has [mat.shape[1] + 1] columns. *)
Theorem run_output_shape
    (getDistance : dist_mode → matrix → nat → dmatrix)
    (linkage : list nat → option (list merge_event))
    (append : option matrix) (t : table) (out : matrix) :
  let mat := (order_profiles append (prepare_mat t)).1.1 in
  hierCC getDistance linkage append t = Some out →
  length out = length mat ∧ column0 out = column0 mat ∧
  Forall (λ r, length r = shape1 mat + 1) out.
Proof.
  intros mat Hrun.
  destruct (run_stages _ _ _ _ _ Hrun) as (res0 & res1 & res2 & H0 & H1 & H2 & ->).
  destruct (stages_id_rows getDistance linkage append t res0 res1 res2
              H0 H1 H2) as (_ & _ & _ & Hr2).
  apply id_rows_shape in Hr2 as (Hlen & Hcol & Hw & ->).
  by rewrite column0_length in Hlen.
Qed.

(** X7. The replacement of negative entries of line 84 never fires: ids
    are positive after [prepare_mat], so the initial code matrix of a run
    on at least one profile holds in every row the id of the profile, in
    all [mat.shape[1] + 1] columns. *)
Theorem init_res_rows_are_ids (append : option matrix) (t : table) :
  let mat := (order_profiles append (prepare_mat t)).1.1 in
  mat ≠ [] →
  init_res mat = Some ((λ x, replicate (shape1 mat + 1) x) <$> column0 mat).
Proof.
  intros mat Hne.
  destruct (init_res mat) as [res0|] eqn:Hinit.
  - f_equal. apply init_res_pos; [apply order_profiles_pos|done].
  - unfold init_res in Hinit. destruct mat; [done|]. done.
Qed.

(** ** Runs with [--append]: row order, failure, origin of the codes *)

Lemma typed_key_iff (cls : matrix) (x : Z) :
  (0 < x)%Z → is_Some (typed_of cls !! x) ↔ x ∈ column0 cls.
Proof.
  intros Hpos. split.
  - intros [j Hj]. apply typed_of_Some in Hj as [Hj _].
    apply list_elem_of_lookup. eauto.
  - intros Hin. by apply typed_of_is_Some.
Qed.

Lemma order_profiles_column0 (cls : matrix) (mat0 : matrix) :
  Forall (λ x, (0 < x)%Z) (column0 mat0) →
  column0 (order_profiles (Some cls) mat0).1.1
  = filter (λ x, x ∈ column0 cls) (column0 mat0)
    ++ filter (λ x, x ∉ column0 cls) (column0 mat0).
Proof.
  intros Hpos. unfold order_profiles.
  destruct (Nat.ltb_spec 0 (size (typed_of cls))) as [Hs|Hs]; simpl.
  - unfold column0 at 1. rewrite fmap_app. fold (column0).
    rewrite !column0_filter. f_equal.
    + apply filter_ext_Forall. eapply Forall_impl; [done|].
      intros x Hx. simpl. rewrite bool_decide_eq_true. by apply typed_key_iff.
    + apply filter_ext_Forall. eapply Forall_impl; [done|].
      intros x Hx. simpl. rewrite bool_decide_eq_false.
      by rewrite (typed_key_iff cls x Hx).
  - assert (typed_of cls = ∅) as Hempty by (apply map_size_empty_inv; lia).
    assert (Forall (λ x, x ∉ column0 cls) (column0 mat0)) as Hnot.
    { eapply Forall_impl; [done|]. intros x Hx Hin. simpl in Hx.
      apply (typed_key_iff cls x Hx) in Hin as [j Hj].
      by rewrite Hempty, lookup_empty in Hj. }
    rewrite (filter_all (λ x, x ∉ column0 cls)) by done.
    rewrite (filter_none (λ x, x ∈ column0 cls)); [done|].
    eapply Forall_impl; [done|]. simpl. tauto.
Qed.

(** X12. A run with [--append] saves the rows of the profiles whose id
    occurs in the snapshot first and the rows of the new profiles after
    them, each group in file order. *)
Theorem append_run_row_order
    (getDistance : dist_mode → matrix → nat → dmatrix)
    (linkage : list nat → option (list merge_event))
    (cls : matrix) (t : table) (out : matrix) :
  hierCC getDistance linkage (Some cls) t = Some out →
  column0 out
  = filter (λ x, x ∈ column0 cls) (column0 (prepare_mat t))
    ++ filter (λ x, x ∉ column0 cls) (column0 (prepare_mat t)).
Proof.
  intros Hrun.
  destruct (run_stages _ _ _ _ _ Hrun) as (res0 & res1 & res2 & H0 & H1 & H2 & ->).
  destruct (stages_id_rows getDistance linkage (Some cls) t res0 res1 res2
              H0 H1 H2) as (_ & _ & _ & Hr2).
  apply id_rows_shape in Hr2 as (_ & Hcol & _ & ->).
  rewrite Hcol. apply order_profiles_column0, prepare_mat_pos.
Qed.

(** X13. A run with [--append] fails when a loaded profile is typed and
    its snapshot row has neither one column nor as many columns as the code
    matrix: the assignment of line 91 cannot broadcast it. *)
Theorem append_snapshot_width_mismatch
    (getDistance : dist_mode → matrix → nat → dmatrix)
    (linkage : list nat → option (list merge_event))
    (cls : matrix) (t : table) (x : Z) (j : nat) (v : list Z) :
  x ∈ column0 (prepare_mat t) →
  typed_of cls !! x = Some j → cls !! j = Some v →
  length v ≠ 1 →
  length v ≠ shape1 (order_profiles (Some cls) (prepare_mat t)).1.1 + 1 →
  hierCC getDistance linkage (Some cls) t = None.
Proof.
  intros Hx Hj Hv Hone Hwide.
  destruct (hierCC _ _ _ _) as [out|] eqn:Hrun; [exfalso|done].
  unfold hierCC in Hrun.
  destruct (append_run_stages _ _ _ _ _ (prepare_mat_pos t) Hrun)
    as (mat & start & res1 & res2 & Ho & Hpos' & Hseed & Hatt & Hlen & ->).
  rewrite Ho in Hwide. simpl in Hwide.
  destruct (order_profiles_append _ _ _ _ _ Ho) as (_ & Hperm & _).
  rewrite <-(column0_perm _ _ Hperm) in Hx.
  apply list_elem_of_lookup in Hx as [k Hk].
  destruct (seed_rows_lookup _ _ _ _ _ k x Hseed Hk) as (_ & r & Hr & Hrow).
  rewrite Hj in Hrow. destruct Hrow as (v' & Hv' & Hassign).
  simplify_eq. unfold assign_row in Hassign.
  rewrite length_replicate in Hassign.
  destruct (Nat.eqb_spec (length v) (shape1 mat + 1)); [done|].
  destruct v as [|? [|? ?]]; simpl in *; done.
Qed.

Lemma rows_in_mono (S S' : list Z) (res : matrix) :
  (∀ x, x ∈ S → x ∈ S') → rows_in S res → rows_in S' res.
Proof.
  intros HS Hres. unfold rows_in. eapply Forall_impl; [exact Hres|].
  intros r Hr. simpl in Hr. eapply Forall_impl; [exact Hr|]. apply HS.
Qed.

Lemma seed_rows_in (S : list Z) (cls : matrix) (typed : gmap Z nat)
    (res res' : matrix) :
  rows_in S res → rows_in S cls →
  mapM (seed_row cls typed) res = Some res' → rows_in S res'.
Proof.
  intros Hres Hcls Hseed. apply mapM_Some_1 in Hseed.
  apply Forall_forall. intros r' Hr'. apply list_elem_of_lookup in Hr' as [p Hr'].
  destruct (Forall2_lookup_r _ _ _ _ _ Hseed Hr') as (r & Hr & Hrow).
  unfold seed_row in Hrow.
  destruct (head r) as [x|]; [|done]. simpl in Hrow.
  destruct (typed !! x) as [j|].
  - destruct (cls !! j) as [v|] eqn:Hv; [|done]. simpl in Hrow.
    eapply Forall_lookup_1 in Hcls; [|done].
    unfold assign_row in Hrow. destruct (_ =? _); [by simplify_eq|].
    destruct v as [|y [|? ?]]; try done. simplify_eq.
    apply Forall_replicate. by apply Forall_inv in Hcls.
  - simplify_eq. by eapply Forall_lookup_1 in Hres.
Qed.

(** X14. A run with [--append] invents no value: every entry of the saved
    array is the id of a loaded profile or an entry of a snapshot row. *)
Theorem append_codes_are_ids_or_snapshot_values
    (getDistance : dist_mode → matrix → nat → dmatrix)
    (linkage : list nat → option (list merge_event))
    (cls : matrix) (t : table) (out : matrix) :
  hierCC getDistance linkage (Some cls) t = Some out →
  ∀ r x, r ∈ out → x ∈ r →
    x ∈ column0 (prepare_mat t) ∨ ∃ v, v ∈ cls ∧ x ∈ v.
Proof.
  intros Hrun r x Hr Hx. unfold hierCC in Hrun.
  destruct (append_run_stages _ _ _ _ _ (prepare_mat_pos t) Hrun)
    as (mat & start & res1 & res2 & Ho & _ & Hseed & Hatt & _ & ->).
  destruct (order_profiles_append _ _ _ _ _ Ho) as (_ & Hperm & _).
  set (S := column0 mat ++ mjoin cls).
  assert (rows_in S cls) as Hcls.
  { apply Forall_forall. intros v Hv. apply Forall_forall. intros y Hy.
    apply elem_of_app. right. apply list_elem_of_join. eauto. }
  assert (rows_in S res1) as H1.
  { eapply seed_rows_in; [|exact Hcls|exact Hseed].
    eapply rows_in_mono; [|apply init_rows_in].
    intros y Hy. apply elem_of_app. by left. }
  assert (rows_in S res2) as H2 by by eapply attach_rows_in.
  assert (rows_in S (set_column0 (column0 mat) res2)) as H3.
  { apply set_column0_rows_in; [|done]. apply Forall_forall.
    intros y Hy. apply elem_of_app. by left. }
  eapply Forall_forall in H3; [|done].
  eapply Forall_forall in H3; [|done].
  apply elem_of_app in H3 as [H3|H3].
  - left. by rewrite <-(column0_perm _ _ Hperm).
  - right. apply list_elem_of_join in H3 as (v & ? & ?). eauto.
Qed.

(** ** The dictionary [typed] keeps the last row of an id *)

Lemma dict_of_snoc (l : list (Z * nat)) (k : Z) (v : nat) :
  dict_of (l ++ [(k, v)]) = <[k := v]> (dict_of l).
Proof. unfold dict_of. by rewrite reverse_snoc. Qed.

Lemma enumerate_snoc {A : Type} (l : list A) (x : A) :
  enumerate (l ++ [x]) = enumerate l ++ [(length l, x)].
Proof.
  unfold enumerate. rewrite length_app. simpl.
  rewrite seq_app. simpl. rewrite zip_with_app by (by rewrite length_seq).
  done.
Qed.

Lemma typed_of_snoc (cls : matrix) (r : list Z) :
  typed_of (cls ++ [r])
  = if decide (0 < default 0 (head r))%Z
    then <[default 0%Z (head r) := length cls]> (typed_of cls)
    else typed_of cls.
Proof.
  unfold typed_of. unfold column0. rewrite fmap_app. simpl.
  rewrite enumerate_snoc, filter_app, length_fmap.
  rewrite filter_cons, filter_nil. simpl.
  case_decide.
  - rewrite fmap_app. by apply (dict_of_snoc _ (default 0%Z (head r)) (length cls)).
  - by rewrite app_nil_r.
Qed.

Lemma typed_of_last (cls : matrix) (x : Z) (j j' : nat) :
  typed_of cls !! x = Some j → j < j' → column0 cls !! j' ≠ Some x.
Proof.
  revert j j'. induction cls as [|r cls IH] using rev_ind; intros j j' Hj Hlt.
  { done. }
  rewrite typed_of_snoc in Hj.
  unfold column0. rewrite fmap_app. fold (column0 cls). simpl.
  destruct (decide (j' < length cls)) as [Hin|Hout].
  - rewrite lookup_app_l by (by rewrite column0_length).
    case_decide as Hpos.
    + destruct (decide (default 0%Z (head r) = x)) as [Heq|Hne].
      * rewrite Heq, lookup_insert_eq in Hj. simplify_eq. lia.
      * rewrite lookup_insert_ne in Hj by done. by eapply IH.
    + by eapply IH.
  - rewrite lookup_app_r by (rewrite column0_length; lia).
    rewrite column0_length.
    destruct (j' - length cls) as [|d] eqn:Hd; simpl; [|done].
    intros [= Heq]. case_decide as Hpos.
    + rewrite Heq, lookup_insert_eq in Hj. simplify_eq. lia.
    + apply typed_of_Some in Hj as [_ Hx]. lia.
Qed.

(** X15. When the snapshot holds the id of a typed profile in more than
    one row, the saved row of the profile is the last of them: the
    dictionary [typed] keeps the last position of a key. *)
Theorem append_uses_last_snapshot_row
    (getDistance : dist_mode → matrix → nat → dmatrix)
    (linkage : list nat → option (list merge_event))
    (cls : matrix) (t : table) (out : matrix) :
  (∀ v, v ∈ cls → 2 ≤ length v) →
  hierCC getDistance linkage (Some cls) t = Some out →
  ∀ k r x, out !! k = Some r → head r = Some x → x ∈ column0 cls →
    ∃ j, cls !! j = Some r ∧
         ∀ j' v, j < j' → cls !! j' = Some v → head v ≠ Some x.
Proof.
  intros Hcls Hrun k r x Hr Hx Hin. unfold hierCC in Hrun.
  pose proof (prepare_mat_pos t) as Hpos.
  destruct (append_out_ids _ _ _ _ _ k r x Hpos Hrun Hr Hx) as [Hk Hxpos].
  destruct (typed_of_is_Some cls x Hin Hxpos) as [j Hj].
  destruct (append_typed_row _ _ _ _ _ k x j Hpos Hcls Hrun Hk Hj)
    as (v & Hv & Hout & _).
  exists j. split; [congruence|].
  intros j' v' Hlt Hv' Hhead.
  apply (typed_of_last cls x j j' Hj Hlt).
  unfold column0. rewrite list_lookup_fmap, Hv'. simpl. by rewrite Hhead.
Qed.

(** ** Consequences of single linkage in a full run *)

Lemma is_min_id_same (ids : list Z) (conn : relation nat) (p : nat) (c c' : Z) :
  is_min_id ids conn p c → is_min_id ids conn p c' → c = c'.
Proof.
  intros [(q & Hq & Hc) Hmin] [(q' & Hq' & Hc') Hmin'].
  specialize (Hmin q' c' Hq' Hc'). specialize (Hmin' q c Hq Hc). lia.
Qed.

(** X8. The array saved by a full run does not depend on which
    single-linkage dendrogram [linkage] returns: two runs on the same
    profile file with two linkage routines that both meet the contract save
    the same array (unique ids, and both distance queries agree). *)
Theorem full_run_independent_of_dendrogram
    (getDistance : dist_mode → matrix → nat → dmatrix)
    (linkage1 linkage2 : list nat → option (list merge_event))
    (t : table) (out1 out2 : matrix) :
  let mat := stable_sort_by absence (prepare_mat t) in
  NoDup (column0 mat) →
  linkage_contract getDistance linkage1 mat →
  linkage_contract getDistance linkage2 mat →
  asyn_contract getDistance mat →
  hierCC getDistance linkage1 None t = Some out1 →
  hierCC getDistance linkage2 None t = Some out2 →
  out1 = out2.
Proof.
  intros mat Hnd Hl1 Hl2 Hasyn Hrun1 Hrun2.
  destruct (full_run_encoded getDistance linkage1 t out1 Hnd Hl1 Hasyn Hrun1)
    as (_ & res1 & _ & _ & _ & -> & Hlen1 & Hw1 & Hc1).
  destruct (full_run_encoded getDistance linkage2 t out2 Hnd Hl2 Hasyn Hrun2)
    as (_ & res2 & _ & _ & _ & -> & Hlen2 & Hw2 & Hc2).
  fold mat in Hlen1, Hw1, Hc1, Hlen2, Hw2, Hc2. fold mat.
  apply list_eq. intros p. rewrite !set_column0_lookup.
  destruct (column0 mat !! p) as [x|] eqn:Hx; [|done]. simpl.
  assert (p < length mat) as Hp.
  { rewrite <-(column0_length mat). by eapply lookup_lt_Some. }
  destruct (lookup_lt_is_Some_2 res1 p) as [r1 Hr1]; [lia|].
  destruct (lookup_lt_is_Some_2 res2 p) as [r2 Hr2]; [lia|].
  rewrite Hr1, Hr2. simpl. f_equal.
  pose proof (Hw1 p r1 Hr1) as Hlr1. pose proof (Hw2 p r2 Hr2) as Hlr2.
  apply list_eq. intros [|j].
  { rewrite !list_lookup_insert_eq; [done|lia..]. }
  rewrite !list_lookup_insert_ne by done.
  destruct (decide (S j < shape1 mat + 1)) as [Hj|Hj].
  - destruct (Hc1 p j Hp) as (c1 & Hcode1 & Hm1); [unfold n_loci; lia|].
    destruct (Hc2 p j Hp) as (c2 & Hcode2 & Hm2); [unfold n_loci; lia|].
    unfold code in Hcode1, Hcode2. rewrite Hr1 in Hcode1. rewrite Hr2 in Hcode2.
    simpl in Hcode1, Hcode2. rewrite Hcode1, Hcode2. f_equal.
    by eapply is_min_id_same.
  - rewrite !(proj2 (lookup_ge_None _ _)); [done|lia..].
Qed.

(** X9. In a full run on profiles with unique ids, in which [linkage]
    returns a single-linkage dendrogram and both distance queries agree,
    the code of a profile never grows with the threshold, and at no
    threshold is it larger than the id of the profile. *)
Theorem full_run_codes_decrease
    (getDistance : dist_mode → matrix → nat → dmatrix)
    (linkage : list nat → option (list merge_event))
    (t : table) (out : matrix) :
  let mat := stable_sort_by absence (prepare_mat t) in
  NoDup (column0 mat) →
  linkage_contract getDistance linkage mat →
  asyn_contract getDistance mat →
  hierCC getDistance linkage None t = Some out →
  ∀ p x t1 t2, column0 mat !! p = Some x → t1 ≤ t2 → t2 ≤ n_loci mat →
    ∃ c1 c2, code out p t1 = Some c1 ∧ code out p t2 = Some c2 ∧
             (c2 ≤ c1)%Z ∧ (c1 ≤ x)%Z.
Proof.
  intros mat Hnd Hlink Hasyn Hrun p x t1 t2 Hx Ht Ht2.
  destruct (full_run_encoded getDistance linkage t out Hnd Hlink Hasyn Hrun)
    as (_ & res1 & _ & _ & _ & -> & Hlen & _ & Hcodes).
  fold mat in Hlen, Hcodes.
  assert (p < length mat) as Hp.
  { rewrite <-(column0_length mat). by eapply lookup_lt_Some. }
  rewrite !set_column0_code by (by rewrite column0_length).
  destruct (Hcodes p t1 Hp) as (c1 & Hc1 & (q1 & Hq1 & Hid1) & Hmin1); [lia|].
  destruct (Hcodes p t2 Hp) as (c2 & Hc2 & _ & Hmin2); [lia|].
  exists c1, c2. split_and!; [done..| |].
  - apply (Hmin2 q1 c1); [|done]. by apply (connected_mono _ _ t1 t2).
  - apply (Hmin1 p x); [reflexivity|done].
Qed.

(** X10. In a full run on profiles with unique ids, in which [linkage]
    returns a single-linkage dendrogram and both distance queries agree,
    at a threshold that no pairwise distance exceeds every profile has the
    same code, the least id of the file. *)
Theorem full_run_one_cluster
    (getDistance : dist_mode → matrix → nat → dmatrix)
    (linkage : list nat → option (list merge_event))
    (t : table) (out : matrix) (th : nat) :
  let mat := stable_sort_by absence (prepare_mat t) in
  NoDup (column0 mat) →
  linkage_contract getDistance linkage mat →
  asyn_contract getDistance mat →
  hierCC getDistance linkage None t = Some out →
  th ≤ n_loci mat →
  (∀ p q, p < length mat → q < length mat →
     pair_distance getDistance mat p q ≤ th) →
  ∀ p, p < length mat → code out p th = list_minZ (column0 mat).
Proof.
  intros mat Hnd Hlink Hasyn Hrun Hth Hd p Hp.
  destruct (full_run_encoded getDistance linkage t out Hnd Hlink Hasyn Hrun)
    as (_ & res1 & _ & _ & _ & -> & Hlen & _ & Hcodes).
  fold mat in Hlen, Hcodes.
  rewrite !set_column0_code by (by rewrite column0_length).
  destruct (Hcodes p th Hp Hth) as (c & Hc & (q & Hq & Hid) & Hmin).
  rewrite Hc.
  destruct (list_minZ (column0 mat)) as [m|] eqn:Hm.
  - apply list_minZ_spec in Hm as [Hin Hle]. f_equal.
    apply list_elem_of_lookup in Hin as [pm Hpm].
    assert (pm < length mat) as Hpmlt.
    { rewrite <-(column0_length mat). by eapply lookup_lt_Some. }
    assert (c ≤ m)%Z.
    { apply (Hmin pm m); [|done]. apply connected_linked; auto. }
    assert (m ≤ c)%Z.
    { apply Hle. apply list_elem_of_lookup. eauto. }
    lia.
  - destruct (column0 mat) eqn:Hids; [|done]. by rewrite lookup_nil in Hid.
Qed.

(** ** The distances handed to squareform *)

(** X11. The array that line 94 builds from [dist.dist] and hands to
    [squareform] has the shape of [dist.dist] and is symmetric: its entry
    [(i, j)] is the sum of the entries [(i, j)] and [(j, i)]. *)
Theorem add_transpose_symmetric (L D : dmatrix) (i j : nat) :
  add_transpose L = Some D →
  length D = length L ∧
  dist_at D i j = dist_at D j i ∧
  (i < length L → j < length L →
   ∃ a b, dist_at L i j = Some a ∧ dist_at L j i = Some b ∧
          dist_at D i j = Some (a + b)).
Proof.
  unfold add_transpose.
  destruct (forallb _ L) eqn:Hsq; [|done]. intros [= <-].
  rewrite length_imap. split; [done|].
  assert (∀ i r, L !! i = Some r → length r = length L) as Hrow.
  { intros k r Hr. rewrite forallb_forall in Hsq.
    apply Nat.eqb_eq, Hsq. apply list_elem_of_In, list_elem_of_lookup. eauto. }
  assert (∀ i j, i < length L → j < length L →
    ∃ a b, dist_at L i j = Some a ∧ dist_at L j i = Some b ∧
      dist_at (imap (λ i r, imap (λ j x, x + default 0 (dist_at L j i)) r) L) i j
      = Some (a + b)) as Hsum.
  { intros i' j' Hi Hj.
    destruct (lookup_lt_is_Some_2 L i' Hi) as [ri Hri].
    destruct (lookup_lt_is_Some_2 L j' Hj) as [rj Hrj].
    destruct (lookup_lt_is_Some_2 ri j') as [a Ha]; [by rewrite (Hrow i' ri)|].
    destruct (lookup_lt_is_Some_2 rj i') as [b Hb]; [by rewrite (Hrow j' rj)|].
    exists a, b. unfold dist_at at 1 2. rewrite Hri, Hrj. simpl.
    split_and!; [done..|].
    unfold dist_at at 1. rewrite list_lookup_imap, Hri. simpl.
    rewrite list_lookup_imap, Ha. simpl. unfold dist_at.
    rewrite Hrj. simpl. by rewrite Hb. }
  split; [|apply Hsum].
  destruct (decide (i < length L)) as [Hi|Hi];
    destruct (decide (j < length L)) as [Hj|Hj].
  - destruct (Hsum i j Hi Hj) as (a & b & Ha & Hb & ->).
    destruct (Hsum j i Hj Hi) as (a' & b' & Ha' & Hb' & ->).
    f_equal. assert (a' = b ∧ b' = a) as [-> ->] by (split; congruence). lia.
  - destruct (lookup_lt_is_Some_2 L i Hi) as [ri Hri].
    unfold dist_at. rewrite !list_lookup_imap, Hri. simpl.
    rewrite list_lookup_imap.
    rewrite (proj2 (lookup_ge_None ri j)) by (rewrite (Hrow i ri); [lia|done]).
    rewrite (proj2 (lookup_ge_None L j)) by lia. done.
  - destruct (lookup_lt_is_Some_2 L j Hj) as [rj Hrj].
    unfold dist_at. rewrite !list_lookup_imap, Hrj. simpl.
    rewrite list_lookup_imap.
    rewrite (proj2 (lookup_ge_None rj i)) by (rewrite (Hrow j rj); [lia|done]).
    rewrite (proj2 (lookup_ge_None L i)) by lia. done.
  - unfold dist_at. rewrite !list_lookup_imap.
    rewrite (proj2 (lookup_ge_None L i)) by lia.
    rewrite (proj2 (lookup_ge_None L j)) by lia. done.
Qed.

(** ** The text report *)

Lemma insert_row_perm (r : list Z) (l : matrix) : insert_row r l ≡ₚ r :: l.
Proof.
  induction l as [|y l IH]; simpl; [done|].
  destruct (row_id y <=? row_id r)%Z; [|done].
  rewrite IH. apply perm_swap.
Qed.

Lemma insert_row_sorted (r : list Z) (l : matrix) :
  StronglySorted (λ a b, (row_id a ≤ row_id b)%Z) l →
  StronglySorted (λ a b, (row_id a ≤ row_id b)%Z) (insert_row r l).
Proof.
  induction 1 as [|y l Hl IH Hy]; simpl.
  { repeat constructor. }
  destruct (Z.leb_spec (row_id y) (row_id r)) as [Hle|Hlt].
  - constructor; [done|].
    rewrite (insert_row_perm r l). by constructor.
  - constructor; [by constructor|]. constructor; [lia|].
    eapply Forall_impl; [done|]. simpl. intros; lia.
Qed.

Lemma argsort_rows_spec (res : matrix) :
  argsort_rows res ≡ₚ res ∧
  StronglySorted (λ a b, (row_id a ≤ row_id b)%Z) (argsort_rows res).
Proof.
  unfold argsort_rows.
  assert (∀ acc, StronglySorted (λ a b, (row_id a ≤ row_id b)%Z) acc →
    foldl (λ acc r, insert_row r acc) acc res ≡ₚ acc ++ res ∧
    StronglySorted (λ a b, (row_id a ≤ row_id b)%Z)
      (foldl (λ acc r, insert_row r acc) acc res)) as H.
  { induction res as [|r res IH]; simpl; intros acc Hacc.
    { by rewrite app_nil_r. }
    destruct (IH (insert_row r acc)) as [Hp Hs].
    { by apply insert_row_sorted. }
    split; [|done].
    rewrite Hp, insert_row_perm. by rewrite <-Permutation_middle. }
  apply (H []). constructor.
Qed.

(** X16. The text report of a run has the header line and one line for
    each row of the saved array, and the lines list the rows of the saved
    array in ascending order of id, whatever the processing order was. *)
Theorem report_lists_rows_by_id
    (getDistance : dist_mode → matrix → nat → dmatrix)
    (linkage : list nat → option (list merge_event))
    (append : option matrix) (t : table) (res : matrix) (lines : list string) :
  hierCC_files getDistance linkage append t = Some (res, lines) →
  hierCC getDistance linkage append t = Some res ∧
  length lines = S (length res) ∧
  ∃ rows,
    lines = report_header (n_loci (prepare_mat t)) :: (report_line <$> rows) ∧
    rows ≡ₚ res ∧
    StronglySorted (λ a b, (row_id a ≤ row_id b)%Z) rows.
Proof.
  unfold hierCC_files, hierCC. intros Hrun.
  destruct (hierCC_mat _ _ _ _) as [res'|]; [|done]. simpl in Hrun.
  simplify_eq. destruct (argsort_rows_spec res) as [Hperm Hsorted].
  split_and!; [done| |].
  - unfold report. simpl. by rewrite length_fmap, Hperm.
  - exists (argsort_rows res). by split_and!.
Qed.

(** ** Runs that return *)

Lemma oloop_progress {St A : Type} (P : St → Prop)
    (body : St → A → option St) (l : list A) (s : St) :
  (∀ s x, x ∈ l → P s → ∃ s', body s x = Some s' ∧ P s') →
  P s → ∃ s', oloop body s l = Some s' ∧ P s'.
Proof.
  revert s. induction l as [|x l IH]; intros s Hstep Hs.
  - by exists s.
  - rewrite oloop_cons.
    destruct (Hstep s x) as (s1 & -> & Hs1); [by left|done|]. simpl.
    apply IH; [|done]. intros s2 y Hy. apply Hstep. by right.
Qed.

Lemma argmin_is_Some (l : list nat) : l ≠ [] → is_Some (argmin l).
Proof. destruct l; [done|]. by eexists. Qed.

Lemma attach_step_progress (ids : list Z) (W start : nat) (res : matrix)
    (id : nat) (dv : list nat) :
  id_rows ids W res → id + start < length res →
  dv ≠ [] → Forall (λ x, x + 2 ≤ W) dv →
  is_Some (attach_step start res (id, dv)).
Proof.
  intros Hres Hk Hdv Hbound. unfold attach_step.
  destruct (Nat.ltb_spec 0 (id + start)) as [Hpos|_]; [|by eexists].
  destruct (argmin_is_Some (take (id + start) dv)) as [i Hi].
  { destruct dv; [done|]. by destruct (id + start); [lia|]. }
  rewrite Hi. simpl.
  apply argmin_spec in Hi as (v & Hv & _).
  apply lookup_take_Some in Hv as [Hv Hik]. rewrite Hv. simpl.
  destruct (lookup_lt_is_Some_2 res (id + start) Hk) as [r Hr].
  destruct (lookup_lt_is_Some_2 res i) as [ri Hri]; [lia|].
  rewrite Hr, Hri. simpl.
  destruct (id_rows_lookup _ _ _ _ _ Hres Hr) as (Hlr & _).
  destruct (id_rows_lookup _ _ _ _ _ Hres Hri) as (Hlri & _).
  eapply Forall_lookup_1 in Hbound; [|exact Hv]. simpl in Hbound.
  destruct (lookup_lt_is_Some_2 r (v + 1)) as [a Ha]; [lia|].
  destruct (lookup_lt_is_Some_2 ri (v + 1)) as [b Hb]; [lia|].
  rewrite Ha, Hb. simpl. destruct (b <? a)%Z; by eexists.
Qed.

Lemma attach_progress (ids : list Z) (W start : nat) (A : dmatrix)
    (res : matrix) :
  id_rows ids W res →
  (∀ dv, dv ∈ A → dv ≠ [] ∧ Forall (λ x, x + 2 ≤ W) dv) →
  is_Some (attach start A res).
Proof.
  intros Hres HA. unfold attach.
  pose proof (Forall2_length _ _ _ Hres) as Hlen.
  destruct (oloop_progress (id_rows ids W) (attach_step start)
              (enumerate (take (length res - start) A)) res) as (res' & -> & _);
    [|done|by eexists].
  intros s [id dv] Hin Hs.
  apply elem_of_enumerate, lookup_take_Some in Hin as [Hin Hid].
  destruct (HA dv) as [Hne Hb]; [apply list_elem_of_lookup; eauto|].
  destruct (attach_step_progress ids W start s id dv) as [s' Hs']; [done| |done..|].
  { rewrite <-(Forall2_length _ _ _ Hs), Hlen. lia. }
  exists s'. split; [done|]. by eapply attach_step_id_rows.
Qed.

Lemma seed_progress (cls : matrix) (ids : list Z) (W : nat) (res : matrix) :
  id_rows ids W res →
  (∀ v, v ∈ cls → length v = W ∨ length v = 1) →
  is_Some (mapM (seed_row cls (typed_of cls)) res).
Proof.
  intros Hres Hcls. apply mapM_is_Some, Forall_forall. intros r Hr. simpl.
  apply list_elem_of_lookup in Hr as [p Hr].
  destruct (id_rows_lookup _ _ _ _ _ Hres Hr) as (Hlen & x & _ & Hhead).
  unfold seed_row. rewrite Hhead. simpl.
  destruct (typed_of cls !! x) as [j|] eqn:Hj; [|by eexists].
  apply typed_of_Some in Hj as [Hj _].
  unfold column0 in Hj. rewrite list_lookup_fmap in Hj.
  destruct (cls !! j) as [v|] eqn:Hv; [|done]. simpl.
  unfold assign_row.
  destruct (Nat.eqb_spec (length v) (length r)); [by eexists|].
  destruct (Hcls v) as [Hw|H1]; [apply list_elem_of_lookup; eauto|lia|].
  destruct v as [|y [|? ?]]; simpl in *; done.
Qed.

Lemma init_res_loaded (append : option matrix) (t : table) :
  prepare_mat t ≠ [] →
  init_res (order_profiles append (prepare_mat t)).1.1
  = Some ((λ x, replicate
                  (shape1 (order_profiles append (prepare_mat t)).1.1 + 1) x)
          <$> column0 (order_profiles append (prepare_mat t)).1.1).
Proof.
  intros Hne.
  destruct (init_res _) as [res0|] eqn:Hinit.
  - f_equal. apply init_res_pos; [apply order_profiles_pos|done].
  - unfold init_res in Hinit.
    destruct ((order_profiles append (prepare_mat t)).1.1) eqn:Hm; [|done].
    pose proof (order_profiles_perm append (prepare_mat t)) as Hp.
    rewrite Hm in Hp. symmetry in Hp. by apply Permutation_nil_r in Hp.
Qed.

(** X17. A run with [--append] returns an array whenever at least one
    profile is loaded, every snapshot row has as many columns as the code
    matrix or one column, and the array [dist] has no empty row and no
    entry above the number of loci: none of lines 67 to 116 raises. *)
Theorem append_run_returns
    (getDistance : dist_mode → matrix → nat → dmatrix)
    (linkage : list nat → option (list merge_event))
    (cls : matrix) (t : table) :
  let mat := (order_profiles (Some cls) (prepare_mat t)).1.1 in
  let start := (order_profiles (Some cls) (prepare_mat t)).2 in
  prepare_mat t ≠ [] →
  (∀ v, v ∈ cls → length v = shape1 mat + 1 ∨ length v = 1) →
  (∀ dv, dv ∈ getDistance asyn_dist mat start →
     dv ≠ [] ∧ Forall (λ x, x < shape1 mat) dv) →
  is_Some (hierCC getDistance linkage (Some cls) t).
Proof.
  intros mat start Hne Hcls Hdist. unfold hierCC, hierCC_mat.
  pose proof (init_res_loaded (Some cls) t Hne) as Hinit.
  pose proof (order_profiles_typed (Some cls) (prepare_mat t)) as Htyped.
  fold mat in Hinit. fold mat start.
  destruct (order_profiles (Some cls) (prepare_mat t)) as [[mat' typed] start'].
  simpl in *. subst mat start typed. rewrite Hinit. simpl.
  assert (id_rows (column0 mat') (shape1 mat' + 1)
            ((λ x, replicate (shape1 mat' + 1) x) <$> column0 mat')) as Hr0.
  { apply id_rows_init. lia. }
  destruct (seed_progress cls _ _ _ Hr0 Hcls) as [res1 Hseed].
  rewrite Hseed. simpl.
  assert (id_rows (column0 mat') (shape1 mat' + 1) res1) as Hr1
    by by eapply seed_id_rows.
  destruct (attach_progress _ _ start' (getDistance asyn_dist mat' start') res1 Hr1)
    as [res2 Hatt].
  { intros dv Hdv. destruct (Hdist dv Hdv) as [? Hb]. split; [done|].
    eapply Forall_impl; [done|]. simpl. intros; lia. }
  rewrite Hatt. simpl. by eexists.
Qed.

Lemma encode_rows_loop_progress (ids : list Z) (k : nat) (min_id : Z)
    (tgts : list Z) (res : matrix) :
  NoDup ids → length res = length ids →
  (∀ z, z ∈ tgts → z ∈ ids) → min_id ∈ ids →
  is_Some (oloop (λ res tgt,
                    it ← index_of ids !! tgt; im ← index_of ids !! min_id;
                    rt ← res !! it; rm ← res !! im;
                    Some (<[it := copy_from k rt rm]> res)) res tgts).
Proof.
  intros Hnd Hlen Htgts Hmin.
  match goal with |- is_Some (oloop ?body _ _) =>
    destruct (oloop_progress (λ r, length r = length ids) body tgts res)
      as (res' & -> & _); [|done|by eexists] end.
  intros s tgt Hin Hs.
  apply Htgts, list_elem_of_lookup in Hin as [p Hp].
  apply list_elem_of_lookup in Hmin as [pm Hpm].
  rewrite (index_of_NoDup ids tgt p Hnd Hp). simpl.
  rewrite (index_of_NoDup ids min_id pm Hnd Hpm). simpl.
  destruct (lookup_lt_is_Some_2 s p) as [rt Hrt].
  { rewrite Hs. by eapply lookup_lt_Some. }
  destruct (lookup_lt_is_Some_2 s pm) as [rm Hrm].
  { rewrite Hs. by eapply lookup_lt_Some. }
  rewrite Hrt, Hrm. simpl. eexists. split; [done|].
  by rewrite length_insert.
Qed.

Lemma encode_step_progress (ids : list Z) (d : nat → nat → nat)
    (W idx dk : nat) (cl : list (option (list nat)))
    (desc : list (option (list Z))) (res : matrix) (a b w : nat)
    (A B : list nat) :
  NoDup ids →
  enc_inv ids d W idx dk cl desc res → length desc = length cl →
  cl !! a = Some (Some A) → cl !! b = Some (Some B) →
  idx + length ids < length cl →
  is_Some (encode_step (length ids) (index_of ids) (desc, res)
                       (idx, (a, b, w))).
Proof.
  intros Hnd Hinv Hdl Ha Hb Hx.
  destruct Hinv as [Hlen _ _ Hfresh _ _ _ Hdesc _ _ _ _].
  destruct (Hdesc a A Ha) as (ma & za & Hda & _ & Hmema).
  destruct (Hdesc b B Hb) as (mb & zb & Hdb & _ & Hmemb).
  assert (a < idx + length ids ∧ b < idx + length ids) as [Halt Hblt].
  { split; apply Nat.lt_nge; intros Hge.
    - rewrite Hfresh in Ha; [done..|by eapply lookup_lt_Some].
    - rewrite Hfresh in Hb; [done..|by eapply lookup_lt_Some]. }
  assert (∀ z, z ∈ ma :: za → z ∈ ids) as Hina.
  { intros z Hz. apply Hmema in Hz as (p & _ & Hp).
    apply list_elem_of_lookup. eauto. }
  assert (∀ z, z ∈ mb :: zb → z ∈ ids) as Hinb.
  { intros z Hz. apply Hmemb in Hz as (p & _ & Hp).
    apply list_elem_of_lookup. eauto. }
  assert (∀ m zs min_id, list_minZ (m :: zs) = Some min_id →
            min_id ∈ m :: zs) as Hminin.
  { intros m zs min_id Hm. by apply list_minZ_spec in Hm as [? _]. }
  unfold encode_step. rewrite Hda, Hdb.
  cbn [mjoin option_join mbind option_bind head].
  destruct (mb <? ma)%Z.
  - rewrite Hdb, Hda. cbn [mjoin option_join mbind option_bind].
    destruct (list_minZ (mb :: zb)) as [min_id|] eqn:Hmin; [|done].
    cbn [mbind option_bind].
    rewrite (proj2 (Nat.ltb_lt _ _)) by lia.
    rewrite list_lookup_insert_ne, Hda by lia.
    cbn [mjoin option_join mbind option_bind].
    destruct (encode_rows_loop_progress ids (w + 1) min_id (ma :: za) res)
      as [res' Hl]; [done..| |by apply Hinb, (Hminin mb zb)|].
    { done. }
    rewrite Hl. by eexists.
  - rewrite Hdb, Hda. cbn [mjoin option_join mbind option_bind].
    destruct (list_minZ (ma :: za)) as [min_id|] eqn:Hmin; [|done].
    cbn [mbind option_bind].
    rewrite (proj2 (Nat.ltb_lt _ _)) by lia.
    rewrite list_lookup_insert_ne, Hdb by lia.
    cbn [mjoin option_join mbind option_bind].
    destruct (encode_rows_loop_progress ids (w + 1) min_id (mb :: zb) res)
      as [res' Hl]; [done..| |by apply Hina, (Hminin ma za)|].
    { done. }
    rewrite Hl. by eexists.
Qed.

Lemma encode_loop_progress (ids : list Z) (d : nat → nat → nat) (W : nat)
    (slc : list merge_event) :
  NoDup ids →
  ∀ idx dk cl desc res,
    enc_inv ids d W idx dk cl desc res → length desc = length cl →
    linkage_okb d (length ids) cl idx slc = true →
    is_Some (oloop (encode_step (length ids) (index_of ids)) (desc, res)
                   (zip (seq idx (length slc)) slc)).
Proof.
  intros Hnd. induction slc as [|[[a b] w] slc IH];
    intros idx dk cl desc res Hinv Hdl Hok.
  - by eexists.
  - apply linkage_okb_cons in Hok
      as (A & B & Ha & Hb & Hab & Hx & Hwit & Hsep & Hok).
    change (zip (seq idx (length ((a, b, w) :: slc))) ((a, b, w) :: slc))
      with ((idx, (a, b, w)) :: zip (seq (S idx) (length slc)) slc).
    rewrite oloop_cons.
    destruct (encode_step_progress ids d W idx dk cl desc res a b w A B)
      as [[desc1 res1] Hstep]; [done..|].
    rewrite Hstep. simpl.
    pose proof Hstep as Hinv'.
    eapply enc_inv_step in Hinv'; [|done..].
    apply (IH _ _ _ _ _ Hinv'); [|done].
    apply encode_step_inv in Hstep
      as (l0 & l1 & k0 & k1 & d0 & d1 & ld0 & ld1 & min_id & tgts
          & _ & _ & _ & _ & _ & _ & _ & -> & _ & _).
    unfold merge_nodes. by rewrite !length_insert.
Qed.

Lemma encode_progress (mat : matrix) (d : nat → nat → nat) (W : nat)
    (slc : list merge_event) :
  NoDup (column0 mat) →
  single_linkage_ok d (length mat) slc = true →
  is_Some (encode mat slc ((λ x, replicate W x) <$> column0 mat)).
Proof.
  intros Hnd Hok. unfold encode.
  apply andb_true_iff in Hok as [_ Hok].
  rewrite <-(column0_length mat) in *.
  destruct (encode_loop_progress (column0 mat) d W slc Hnd 0 0 _ _ _
              (enc_inv_init (column0 mat) d W)) as [[desc' res'] Hloop];
    [|done|].
  - unfold nodes0. by rewrite !length_app, !length_fmap, !length_replicate, length_seq.
  - unfold enumerate. rewrite Hloop. by eexists.
Qed.

(** X18. A full run returns an array whenever at least one profile is
    loaded, ids are unique, the distance stage succeeds, [linkage] returns a
    single-linkage dendrogram of these distances, and the array [dist] of
    the attachment has no empty row and no entry above the number of loci:
    the encoding and the attachment never raise. *)
Theorem full_run_returns
    (getDistance : dist_mode → matrix → nat → dmatrix)
    (linkage : list nat → option (list merge_event))
    (t : table) (D : dmatrix) (y : list nat) (slc : list merge_event) :
  let mat := stable_sort_by absence (prepare_mat t) in
  prepare_mat t ≠ [] →
  NoDup (column0 mat) →
  add_transpose (getDistance syn_dist mat 0) = Some D →
  squareform D = Some y →
  linkage y = Some slc →
  single_linkage_ok (dfun D) (length mat) slc = true →
  (∀ dv, dv ∈ getDistance asyn_dist mat 0 →
     dv ≠ [] ∧ Forall (λ x, x < shape1 mat) dv) →
  is_Some (hierCC getDistance linkage None t).
Proof.
  intros mat Hne Hnd HD Hy Hslc Hok Hdist. unfold hierCC, hierCC_mat.
  pose proof (init_res_loaded None t Hne) as Hinit.
  rewrite order_profiles_full in *. simpl in Hinit. fold mat in Hinit.
  fold mat. rewrite Hinit. simpl.
  unfold full_clustering. rewrite HD. simpl. rewrite Hy. simpl.
  rewrite Hslc. simpl.
  destruct (encode_progress mat (dfun D) (shape1 mat + 1) slc Hnd Hok)
    as [res1 Henc].
  rewrite Henc. simpl.
  assert (id_rows (column0 mat) (shape1 mat + 1) res1) as Hr1.
  { eapply encode_id_rows; [|exact Henc]. apply id_rows_init. lia. }
  destruct (attach_progress _ _ 0 (getDistance asyn_dist mat 0) res1 Hr1)
    as [res2 Hatt].
  { intros dv Hdv. destruct (Hdist dv Hdv) as [? Hb]. split; [done|].
    eapply Forall_impl; [done|]. simpl. intros; lia. }
  rewrite Hatt. simpl. by eexists.
Qed.

(** ** A run with [--append] on the snapshot of a full run *)

Lemma same_id_same_row (m : matrix) (r1 r2 : list Z) (x : Z) :
  NoDup (column0 m) → r1 ∈ m → r2 ∈ m →
  head r1 = Some x → head r2 = Some x → r1 = r2.
Proof.
  intros Hnd H1 H2 Hh1 Hh2.
  apply list_elem_of_lookup in H1 as [j1 H1].
  apply list_elem_of_lookup in H2 as [j2 H2].
  pose proof (column0_lookup m j1 r1 H1) as Hc1.
  pose proof (column0_lookup m j2 r2 H2) as Hc2.
  rewrite Hh1 in Hc1. rewrite Hh2 in Hc2. simpl in *.
  assert (j1 = j2) as -> by by eapply NoDup_lookup.
  congruence.
Qed.

(** X19. For profiles with unique ids, a run with [--append] on the
    snapshot that a full run saved for the same profile file changes no
    row: it saves the rows of the snapshot, each of them once, in the order
    of the profile file, so that every profile has the row it had,
    whatever distances the second run computes. *)
Theorem append_after_full_run_keeps_rows
    (getDistance getDistance' : dist_mode → matrix → nat → dmatrix)
    (linkage linkage' : list nat → option (list merge_event))
    (t : table) (out1 out2 : matrix) :
  NoDup (column0 (prepare_mat t)) →
  hierCC getDistance linkage None t = Some out1 →
  hierCC getDistance' linkage' (Some out1) t = Some out2 →
  column0 out2 = column0 (prepare_mat t) ∧
  out2 ≡ₚ out1 ∧
  ∀ r1 r2 x, r1 ∈ out1 → r2 ∈ out2 →
    head r1 = Some x → head r2 = Some x → r1 = r2.
Proof.
  intros Hnd Hrun1 Hrun2.
  destruct (run_stages _ _ _ _ _ Hrun1) as (a0 & a1 & a2 & Ha0 & Ha1 & Ha2 & Hout1).
  destruct (stages_id_rows getDistance linkage None t a0 a1 a2 Ha0 Ha1 Ha2)
    as (_ & _ & _ & Hrows1).
  pose proof Hrows1 as Hrows1'.
  apply id_rows_shape in Hrows1' as (Hlen1 & Hcol1 & Hw1 & Hset1).
  rewrite Hset1 in Hout1. subst a2.
  destruct (run_stages _ _ _ _ _ Hrun2) as (b0 & b1 & b2 & Hb0 & Hb1 & Hb2 & Hout2).
  destruct (stages_id_rows getDistance' linkage' (Some out1) t b0 b1 b2
              Hb0 Hb1 Hb2) as (_ & _ & _ & Hrows2).
  pose proof Hrows2 as Hrows2'.
  apply id_rows_shape in Hrows2' as (Hlen2 & Hcol2 & _ & Hset2).
  rewrite Hset2 in Hout2. subst b2.
  pose proof (prepare_mat_pos t) as Hpos.
  pose proof (column0_perm _ _ (order_profiles_perm None (prepare_mat t))) as Hp1.
  rewrite <-Hcol1 in Hp1.
  assert (Forall (λ x, x ∈ column0 out1) (column0 (prepare_mat t))) as Hall.
  { apply Forall_forall. intros x Hx. by rewrite Hp1. }
  assert (column0 out2 = column0 (prepare_mat t)) as Hids.
  { rewrite Hcol2, (order_profiles_column0 out1 _ Hpos).
    rewrite (filter_all (λ x, x ∈ column0 out1)) by done.
    rewrite (filter_none (λ x, x ∉ column0 out1)); [by rewrite app_nil_r|].
    eapply Forall_impl; [done|]. simpl. tauto. }
  assert (NoDup (column0 out1)) as Hnd1 by by rewrite Hp1.
  assert (NoDup (column0 out2)) as Hnd2 by by rewrite Hids.
  assert (∀ v, v ∈ out1 → 2 ≤ length v) as Hwide.
  { intros v Hv. eapply Forall_forall in Hw1; [|done]. rewrite Hw1.
    assert (1 ≤ shape1 (order_profiles None (prepare_mat t)).1.1); [|lia].
    rewrite order_profiles_full. simpl. apply sorted_shape1.
    intros Hnil. rewrite order_profiles_full in Hlen1. simpl in Hlen1.
    rewrite Hnil in Hlen1. destruct out1; [|done]. by apply elem_of_nil in Hv. }
  assert (∀ r, r ∈ out2 → r ∈ out1) as Hsub.
  { intros r Hr. apply list_elem_of_lookup in Hr as [k Hr].
    destruct (id_rows_lookup _ _ _ _ _ Hrows2 Hr) as (_ & x & Hx & Hhead).
    unfold hierCC in Hrun2.
    destruct (append_out_ids _ _ _ _ _ k r x Hpos Hrun2 Hr Hhead) as [Hk Hxpos].
    assert (x ∈ column0 out1) as Hin.
    { rewrite Hp1.
      rewrite <-(column0_perm _ _ (order_profiles_perm (Some out1) (prepare_mat t))).
      apply list_elem_of_lookup. eauto. }
    destruct (typed_of_is_Some out1 x Hin Hxpos) as [j Hj].
    destruct (append_typed_row _ _ _ _ _ k x j Hpos Hwide Hrun2 Hk Hj)
      as (v & Hv & Hout & _).
    assert (v = r) as -> by congruence.
    apply list_elem_of_lookup. eauto. }
  assert (∀ r1 r2 x, r1 ∈ out1 → r2 ∈ out2 →
            head r1 = Some x → head r2 = Some x → r1 = r2) as Hsame.
  { intros r1 r2 x H1 H2 Hh1 Hh2.
    by apply (same_id_same_row out1 r1 r2 x Hnd1 H1 (Hsub r2 H2)). }
  split; [done|]. split; [|done].
  apply NoDup_Permutation.
  - by eapply NoDup_fmap_1.
  - by eapply NoDup_fmap_1.
  - intros r. split; [apply Hsub|]. intros Hr.
    pose proof Hr as Hr'. apply list_elem_of_lookup in Hr' as [j Hj].
    destruct (id_rows_lookup _ _ _ _ _ Hrows1 Hj) as (_ & x & Hx & Hhead).
    assert (x ∈ column0 out2) as Hin.
    { rewrite Hids, <-Hp1, Hcol1. apply list_elem_of_lookup. eauto. }
    apply list_elem_of_lookup in Hin as [k Hk].
    unfold column0 in Hk. rewrite list_lookup_fmap in Hk.
    destruct (out2 !! k) as [r2|] eqn:Hr2; [|done]. simpl in Hk.
    assert (r2 ∈ out2) as Hr2in by (apply list_elem_of_lookup; eauto).
    destruct (id_rows_lookup _ _ _ _ _ Hrows2 Hr2) as (_ & x2 & _ & Hhead2).
    rewrite Hhead2 in Hk. simpl in Hk. simplify_eq.
    by rewrite (Hsame r r2 x Hr Hr2in Hhead Hhead2).
Qed.

(** ** The further properties at concrete inputs *)

Lemma prepare_mat_ignores_comment_columns_witness :
  prepare_mat {| header := header comment_table;
                 body := (λ r, <[2 := 0%Z]> r) <$> body comment_table |}
  = prepare_mat {| header := header comment_table;
                   body := body comment_table |}.
Proof.
  apply (prepare_mat_ignores_comment_columns (header comment_table)
           (body comment_table) 2 "#note" (λ _, 0%Z)).
  - lia.
  - reflexivity.
  - reflexivity.
Defined.

Lemma prepare_mat_width_witness :
  Forall (λ r, length r
               = 1 + length (filter (λ s, String.prefix "#" s = false)
                               ["g1"; "#note"; "g2"; "g3"]%string))
         (prepare_mat comment_table).
Proof.
  apply (prepare_mat_width comment_table "#ST_id").
  - reflexivity.
  - repeat constructor.
Defined.

Lemma run_output_shape_witness :
  length append_out
  = length (order_profiles (Some repeated_snapshot)
              (prepare_mat append_table)).1.1 ∧
  column0 append_out
  = column0 (order_profiles (Some repeated_snapshot)
               (prepare_mat append_table)).1.1 ∧
  Forall (λ r, length r
               = shape1 (order_profiles (Some repeated_snapshot)
                           (prepare_mat append_table)).1.1 + 1) append_out.
Proof.
  apply (run_output_shape allelic_getDistance Scipy.linkage
           (Some repeated_snapshot) append_table append_out).
  by vm_compute.
Defined.

Lemma run_without_profiles_fails_witness :
  hierCC_run None unnamed_table = None ∧
  hierCC_run (Some identical_snapshot) unnamed_table = None.
Proof.
  split.
  - apply (run_without_profiles_fails allelic_getDistance Scipy.linkage None
             unnamed_table).
    repeat constructor; done.
  - apply (run_without_profiles_fails allelic_getDistance Scipy.linkage
             (Some identical_snapshot) unnamed_table).
    repeat constructor; done.
Defined.

Lemma id_column_never_changes_witness :
  column0 [[3; 3; 2; 2; 2]; [7; 7; 7; 7; 7]; [8; 8; 8; 8; 8]]%Z
  = column0 (order_profiles (Some repeated_snapshot)
               (prepare_mat append_table)).1.1 ∧
  column0 append_out
  = column0 (order_profiles (Some repeated_snapshot)
               (prepare_mat append_table)).1.1 ∧
  set_column0 (column0 (order_profiles (Some repeated_snapshot)
                          (prepare_mat append_table)).1.1) append_out
  = append_out.
Proof.
  apply (id_column_never_changes allelic_getDistance Scipy.linkage
           (Some repeated_snapshot) append_table
           [[3; 3; 3; 3; 3]; [7; 7; 7; 7; 7]; [8; 8; 8; 8; 8]]%Z).
  - by vm_compute.
  - by vm_compute.
  - by vm_compute.
Defined.

Lemma init_res_rows_are_ids_witness :
  init_res (order_profiles None (prepare_mat comment_table)).1.1
  = Some ((λ x, replicate
                  (shape1 (order_profiles None (prepare_mat comment_table)).1.1
                   + 1) x)
          <$> column0 (order_profiles None (prepare_mat comment_table)).1.1).
Proof.
  apply (init_res_rows_are_ids None comment_table). by vm_compute.
Defined.

Lemma other_linkage_contract :
  linkage_contract allelic_getDistance other_linkage
    (stable_sort_by absence (prepare_mat example_table)).
Proof.
  intros D y slc HD Hy Hslc.
  vm_compute in HD. injection HD as <-.
  vm_compute in Hslc. injection Hslc as <-.
  vm_compute. reflexivity.
Defined.

Lemma full_run_independent_of_dendrogram_witness :
  Scipy.linkage [1; 2; 3; 1; 3; 3] ≠ other_linkage [1; 2; 3; 1; 3; 3] ∧
  example_out = example_out.
Proof.
  split; [by vm_compute|].
  apply (full_run_independent_of_dendrogram allelic_getDistance
           Scipy.linkage other_linkage example_table example_out example_out).
  - exact example_ids_NoDup.
  - exact example_linkage_contract.
  - exact other_linkage_contract.
  - apply allelic_asyn_contract.
  - by vm_compute.
  - by vm_compute.
Defined.

Lemma full_run_codes_decrease_witness :
  ∃ c1 c2, code example_out 1 0 = Some c1 ∧ code example_out 1 1 = Some c2 ∧
           (c2 ≤ c1)%Z ∧ (c1 ≤ 2)%Z.
Proof.
  apply (full_run_codes_decrease allelic_getDistance Scipy.linkage
           example_table example_out).
  - exact example_ids_NoDup.
  - exact example_linkage_contract.
  - apply allelic_asyn_contract.
  - by vm_compute.
  - reflexivity.
  - lia.
  - vm_compute. lia.
Defined.

Lemma full_run_one_cluster_witness :
  code example_out 3 3
  = list_minZ (column0 (stable_sort_by absence (prepare_mat example_table))).
Proof.
  apply (full_run_one_cluster allelic_getDistance Scipy.linkage
           example_table example_out 3).
  - exact example_ids_NoDup.
  - exact example_linkage_contract.
  - apply allelic_asyn_contract.
  - by vm_compute.
  - vm_compute. lia.
  - intros p q Hp Hq.
    destruct p as [|[|[|[|p]]]]; [..|vm_compute in Hp; lia];
    (destruct q as [|[|[|[|q]]]]; [..|vm_compute in Hq; lia]);
    vm_compute; lia.
  - vm_compute. lia.
Defined.

Lemma add_transpose_symmetric_witness :
  length [[0; 2]; [2; 0]] = length [[0; 0]; [2; 0]] ∧
  dist_at [[0; 2]; [2; 0]] 0 1 = dist_at [[0; 2]; [2; 0]] 1 0 ∧
  (0 < length [[0; 0]; [2; 0]] → 1 < length [[0; 0]; [2; 0]] →
   ∃ a b, dist_at [[0; 0]; [2; 0]] 0 1 = Some a ∧
          dist_at [[0; 0]; [2; 0]] 1 0 = Some b ∧
          dist_at [[0; 2]; [2; 0]] 0 1 = Some (a + b)).
Proof.
  apply (add_transpose_symmetric [[0; 0]; [2; 0]] [[0; 2]; [2; 0]] 0 1).
  reflexivity.
Defined.

Lemma append_run_row_order_witness :
  column0 append_out
  = filter (λ x, x ∈ column0 repeated_snapshot)
           (column0 (prepare_mat append_table))
    ++ filter (λ x, x ∉ column0 repeated_snapshot)
              (column0 (prepare_mat append_table)).
Proof.
  apply (append_run_row_order allelic_getDistance Scipy.linkage
           repeated_snapshot append_table append_out).
  by vm_compute.
Defined.

Lemma append_snapshot_width_mismatch_witness :
  hierCC_run (Some narrow_snapshot) append_table = None.
Proof.
  apply (append_snapshot_width_mismatch allelic_getDistance Scipy.linkage
           narrow_snapshot append_table 3%Z 1 [3; 3; 2; 2]%Z).
  - apply (bool_decide_unpack _). by vm_compute.
  - by vm_compute.
  - reflexivity.
  - simpl. lia.
  - vm_compute. lia.
Defined.

Lemma append_codes_are_ids_or_snapshot_values_witness :
  2%Z ∈ column0 (prepare_mat append_table) ∨
  ∃ v, v ∈ repeated_snapshot ∧ 2%Z ∈ v.
Proof.
  apply (append_codes_are_ids_or_snapshot_values allelic_getDistance
           Scipy.linkage repeated_snapshot append_table append_out
           ltac:(by vm_compute) [7; 7; 2; 2; 2]%Z 2%Z).
  - right. by left.
  - do 2 right. by left.
Defined.

Lemma append_uses_last_snapshot_row_witness :
  ∃ j, repeated_snapshot !! j = Some [3; 3; 2; 2; 2]%Z ∧
       ∀ j' v, j < j' → repeated_snapshot !! j' = Some v → head v ≠ Some 3%Z.
Proof.
  apply (append_uses_last_snapshot_row allelic_getDistance Scipy.linkage
           repeated_snapshot append_table append_out) with (k := 0).
  - intros v Hv. apply list_elem_of_In in Hv.
    destruct Hv as [<-|[<-|[<-|[]]]]; simpl; lia.
  - by vm_compute.
  - reflexivity.
  - reflexivity.
  - by left.
Defined.

Lemma report_lists_rows_by_id_witness :
  hierCC allelic_getDistance Scipy.linkage None comment_table
  = Some [[2; 2; 2; 2; 2]; [3; 3; 2; 2; 2]; [7; 2; 2; 2; 2]]%Z ∧
  length (report 3 [[2; 2; 2; 2; 2]; [3; 3; 2; 2; 2]; [7; 2; 2; 2; 2]]%Z)
  = S (length [[2; 2; 2; 2; 2]; [3; 3; 2; 2; 2]; [7; 2; 2; 2; 2]]%Z) ∧
  ∃ rows,
    report 3 [[2; 2; 2; 2; 2]; [3; 3; 2; 2; 2]; [7; 2; 2; 2; 2]]%Z
    = report_header (n_loci (prepare_mat comment_table))
      :: (report_line <$> rows) ∧
    rows ≡ₚ [[2; 2; 2; 2; 2]; [3; 3; 2; 2; 2]; [7; 2; 2; 2; 2]]%Z ∧
    StronglySorted (λ a b, (row_id a ≤ row_id b)%Z) rows.
Proof.
  apply (report_lists_rows_by_id allelic_getDistance Scipy.linkage None
           comment_table).
  by vm_compute.
Defined.

Lemma append_run_returns_witness :
  is_Some (hierCC_run (Some repeated_snapshot) append_table).
Proof.
  apply (append_run_returns allelic_getDistance Scipy.linkage
           repeated_snapshot append_table).
  - by vm_compute.
  - intros v Hv. apply list_elem_of_In in Hv.
    destruct Hv as [<-|[<-|[<-|[]]]]; by left.
  - intros dv Hdv. apply list_elem_of_In in Hdv. vm_compute in Hdv.
    destruct Hdv as [<-|[<-|[]]];
      (split; [done|repeat constructor; vm_compute; lia]).
Defined.

Lemma full_run_returns_witness :
  is_Some (hierCC_run None example_table).
Proof.
  eapply (full_run_returns allelic_getDistance Scipy.linkage example_table
            [[0; 1; 2; 3]; [1; 0; 1; 3]; [2; 1; 0; 3]; [3; 3; 3; 0]]
            [1; 2; 3; 1; 3; 3] [(0, 1, 1); (2, 4, 1); (3, 5, 3)]).
  - by vm_compute.
  - exact example_ids_NoDup.
  - by vm_compute.
  - by vm_compute.
  - by vm_compute.
  - by vm_compute.
  - intros dv Hdv. apply list_elem_of_In in Hdv. vm_compute in Hdv.
    destruct Hdv as [<-|[<-|[<-|[<-|[]]]]];
      (split; [done|repeat constructor; vm_compute; lia]).
Defined.

Lemma append_after_full_run_keeps_rows_witness :
  column0 [[7; 2; 2; 2; 2]; [2; 2; 2; 2; 2]; [3; 3; 2; 2; 2]]%Z
  = column0 (prepare_mat comment_table) ∧
  [[7; 2; 2; 2; 2]; [2; 2; 2; 2; 2]; [3; 3; 2; 2; 2]]%Z
  ≡ₚ [[2; 2; 2; 2; 2]; [3; 3; 2; 2; 2]; [7; 2; 2; 2; 2]]%Z ∧
  ∀ r1 r2 x,
    r1 ∈ [[2; 2; 2; 2; 2]; [3; 3; 2; 2; 2]; [7; 2; 2; 2; 2]]%Z →
    r2 ∈ [[7; 2; 2; 2; 2]; [2; 2; 2; 2; 2]; [3; 3; 2; 2; 2]]%Z →
    head r1 = Some x → head r2 = Some x → r1 = r2.
Proof.
  apply (append_after_full_run_keeps_rows allelic_getDistance
           allelic_getDistance Scipy.linkage Scipy.linkage comment_table).
  - apply (bool_decide_unpack _). by vm_compute.
  - by vm_compute.
  - by vm_compute.
Defined.
